(** * pso_ta_records: the join / filter / sort / render pipeline

    A shallow embedding of [js/app.js] (the leaderboard renderer) and of the
    filtering page script (multi-select typeahead and [filterRecords]).

    Conventions of the embedding.
    - The ids, ranks and times of the data model are integers and are
      modelled by [Z]; [String(n)] of an id or a rank is its decimal
      notation ([pretty]).  [formatTime] is modelled on the numbers
      themselves: binary64 values with their arithmetic and their
      [String(...)] ([number], [JsNumber]).
    - JavaScript strings are modelled by [string], sequences of 8-bit
      characters: ASCII text as it is, other text by its UTF-8 bytes.
      [trim] and [toLowerCase] are modelled on the ASCII range and leave
      every other character as it is; what is proved about the result of
      the two is stated for ASCII text.  The five characters [esc] replaces
      are ASCII.
    - Fields that the code guards with [??] or [String(...)] keep their
      nullable shape: [value] for meta and category, [option string] for
      names, classes and POV links.
    - [Map] objects are [gmap]s, [Set] objects are [gset]s, arrays are lists;
      a loop that pushes onto an array is a left fold that appends.
    - [Array.prototype.sort] is the stable insertion sort [Array_sort].
    - [String.prototype.localeCompare] is host-defined collation; it is a
      parameter of the development (Section [Pipeline]).  ECMA-262 makes it
      a consistent comparator that may return zero for two different
      strings; each theorem on sorted rows names what it assumes of it. *)

From Stdlib Require Import ZArith Ascii Sorting.Sorted Sorting.Permutation.
From Stdlib Require OrderedTypeEx.
From stdpp Require Import gmap strings pretty list sorting.

Local Open Scope Z_scope.

(** ** JavaScript values that reach [String(...)] *)

Inductive value :=
  | Undefined
  | Null
  | Str (s : string)
  | Num (z : Z).

Global Instance value_eq_dec : EqDecision value.
Proof. solve_decision. Defined.

(** [String(v)] *)
Definition String_ (v : value) : string :=
  match v with
  | Undefined => "undefined"
  | Null => "null"
  | Str s => s
  | Num z => pretty z
  end.

(** [v ?? d] *)
Definition nullish (v d : value) : value :=
  match v with
  | Undefined | Null => d
  | _ => v
  end.

(** [o ?? d] for an optional string field *)
Definition or_str (o : option string) (d : string) : string :=
  match o with
  | Some s => s
  | None => d
  end.

(** ** String primitives *)

Module JsString.

(** [s.replaceAll(c, rep)] for a one-character pattern [c]. *)
Fixpoint replaceAll (c : ascii) (rep : string) (s : string) : string :=
  match s with
  | EmptyString => EmptyString
  | String a s' =>
      if Ascii.eqb a c then rep +:+ replaceAll c rep s'
      else String a (replaceAll c rep s')
  end.

Definition is_upper (a : ascii) : bool :=
  let n := nat_of_ascii a in (65 <=? n)%nat && (n <=? 90)%nat.

Definition lower_char (a : ascii) : ascii :=
  if is_upper a then ascii_of_nat (nat_of_ascii a + 32) else a.

(** [s.toLowerCase()] *)
Fixpoint toLowerCase (s : string) : string :=
  match s with
  | EmptyString => EmptyString
  | String a s' => String (lower_char a) (toLowerCase s')
  end.

Fixpoint trimStart (s : string) : string :=
  match s with
  | EmptyString => EmptyString
  | String a s' => if Ascii.is_space a then trimStart s' else s
  end.

Fixpoint trimEnd (s : string) : string :=
  match s with
  | EmptyString => EmptyString
  | String a s' =>
      match trimEnd s' with
      | EmptyString => if Ascii.is_space a then EmptyString else String a EmptyString
      | t => String a t
      end
  end.

(** [s.trim()] *)
Definition trim (s : string) : string := trimEnd (trimStart s).

(** [s.startsWith(p)] *)
Fixpoint startsWith (p s : string) : bool :=
  match p, s with
  | EmptyString, _ => true
  | String a p', String b s' => Ascii.eqb a b && startsWith p' s'
  | String _ _, EmptyString => false
  end.

(** [s.includes(q)] *)
Fixpoint includes (s q : string) : bool :=
  startsWith q s ||
  match s with
  | EmptyString => false
  | String _ s' => includes s' q
  end.

(** [s.padStart(n, "0")] *)
Fixpoint pad_zeros (k : nat) (s : string) : string :=
  match k with
  | O => s
  | S k' => String "0" (pad_zeros k' s)
  end.

Definition padStart (n : nat) (s : string) : string :=
  pad_zeros (n - String.length s) s.

(** [xs.join(sep)] on an array of strings *)
Fixpoint join (sep : string) (xs : list string) : string :=
  match xs with
  | [] => EmptyString
  | [x] => x
  | x :: rest => x +:+ sep +:+ join sep rest
  end.

End JsString.

Import JsString.

(** ** Helpers of [js/app.js] *)

Definition esc (v : value) : string :=
  replaceAll "'" "&#39;"
    (replaceAll "034" "&quot;"
      (replaceAll ">" "&gt;"
        (replaceAll "<" "&lt;"
          (replaceAll "&" "&amp;" (String_ (nullish v (Str ""))))))).

Definition normalize (s : option string) : string :=
  toLowerCase (trim (or_str s "")).

(** ** Numbers

    A JavaScript number is a binary64 value.  The finite ones are written
    exactly: an integer is [Int z], and a number that is not an integer is
    [Frac m e], the fraction [m / 2^e] with [m] odd.  Of the integers, those
    of magnitude below [2^53] are all binary64 values; the arithmetic below
    is the binary64 arithmetic (the quotient is rounded to the nearest
    value, ties to even).  The two zeros are not told apart: nothing that is
    modelled here distinguishes them. *)
Inductive number :=
  | Int (z : Z)
  | Frac (m : Z) (e : positive)
  | NaN
  | PosInfinity
  | NegInfinity.

Module JsNumber.

(** A finite number as mantissa and binary exponent: [m * 2^e]. *)
Definition dyadic (x : number) : option (Z * Z) :=
  match x with
  | Int z => Some (z, 0)
  | Frac m e => Some (m, - Z.pos e)
  | _ => None
  end.

(** [m / 2^k] in lowest terms. *)
Fixpoint halve (k : nat) (m : Z) : number :=
  match k with
  | O => Int m
  | S k' => if Z.even m then halve k' (m / 2) else Frac m (Pos.of_succ_nat k')
  end.

(** The number [m * 2^e]. *)
Definition of_dyadic (m e : Z) : number :=
  if 0 <=? e then Int (m * 2 ^ e) else halve (Z.to_nat (- e)) m.

(** [Number.isFinite(x)] *)
Definition isFinite (x : number) : bool :=
  match x with
  | Int _ | Frac _ _ => true
  | _ => false
  end.

Definition negative (x : number) : bool :=
  match x with
  | Int z => z <? 0
  | Frac m _ => m <? 0
  | NegInfinity => true
  | _ => false
  end.

(** [-x] *)
Definition neg (x : number) : number :=
  match x with
  | Int z => Int (- z)
  | Frac m e => Frac (- m) e
  | NaN => NaN
  | PosInfinity => NegInfinity
  | NegInfinity => PosInfinity
  end.

(** [Math.abs(x)] *)
Definition abs (x : number) : number :=
  match x with
  | Int z => Int (Z.abs z)
  | Frac m e => Frac (Z.abs m) e
  | NaN => NaN
  | PosInfinity | NegInfinity => PosInfinity
  end.

(** [Math.floor(x)] *)
Definition floor (x : number) : number :=
  match x with
  | Frac m e => Int (m / 2 ^ Z.pos e)
  | _ => x
  end.

(** [x < y] *)
Definition ltb (x y : number) : bool :=
  match x, y with
  | NaN, _ | _, NaN => false
  | _, NegInfinity | PosInfinity, _ => false
  | NegInfinity, _ | _, PosInfinity => true
  | _, _ =>
      match dyadic x, dyadic y with
      | Some (m1, e1), Some (m2, e2) =>
          let e := Z.min e1 e2 in
          m1 * 2 ^ (e1 - e) <? m2 * 2 ^ (e2 - e)
      | _, _ => false
      end
  end.

(** [x % y]: the remainder has the sign of the dividend and is exact. *)
Definition rem (x y : number) : number :=
  match x, y with
  | NaN, _ | _, NaN | PosInfinity, _ | NegInfinity, _ => NaN
  | _, PosInfinity | _, NegInfinity => x
  | _, _ =>
      match dyadic x, dyadic y with
      | Some (m1, e1), Some (m2, e2) =>
          if m2 =? 0 then NaN
          else
            let e := Z.min e1 e2 in
            of_dyadic (Z.rem (m1 * 2 ^ (e1 - e)) (m2 * 2 ^ (e2 - e))) e
      | _, _ => NaN
      end
  end.

(** The binade of the positive rational [p / q]: the integer part of its
    binary logarithm. *)
Definition binade (p q : Z) : Z :=
  let d := Z.log2 p - Z.log2 q in
  if (if 0 <=? d then q * 2 ^ d <=? p else q <=? p * 2 ^ (- d))
  then d else d - 1.

(** The binary64 value nearest to the positive rational [p / q], ties to
    the even significand: 53 bits of significand, exponent not below
    [-1074], infinity from [2^1024] on. *)
Definition round_ratio (p q : Z) : number :=
  let e := Z.max (binade p q - 52) (-1074) in
  let P := if 0 <=? e then p else p * 2 ^ (- e) in
  let Q := if 0 <=? e then q * 2 ^ e else q in
  let m := P / Q in
  let r := P mod Q in
  let m' :=
    if 2 * r <? Q then m
    else if Q <? 2 * r then m + 1
    else if Z.even m then m else m + 1 in
  if (0 <=? e) && (2 ^ 1024 <=? m' * 2 ^ e) then PosInfinity
  else of_dyadic m' e.

(** [x / y] *)
Definition div (x y : number) : number :=
  match x, y with
  | NaN, _ | _, NaN => NaN
  | (PosInfinity | NegInfinity), (PosInfinity | NegInfinity) => NaN
  | (PosInfinity | NegInfinity), _ =>
      if xorb (negative x) (negative y) then NegInfinity else PosInfinity
  | _, (PosInfinity | NegInfinity) => Int 0
  | _, _ =>
      match dyadic x, dyadic y with
      | Some (m1, e1), Some (m2, e2) =>
          if m2 =? 0 then
            if m1 =? 0 then NaN
            else if m1 <? 0 then NegInfinity else PosInfinity
          else if m1 =? 0 then Int 0
          else
            let e := Z.min e1 e2 in
            let q := round_ratio (Z.abs m1 * 2 ^ (e1 - e))
                                 (Z.abs m2 * 2 ^ (e2 - e)) in
            if xorb (m1 <? 0) (m2 <? 0) then neg q else q
      | _, _ => NaN
      end
  end.

(** *** [String(x)]

    [Number::toString] writes the shortest decimal [s * 10^t] that reads
    back as [x], the one nearest to [x] if there are several.  A decimal
    reads back as [x] when it lies in the rounding interval of [x], which
    ends halfway to the neighbouring binary64 values and contains its ends
    when the significand of [x] is even. *)

Record Interval := {
  iv_exp : Z;      (* the unit is 2^iv_exp *)
  iv_lo : Z;
  iv_mid : Z;      (* x itself *)
  iv_hi : Z;
  iv_closed : bool;
}.

(** The rounding interval of the positive binary64 value [m * 2^e]. *)
Definition interval (m e : Z) : Interval :=
  let E := Z.max (Z.log2 m + e - 52) (-1074) in
  let M := if E <=? e then m * 2 ^ (e - E) else m / 2 ^ (E - e) in
  {| iv_exp := E - 2;
     iv_lo := if (M =? 2 ^ 52) && (-1074 <? E) then 4 * M - 1 else 4 * M - 2;
     iv_mid := 4 * M;
     iv_hi := 4 * M + 2;
     iv_closed := Z.even M |}.

(** [s * 10^t] and [b * 2^iv_exp], both scaled by the same positive factor
    that makes them integers. *)
Definition scaled_decimal (iv : Interval) (s t : Z) : Z :=
  s * 10 ^ Z.max t 0 * 2 ^ Z.max (- iv_exp iv) 0.

Definition scaled_bound (iv : Interval) (b t : Z) : Z :=
  b * 2 ^ Z.max (iv_exp iv) 0 * 10 ^ Z.max (- t) 0.

(** [s * 10^t] reads back as [x]. *)
Definition reads_back (iv : Interval) (s t : Z) : bool :=
  let d := scaled_decimal iv s t in
  (0 <? s) &&
  if iv_closed iv
  then (scaled_bound iv (iv_lo iv) t <=? d) && (d <=? scaled_bound iv (iv_hi iv) t)
  else (scaled_bound iv (iv_lo iv) t <? d) && (d <? scaled_bound iv (iv_hi iv) t).

(** The multiple of [10^t] that reads back as [x], if there is one: only
    the two multiples next to [x] can, and of two that do the nearer is
    taken (the even one if they are equally near). *)
Definition digits_at (iv : Interval) (t : Z) : option Z :=
  let v := scaled_bound iv (iv_mid iv) t in
  let below := v / scaled_decimal iv 1 t in
  let above := below + 1 in
  match reads_back iv below t, reads_back iv above t with
  | true, true =>
      let d_below := v - scaled_decimal iv below t in
      let d_above := scaled_decimal iv above t - v in
      if d_below <? d_above then Some below
      else if d_above <? d_below then Some above
      else if Z.even below then Some below else Some above
  | true, false => Some below
  | false, true => Some above
  | false, false => None
  end.

(** The search for the shortest decimal: the largest [t] at which a
    multiple of [10^t] reads back as [x]. *)
Fixpoint shortest (fuel : nat) (iv : Interval) (t : Z) : Z * Z :=
  match fuel with
  | O => (0, t)
  | S fuel' =>
      match digits_at iv t with
      | Some s => (s, t)
      | None => shortest fuel' iv (t - 1)
      end
  end.

Definition zeros (n : Z) : string := pad_zeros (Z.to_nat n) "".

Fixpoint take_chars (n : nat) (s : string) : string :=
  match n, s with
  | S n', String a s' => String a (take_chars n' s')
  | _, _ => ""
  end.

Fixpoint drop_chars (n : nat) (s : string) : string :=
  match n, s with
  | S n', String _ s' => drop_chars n' s'
  | _, _ => s
  end.

(** The decimal [s * 10^t] as [Number::toString] lays it out: [k] digits,
    the decimal point after the [n]-th. *)
Definition layout (s t : Z) : string :=
  let digits := pretty s in
  let k := Z.of_nat (String.length digits) in
  let n := k + t in
  if (k <=? n) && (n <=? 21) then digits +:+ zeros (n - k)
  else if (0 <? n) && (n <=? 21) then
    take_chars (Z.to_nat n) digits +:+ "." +:+ drop_chars (Z.to_nat n) digits
  else if (-6 <? n) && (n <=? 0) then "0." +:+ zeros (- n) +:+ digits
  else
    let e := n - 1 in
    (if k =? 1 then digits
     else take_chars 1 digits +:+ "." +:+ drop_chars 1 digits)
    +:+ "e" +:+ (if 0 <=? e then "+" else "-") +:+ pretty (Z.abs e).

(** [String(m * 2^e)] for [m] positive. *)
Definition positive_toString (m e : Z) : string :=
  let iv := interval m e in
  let t0 := Z.max 0 ((Z.log2 m + e + 2) / 3 + 1) in
  let '(s, t) := shortest (Z.to_nat (t0 + 400)) iv t0 in
  layout s t.

(** [String(x)] *)
Definition toString (x : number) : string :=
  match x with
  | NaN => "NaN"
  | PosInfinity => "Infinity"
  | NegInfinity => "-Infinity"
  | Int z =>
      if z =? 0 then "0"
      else if z <? 0 then "-" +:+ positive_toString (- z) 0
      else positive_toString z 0
  | Frac m e =>
      if m <? 0 then "-" +:+ positive_toString (- m) (- Z.pos e)
      else positive_toString m (- Z.pos e)
  end.

End JsNumber.

Definition formatTime (seconds : number) : string :=
  let n := seconds in
  if negb (JsNumber.isFinite n) then ""
  else
    let abs := JsNumber.abs n in
    let m := JsNumber.floor (JsNumber.div abs (Int 60)) in
    let s := JsNumber.rem abs (Int 60) in
    let ss := padStart 2 (JsNumber.toString s) in
    if JsNumber.ltb n (Int 0)
    then JsNumber.toString m +:+ "'" +:+ ss +:+ " Remaining"
    else JsNumber.toString m +:+ "'" +:+ ss.

(** ** Data model *)

Record Quest := { q_id : Z; q_name : option string }.
Record Player := { p_id : Z; p_name : option string }.

Record Rec := {
  r_id : Z;
  r_quest_id : Z;
  r_meta : value;
  r_category : value;
  r_pb : bool;
  r_time : Z;
  r_rank : Z;
}.

Record PlayerRecord := {
  pr_id : Z;
  pr_record_id : Z;
  pr_player_id : Z;
  pr_pso_class : option string;
  pr_pov : option string;
}.

(** A joined row, as pushed onto [joinedRows]. *)
Record JoinedRow := {
  row_record : Rec;
  row_questName : option string;
  row_pr : option PlayerRecord;
  row_playerName : string;
  row_cls : string;
  row_pov : string;
}.

Global Instance Quest_eq_dec : EqDecision Quest.
Proof. solve_decision. Defined.
Global Instance Player_eq_dec : EqDecision Player.
Proof. solve_decision. Defined.
Global Instance Rec_eq_dec : EqDecision Rec.
Proof. solve_decision. Defined.
Global Instance PlayerRecord_eq_dec : EqDecision PlayerRecord.
Proof. solve_decision. Defined.
Global Instance JoinedRow_eq_dec : EqDecision JoinedRow.
Proof. solve_decision. Defined.

(** [buildIdMap]: later entries overwrite earlier ones. *)
Definition buildIdMap {A} (id : A → Z) (items : list A) : gmap Z A :=
  foldl (λ m it, <[id it := it]> m) ∅ items.

Definition groupKey (record : Rec) (questName : option string) : string :=
  join "||"
    [ or_str questName "(unknown quest)";
      String_ (nullish (r_meta record) (Str ""));
      String_ (nullish (r_category record) (Str ""));
      if r_pb record then "PB" else "NoPB" ].

(** The separator of [groupLabel] is an em dash between two spaces; it is
    written here by its three UTF-8 bytes. *)
Definition em_dash_sep : string :=
  String " " (String "226" (String "128" (String "148" (String " " EmptyString)))).

Definition groupLabel (record : Rec) (questName : option string) : string :=
  let pbText := if r_pb record then "PB" else "No-PB" in
  or_str questName "(unknown quest)" +:+ em_dash_sep +:+
  String_ (r_category record) +:+ em_dash_sep +:+
  String_ (r_meta record) +:+ em_dash_sep +:+ pbText.

(** ** [Array.prototype.sort] with a comparator

    ECMAScript requires the sort to be stable and, for a consistent
    comparator, to order the array by it.  The model is the stable insertion
    sort: [cmp a b <= 0] keeps [a] before [b]. *)

Section ArraySort.
Context {A : Type} (cmp : A → A → Z).

Fixpoint sort_insert (x : A) (l : list A) : list A :=
  match l with
  | [] => [x]
  | y :: l' => if cmp x y <=? 0 then x :: y :: l' else y :: sort_insert x l'
  end.

Definition Array_sort (l : list A) : list A := foldr sort_insert [] l.
End ArraySort.

(** [records.slice(0, end)] *)
Definition slice0 {A} (l : list A) (e : Z) : list A :=
  if e <? 0 then take (Z.to_nat (Z.max (Z.of_nat (length l) + e) 0)) l
  else take (Z.to_nat e) l.

(** ** The rendered table body

    [tbodyRows] holds three kinds of [<tr>] strings; they are kept apart here
    and turned into markup by [tr_html]. *)

Record DataRow := {
  Quest_ : value;
  Meta : value;
  Category : value;
  PB : value;
  Time : value;
  Rank : value;
  Player_ : value;
  Class_ : value;
  POV : string; (* already markup *)
}.

Inductive tr :=
  | GroupLabelRow (label : string)
  | GroupDividerRow
  | DataTr (d : DataRow).

Global Instance DataRow_eq_dec : EqDecision DataRow.
Proof. solve_decision. Defined.
Global Instance tr_eq_dec : EqDecision tr.
Proof. solve_decision. Defined.

Definition headers : list string :=
  ["Quest"; "Meta"; "Category"; "PB"; "Time"; "Rank"; "Player"; "Class"; "POV"].

(** [dataRow[h]] for the non-POV headers *)
Definition dataRow_get (d : DataRow) (h : string) : value :=
  if String.eqb h "Quest" then Quest_ d
  else if String.eqb h "Meta" then Meta d
  else if String.eqb h "Category" then Category d
  else if String.eqb h "PB" then PB d
  else if String.eqb h "Time" then Time d
  else if String.eqb h "Rank" then Rank d
  else if String.eqb h "Player" then Player_ d
  else if String.eqb h "Class" then Class_ d
  else Undefined.

Definition colspan : string := pretty (Z.of_nat (length headers)).

(** The double-quote character and [name="val"] inside a template literal. *)
Definition dquote : string := String "034" EmptyString.
Definition attr (name val : string) : string :=
  name +:+ "=" +:+ dquote +:+ val +:+ dquote.

Definition tr_html (t : tr) : string :=
  match t with
  | GroupLabelRow label =>
      "<tr " +:+ attr "class" "group-label" +:+ "><td " +:+
      attr "colspan" colspan +:+ ">" +:+ esc (Str label) +:+ "</td></tr>"
  | GroupDividerRow =>
      "<tr " +:+ attr "class" "group-divider" +:+ "><td " +:+
      attr "colspan" colspan +:+ "><div " +:+ attr "class" "bar" +:+
      "></div></td></tr>"
  | DataTr d =>
      let tds := join "" (map (λ h,
        if String.eqb h "POV" then "<td>" +:+ POV d +:+ "</td>"
        else "<td>" +:+ esc (dataRow_get d h) +:+ "</td>") headers) in
      "<tr>" +:+ tds +:+ "</tr>"
  end.

(** [/^https?:\/\//i.test(s)] *)
Definition is_http_url (s : string) : bool :=
  let l := toLowerCase s in
  startsWith "http://" l || startsWith "https://" l.

Definition povHTML (pov : string) : string :=
  if negb (String.eqb pov "") && is_http_url pov
  then "<a " +:+ attr "href" (esc (Str pov)) +:+ " " +:+
       attr "target" "_blank" +:+ " " +:+
       attr "rel" "noopener noreferrer" +:+ ">" +:+
       esc (Str pov) +:+ "</a>"
  else esc (Str pov).

(** ** [renderGroupedTable] *)

(** [limitN ? records.slice(0, limitN) : records]; [None] is [null]. *)
Definition selectRecords (records : list Rec) (limitN : option Z) : list Rec :=
  match limitN with
  | Some n => if n =? 0 then records else slice0 records n
  | None => records
  end.

Section Join.
Variable questById : gmap Z Quest.
Variable playerRecords : list PlayerRecord.
Variable playerById : gmap Z Player.

(** [playerRecords.filter(pr => pr.record_id === record.id)
      .sort((a, b) => a.id - b.id)] *)
Definition prsForRecord (record : Rec) : list PlayerRecord :=
  Array_sort (λ a b, pr_id a - pr_id b)
    (filter (λ pr, pr_record_id pr = r_id record) playerRecords).

Definition questNameOf (record : Rec) : option string :=
  questById !! r_quest_id record ≫= q_name.

Definition placeholderRow (record : Rec) : JoinedRow :=
  {| row_record := record;
     row_questName := questNameOf record;
     row_pr := None;
     row_playerName := "(none found)";
     row_cls := "";
     row_pov := "" |}.

Definition participantRow (record : Rec) (pr : PlayerRecord) : JoinedRow :=
  let p := playerById !! pr_player_id pr in
  {| row_record := record;
     row_questName := questNameOf record;
     row_pr := Some pr;
     row_playerName :=
       or_str (p ≫= p_name)
              ("(unknown player " +:+ pretty (pr_player_id pr) +:+ ")");
     row_cls := or_str (pr_pso_class pr) "";
     row_pov := or_str (pr_pov pr) "" |}.

(** One iteration of the loop over [selected]: the rows it pushes. *)
Definition joinStep (joinedRows : list JoinedRow) (record : Rec)
  : list JoinedRow :=
  let prs := prsForRecord record in
  if (length prs =? 0)%nat then joinedRows ++ [placeholderRow record]
  else foldl (λ rows pr, rows ++ [participantRow record pr]) joinedRows prs.

Definition joinRows (selected : list Rec) : list JoinedRow :=
  foldl joinStep [] selected.
End Join.

(** The state of the rendering loop. *)
Record RenderState := {
  lastGroup : option string;
  lastRecordIdWithinGroup : option Z;
  tbodyRows : list tr;
}.

Definition initRender : RenderState :=
  {| lastGroup := None; lastRecordIdWithinGroup := None; tbodyRows := [] |}.

Definition renderStep (st : RenderState) (row : JoinedRow) : RenderState :=
  let record := row_record row in
  let questName := row_questName row in
  let pbText := if r_pb record then "PB" else "No-PB" in
  let gk := groupKey record questName in
  let st1 :=
    if bool_decide (Some gk ≠ lastGroup st) then
      {| lastGroup := Some gk;
         lastRecordIdWithinGroup := None;
         tbodyRows := tbodyRows st ++
           [GroupLabelRow (groupLabel record questName); GroupDividerRow] |}
    else st in
  let isFirstRowForThisRecord :=
    bool_decide (Some (r_id record) ≠ lastRecordIdWithinGroup st1) in
  let lastRec :=
    if isFirstRowForThisRecord then Some (r_id record)
    else lastRecordIdWithinGroup st1 in
  let dataRow :=
    {| Quest_ := if isFirstRowForThisRecord
                 then Str (or_str questName "(unknown quest)") else Str "";
       Meta := if isFirstRowForThisRecord then r_meta record else Str "";
       Category := if isFirstRowForThisRecord then r_category record else Str "";
       PB := if isFirstRowForThisRecord then Str pbText else Str "";
       Time := if isFirstRowForThisRecord
               then Str (formatTime (Int (r_time record))) else Str "";
       Rank := if isFirstRowForThisRecord then Num (r_rank record) else Str "";
       Player_ := Str (row_playerName row);
       Class_ := Str (row_cls row);
       POV := povHTML (row_pov row) |} in
  {| lastGroup := lastGroup st1;
     lastRecordIdWithinGroup := lastRec;
     tbodyRows := tbodyRows st1 ++ [DataTr dataRow] |}.

Definition renderBody (joinedRows : list JoinedRow) : list tr :=
  tbodyRows (foldl renderStep initRender joinedRows).

Definition thead : string :=
  "<thead><tr>" +:+
  join "" (map (λ h, "<th>" +:+ esc (Str h) +:+ "</th>") headers) +:+
  "</tr></thead>".

Section Pipeline.
(** Host collation: [a.localeCompare(b)] is negative, zero or positive. *)
Variable localeCompare : string → string → Z.

Definition pr_id_or_0 (row : JoinedRow) : Z :=
  match row_pr row with
  | Some pr => pr_id pr
  | None => 0
  end.

(** The comparator handed to [joinedRows.sort]. *)
Definition compareRows (a b : JoinedRow) : Z :=
  let ka := groupKey (row_record a) (row_questName a) in
  let kb := groupKey (row_record b) (row_questName b) in
  if bool_decide (ka ≠ kb) then localeCompare ka kb
  else if bool_decide (r_id (row_record a) ≠ r_id (row_record b)) then
    if bool_decide (r_rank (row_record a) ≠ r_rank (row_record b))
    then r_rank (row_record a) - r_rank (row_record b)
    else if bool_decide (r_time (row_record a) ≠ r_time (row_record b))
    then r_time (row_record a) - r_time (row_record b)
    else r_id (row_record a) - r_id (row_record b)
  else
    let aid := pr_id_or_0 a in
    let bid := pr_id_or_0 b in
    if bool_decide (aid ≠ bid) then aid - bid
    else localeCompare (row_playerName a) (row_playerName b).

Definition sortRows (joinedRows : list JoinedRow) : list JoinedRow :=
  Array_sort compareRows joinedRows.

Definition renderGroupedTable (records : list Rec) (questById : gmap Z Quest)
    (playerRecords : list PlayerRecord) (playerById : gmap Z Player)
    (limitN : option Z) : string :=
  let selected := selectRecords records limitN in
  let joinedRows := joinRows questById playerRecords playerById selected in
  let sorted := sortRows joinedRows in
  let tbody :=
    "<tbody>" +:+ join "" (map tr_html (renderBody sorted)) +:+ "</tbody>" in
  "<table " +:+ attr "class" "pivot" +:+ ">" +:+ thead +:+ tbody +:+ "</table>".
End Pipeline.

(** ** The filtering page: typeahead suggestions and [filterRecords] *)

Module Filters.

(** Typeahead items: [{key, label}]. *)
Record Item := { key : string; label : string }.

Global Instance Item_eq_dec : EqDecision Item.
Proof. solve_decision. Defined.

Section Typeahead.
Variable items : list Item.
Variable selectedSet : gset string.

(** The [for (const it of items)] loop of [buildSuggestionList], with its
    [continue] and [break]. *)
Fixpoint suggestLoop (q : string) (its : list Item) (matches : list Item)
  : list Item :=
  match its with
  | [] => matches
  | it :: rest =>
      if bool_decide (key it ∈ selectedSet) then suggestLoop q rest matches
      else
        let matches' :=
          if includes (normalize (Some (label it))) q
          then matches ++ [it] else matches in
        if (10 <=? length matches')%nat then matches'
        else suggestLoop q rest matches'
  end.

(** The array [matches] at the end of the loop; empty when the normalized
    query is empty (the function returns before the loop). *)
Definition suggestionMatches (query : string) : list Item :=
  let q := normalize (Some query) in
  if String.eqb q "" then [] else suggestLoop q items [].

Definition suggestionHtml (it : Item) : string :=
  "<div " +:+ attr "class" "suggestion" +:+ " " +:+
  attr "data-key" (esc (Str (key it))) +:+ ">" +:+
  esc (Str (label it)) +:+ "</div>".

Definition buildSuggestionList (query : string) : string :=
  let q := normalize (Some query) in
  if String.eqb q "" then ""
  else
    let matches := suggestLoop q items [] in
    if (length matches =? 0)%nat then ""
    else join "" (map suggestionHtml matches).
End Typeahead.

(** The loop that fills [allowedByPlayers] / [allowedByClasses]. *)
Definition collectRecordIds (hit : PlayerRecord → bool)
    (playerRecords : list PlayerRecord) : gset Z :=
  foldl (λ (s : gset Z) pr, if hit pr then s ∪ {[pr_record_id pr]} else s)
        ∅ playerRecords.

(** [String(Number(Boolean(b)))] *)
Definition bool_digit (b : bool) : string := if b then "1" else "0".

(** [!allowed || allowed.has(id)], [None] being [null] *)
Definition allowedHas (allowed : option (gset Z)) (id : Z) : bool :=
  match allowed with
  | Some s => bool_decide (id ∈ s)
  | None => true
  end.

Definition filterRecords (records : list Rec)
    (playerRecords : list PlayerRecord)
    (selectedPlayerIds selectedClasses : gset string)
    (metaVal countVal pbVal : string) : list Rec :=
  let allowedByPlayers :=
    if (size selectedPlayerIds =? 0)%nat then None
    else Some (collectRecordIds
                 (λ pr, bool_decide (pretty (pr_player_id pr) ∈ selectedPlayerIds))
                 playerRecords) in
  let allowedByClasses :=
    if (size selectedClasses =? 0)%nat then None
    else Some (collectRecordIds
                 (λ pr, bool_decide (normalize (pr_pso_class pr) ∈ selectedClasses))
                 playerRecords) in
  List.filter (λ r,
    if negb (String.eqb metaVal "") && negb (String.eqb (String_ (r_meta r)) metaVal)
    then false
    else if negb (String.eqb countVal "")
            && negb (String.eqb (String_ (r_category r)) countVal)
    then false
    else if negb (String.eqb pbVal "")
            && negb (String.eqb (bool_digit (r_pb r)) pbVal)
    then false
    else if negb (allowedHas allowedByPlayers (r_id r)) then false
    else if negb (allowedHas allowedByClasses (r_id r)) then false
    else true) records.

End Filters.

(** * Specification-level definitions

    The definitions below follow the wording of the specification; the
    theorems compare them with the code above. *)

(** The entity that stands for one character in escaped markup. *)
Definition entity (a : ascii) : string :=
  if Ascii.eqb a "&" then "&amp;"
  else if Ascii.eqb a "<" then "&lt;"
  else if Ascii.eqb a ">" then "&gt;"
  else if Ascii.eqb a "034" then "&quot;"
  else if Ascii.eqb a "'" then "&#39;"
  else String a EmptyString.

(** Character-by-character escaping. *)
Fixpoint escape_each (s : string) : string :=
  match s with
  | EmptyString => EmptyString
  | String a s' => entity a +:+ escape_each s'
  end.

(** The characters of a string, as a list. *)
Fixpoint chars (s : string) : list ascii :=
  match s with
  | EmptyString => []
  | String a s' => a :: chars s'
  end.

(** The four characters that never survive escaping (the ampersand does, as
    the first character of an entity). *)
Definition markup_char (a : ascii) : bool :=
  Ascii.eqb a "<" || Ascii.eqb a ">" || Ascii.eqb a "034" || Ascii.eqb a "'".

(** A decimal digit. *)
Definition digit (d : Z) : ascii := pretty_N_char (Z.to_N d).

(** Seconds as exactly two decimal digits. *)
Definition two_digits (s : Z) : string :=
  String (digit (s / 10)) (String (digit (s mod 10)) EmptyString).

(** A formatted time as the specification describes all of them: the
    minutes, an apostrophe, and seconds that begin with two digits. *)
Definition decimalDigit (a : ascii) : Prop := a ∈ chars "0123456789".

Definition twoDigitSeconds (out : string) : Prop :=
  ∃ (minutes : string) (d1 d2 : ascii) (rest : string),
    out = minutes +:+ String "'" (String d1 (String d2 rest)) ∧
    ("'"%char ∉ chars minutes) ∧ decimalDigit d1 ∧ decimalDigit d2.

(** Text in the ASCII range, where the model of [trim] and [toLowerCase]
    is the JavaScript function. *)
Definition asciiText (s : string) : Prop :=
  Forall (λ a, (nat_of_ascii a < 128)%nat) (chars s).

(** The field tuple a group key is built from. *)
Definition groupFields (record : Rec) (questName : option string)
  : string * value * value * bool :=
  (or_str questName "(unknown quest)", r_meta record, r_category record,
   r_pb record).

(** The rows one record contributes to the join. *)
Definition rowsForRecord (questById : gmap Z Quest)
    (playerRecords : list PlayerRecord) (playerById : gmap Z Player)
    (record : Rec) : list JoinedRow :=
  match prsForRecord playerRecords record with
  | [] => [placeholderRow questById record]
  | prs => map (participantRow questById playerById record) prs
  end.

(** The participants of a record: the player-records whose foreign key is
    the record's id. *)
Definition participants (playerRecords : list PlayerRecord) (R : Rec)
  : list PlayerRecord :=
  filter (λ pr, pr_record_id pr = r_id R) playerRecords.

(** How often a record occurs in the list handed to the join. *)
Definition occurrences (R : Rec) (selected : list Rec) : nat :=
  length (filter (λ r, r = R) selected).

(** The joined rows that belong to record [R]. *)
Definition rowsOf (R : Rec) (rows : list JoinedRow) : list JoinedRow :=
  filter (λ row, row_record row = R) rows.

(** ** The order of the sorted rows *)

(** What ECMA-262 requires of [localeCompare] as a function of two
    strings: a consistent comparator that orders all strings.  It may
    return zero for two different strings (it has to for canonically
    equivalent ones). *)
Class ConsistentComparator (localeCompare : string → string → Z) : Prop := {
  comparator_refl : ∀ x, localeCompare x x = 0;
  comparator_antisym : ∀ x y, localeCompare x y < 0 ↔ 0 < localeCompare y x;
  comparator_trans : ∀ x y z,
    localeCompare x y ≤ 0 → localeCompare y z ≤ 0 → localeCompare x z ≤ 0;
}.

(** A collation without ties: a strict total order on the strings
    (negative: before, positive: after, zero only for equal strings).
    Comparison by code units is one; a [localeCompare] that honours
    canonical equivalence is not, and the theorems that assume [Collation]
    speak of the tie-free case only. *)
Class Collation (localeCompare : string → string → Z) : Prop := {
  collation_eq : ∀ x y, localeCompare x y = 0 → x = y;
  collation_antisym : ∀ x y, localeCompare x y < 0 ↔ 0 < localeCompare y x;
  collation_trans : ∀ x y z,
    localeCompare x y < 0 → localeCompare y z < 0 → localeCompare x z < 0;
}.

(** Comparison by code units, the lexicographic order of the 8-bit
    characters: one collation that meets [Collation]. *)
Definition codeUnitCompare (x y : string) : Z :=
  match String.compare x y with
  | Lt => -1
  | Eq => 0
  | Gt => 1
  end.

(** The group key of a joined row. *)
Definition rowKey (row : JoinedRow) : string :=
  groupKey (row_record row) (row_questName row).

(** Distinct records of a group: rank ascending, then time ascending, then
    record id ascending. *)
Definition recordBefore (a b : Rec) : Prop :=
  r_rank a < r_rank b ∨
  (r_rank a = r_rank b ∧
   (r_time a < r_time b ∨ (r_time a = r_time b ∧ r_id a < r_id b))).

(** Rows of one record: participant id ascending, then participant name. *)
Definition participantBefore (localeCompare : string → string → Z)
    (a b : JoinedRow) : Prop :=
  pr_id_or_0 a < pr_id_or_0 b ∨
  (pr_id_or_0 a = pr_id_or_0 b ∧
   localeCompare (row_playerName a) (row_playerName b) ≤ 0).

(** The total order of the specification: group key first; inside a group,
    distinct records by [recordBefore]; inside a record, [participantBefore]. *)
Definition rowBefore (localeCompare : string → string → Z)
    (a b : JoinedRow) : Prop :=
  localeCompare (rowKey a) (rowKey b) < 0 ∨
  (rowKey a = rowKey b ∧
   ((r_id (row_record a) ≠ r_id (row_record b) ∧
     recordBefore (row_record a) (row_record b)) ∨
    (r_id (row_record a) = r_id (row_record b) ∧
     participantBefore localeCompare a b))).

(** Record ids are unique: rows with the same record id come from the same
    record (and so carry the same quest name). *)
Definition idsIdentifyRecords (rows : list JoinedRow) : Prop :=
  ∀ a b, a ∈ rows → b ∈ rows →
    r_id (row_record a) = r_id (row_record b) →
    row_record a = row_record b ∧ row_questName a = row_questName b.

(** The collation tells the group keys of the rows apart: it returns zero
    for no two different keys that occur. *)
Definition separatesKeys (localeCompare : string → string → Z)
    (rows : list JoinedRow) : Prop :=
  ∀ a b, a ∈ rows → b ∈ rows →
    localeCompare (rowKey a) (rowKey b) = 0 → rowKey a = rowKey b.

(** Rows that agree on the record id agree on what the record decides. *)
Definition agree (a b : JoinedRow) : Prop :=
  r_id (row_record a) = r_id (row_record b) →
  rowKey a = rowKey b ∧
  r_rank (row_record a) = r_rank (row_record b) ∧
  r_time (row_record a) = r_time (row_record b).

(** Two rows of the same record of the same group. *)
Definition sameRecordInGroup (a b : JoinedRow) : Prop :=
  rowKey a = rowKey b ∧ r_id (row_record a) = r_id (row_record b).

(** ** The table body, as the specification describes it *)

(** The cells of the first row of a record: record-level columns filled. *)
Definition populatedRow (row : JoinedRow) : DataRow :=
  let record := row_record row in
  {| Quest_ := Str (or_str (row_questName row) "(unknown quest)");
     Meta := r_meta record;
     Category := r_category record;
     PB := Str (if r_pb record then "PB" else "No-PB");
     Time := Str (formatTime (Int (r_time record)));
     Rank := Num (r_rank record);
     Player_ := Str (row_playerName row);
     Class_ := Str (row_cls row);
     POV := povHTML (row_pov row) |}.

(** The cells of a later row of the same record: record-level columns blank. *)
Definition blankedRow (row : JoinedRow) : DataRow :=
  {| Quest_ := Str "";
     Meta := Str "";
     Category := Str "";
     PB := Str "";
     Time := Str "";
     Rank := Str "";
     Player_ := Str (row_playerName row);
     Class_ := Str (row_cls row);
     POV := povHTML (row_pov row) |}.

(** The group key differs from the previous row's (there is no previous row
    before the first one). *)
Definition groupChanges (earlier : list JoinedRow) (row : JoinedRow) : bool :=
  match last earlier with
  | None => true
  | Some prev => bool_decide (rowKey prev ≠ rowKey row)
  end.

(** No earlier row belongs to the same record of the same group. *)
Definition firstOfRecord (earlier : list JoinedRow) (row : JoinedRow) : bool :=
  forallb (λ e, negb (bool_decide (sameRecordInGroup e row))) earlier.

(** The previous row, if any, is not a row of the same record of the same
    group. *)
Definition startsRecord (earlier : list JoinedRow) (row : JoinedRow) : bool :=
  match last earlier with
  | None => true
  | Some prev => negb (bool_decide (sameRecordInGroup prev row))
  end.

(** The loop state after the rows [earlier]. *)
Definition stateAfter (earlier : list JoinedRow) (st : RenderState) : Prop :=
  lastGroup st = rowKey <$> last earlier ∧
  lastRecordIdWithinGroup st = (λ row, r_id (row_record row)) <$> last earlier.

(** The marker rows of a group. *)
Definition groupMarker (row : JoinedRow) : list tr :=
  [GroupLabelRow (groupLabel (row_record row) (row_questName row));
   GroupDividerRow].

(** The body, row by row: [earlier] are the rows already described. *)
Fixpoint describeBody (earlier rows : list JoinedRow) : list tr :=
  match rows with
  | [] => []
  | row :: rest =>
      (if groupChanges earlier row then groupMarker row else []) ++
      DataTr (if firstOfRecord earlier row then populatedRow row
              else blankedRow row)
      :: describeBody (earlier ++ [row]) rest
  end.

(** ** A fixture *)

Definition fixtureQuests : gmap Z Quest :=
  buildIdMap q_id [ {| q_id := 1; q_name := Some "Towards the Future" |};
                    {| q_id := 2; q_name := Some "Maximum Attack" |} ].

Definition fixturePlayers : gmap Z Player :=
  buildIdMap p_id [ {| p_id := 1; p_name := Some "Alice" |};
                    {| p_id := 2; p_name := Some "Alan" |};
                    {| p_id := 3; p_name := Some "O'Brien <3>" |} ].

(** A duo run, a second duo run with the same rank and time, a solo
    countdown run whose player is unknown, and a run nobody is recorded for
    (unknown quest, no meta, numeric category). *)
Definition fixtureDuo : Rec :=
  {| r_id := 1; r_quest_id := 1; r_meta := Str "Ultima";
     r_category := Str "2p"; r_pb := true; r_time := 454; r_rank := 1 |}.
Definition fixtureDuoTie : Rec :=
  {| r_id := 2; r_quest_id := 1; r_meta := Str "Ultima";
     r_category := Str "2p"; r_pb := true; r_time := 454; r_rank := 1 |}.
Definition fixtureSolo : Rec :=
  {| r_id := 3; r_quest_id := 2; r_meta := Str "Vanilla";
     r_category := Str "1p"; r_pb := false; r_time := -60; r_rank := 1 |}.
Definition fixtureEmpty : Rec :=
  {| r_id := 4; r_quest_id := 9; r_meta := Null;
     r_category := Num 4; r_pb := false; r_time := 600; r_rank := 2 |}.

(** The same run, written with other field values that read the same. *)
Definition fixtureEmptyTwin : Rec :=
  {| r_id := 5; r_quest_id := 9; r_meta := Str "";
     r_category := Str "4"; r_pb := false; r_time := 600; r_rank := 2 |}.

Definition fixtureRecords : list Rec :=
  [fixtureDuo; fixtureDuoTie; fixtureSolo; fixtureEmpty].

Definition fixturePlayerRecords : list PlayerRecord :=
  [ {| pr_id := 12; pr_record_id := 2; pr_player_id := 2;
       pr_pso_class := Some "  HUmar "; pr_pov := None |};
    {| pr_id := 11; pr_record_id := 2; pr_player_id := 1;
       pr_pso_class := Some "FOnewearl";
       pr_pov := Some "https://example.org/run" |};
    {| pr_id := 10; pr_record_id := 1; pr_player_id := 1;
       pr_pso_class := Some "RAmar"; pr_pov := Some "lost" |};
    {| pr_id := 13; pr_record_id := 1; pr_player_id := 3;
       pr_pso_class := Some "HUmar"; pr_pov := None |};
    {| pr_id := 14; pr_record_id := 3; pr_player_id := 7;
       pr_pso_class := None; pr_pov := None |} ].

Definition fixtureRows : list JoinedRow :=
  joinRows fixtureQuests fixturePlayerRecords fixturePlayers fixtureRecords.

(** *** Quest names that differ and compare equal

    The letter e followed by the combining acute accent (U+0065 U+0301,
    bytes 101 204 129) is canonically equivalent to the precomposed letter
    (U+00E9, bytes 195 169).  [canonicalCompare] honours that equivalence
    and otherwise compares by code units. *)
Fixpoint composeAcute (s : string) : string :=
  match s with
  | String "e" (String "204" (String "129" rest)) =>
      String "195" (String "169" (composeAcute rest))
  | String a rest => String a (composeAcute rest)
  | EmptyString => EmptyString
  end.

Definition canonicalCompare (x y : string) : Z :=
  codeUnitCompare (composeAcute x) (composeAcute y).

Definition cafePrecomposed : string :=
  "Caf" +:+ String "195" (String "169" EmptyString).
Definition cafeDecomposed : string :=
  "Cafe" +:+ String "204" (String "129" EmptyString).

Definition tiedQuests : gmap Z Quest :=
  buildIdMap q_id [ {| q_id := 1; q_name := Some cafePrecomposed |};
                    {| q_id := 2; q_name := Some cafeDecomposed |} ].

(** Three solo runs: the first and the third of the quest spelt with the
    precomposed letter, the second of the quest spelt with the combining
    accent. *)
Definition tiedRun (id quest rank : Z) : Rec :=
  {| r_id := id; r_quest_id := quest; r_meta := Str "Vanilla";
     r_category := Str "1p"; r_pb := true; r_time := 300 + rank;
     r_rank := rank |}.

Definition tiedRecords : list Rec :=
  [tiedRun 1 1 1; tiedRun 2 2 2; tiedRun 3 1 3].

Definition tiedRows : list JoinedRow := joinRows tiedQuests [] ∅ tiedRecords.

(** ** Filtering and suggestions, as the specification describes them *)

Import Filters.

(** An item is offered when its key is not selected yet and its normalized
    label contains the normalized query. *)
Definition offered (selectedSet : gset string) (q : string) (it : Item) : bool :=
  negb (bool_decide (key it ∈ selectedSet)) &&
  includes (normalize (Some (label it))) q.

(** [q] occurs in [s] as a substring. *)
Definition substring_of (q s : string) : Prop :=
  ∃ pre post : string, s = pre +:+ q +:+ post.

(** At least one participant of the record is a selected player. *)
Definition hasSelectedPlayer (playerRecords : list PlayerRecord)
    (selectedPlayerIds : gset string) (r : Rec) : Prop :=
  Exists (λ pr, pr_record_id pr = r_id r ∧
                pretty (pr_player_id pr) ∈ selectedPlayerIds) playerRecords.

(** At least one participant of the record has a selected class. *)
Definition hasSelectedClass (playerRecords : list PlayerRecord)
    (selectedClasses : gset string) (r : Rec) : Prop :=
  Exists (λ pr, pr_record_id pr = r_id r ∧
                normalize (pr_pso_class pr) ∈ selectedClasses) playerRecords.

(** All active predicates at once; an empty selection or an empty value
    constrains nothing. *)
Definition passes (playerRecords : list PlayerRecord)
    (selectedPlayerIds selectedClasses : gset string)
    (metaVal countVal pbVal : string) (r : Rec) : Prop :=
  (metaVal = "" ∨ String_ (r_meta r) = metaVal) ∧
  (countVal = "" ∨ String_ (r_category r) = countVal) ∧
  (pbVal = "" ∨ bool_digit (r_pb r) = pbVal) ∧
  (selectedPlayerIds = ∅ ∨
   hasSelectedPlayer playerRecords selectedPlayerIds r) ∧
  (selectedClasses = ∅ ∨
   hasSelectedClass playerRecords selectedClasses r).

Global Instance passes_dec playerRecords selectedPlayerIds selectedClasses
    metaVal countVal pbVal r :
  Decision (passes playerRecords selectedPlayerIds selectedClasses
              metaVal countVal pbVal r).
Proof. unfold passes, hasSelectedPlayer, hasSelectedClass. apply _. Defined.

(** Typeahead fixtures. *)
Definition itemAlan : Item := {| key := "2"; label := "Alan" |}.
Definition itemAlice : Item := {| key := "1"; label := "Alice" |}.

Definition manyItems : list Item :=
  map (λ n : nat, {| key := pretty n; label := "Player " +:+ pretty n |})
      (seq 0 25).

(** * Further code of the two scripts

    The functions and the top-level code around the ones modelled above: the
    two player-only filters, the construction of the typeahead items and of
    the drop-down options, the event handlers of [wireMultiTypeahead], and
    the table body of the filtering page. *)

(** ** Sets whose iteration order matters

    A JavaScript [Set] iterates in insertion order.  Where the code iterates
    over one ([renderChips], [[...classSet]], [[...values]]), the set is the
    list of its elements in insertion order. *)

(** [s.add(k)] *)
Definition setAdd {A} `{EqDecision A} (s : list A) (k : A) : list A :=
  if bool_decide (k ∈ s) then s else s ++ [k].

(** [s.delete(k)] *)
Definition setDelete {A} `{EqDecision A} (s : list A) (k : A) : list A :=
  filter (λ x, x ≠ k) s.

(** [new Set(array)] *)
Definition newSet {A} `{EqDecision A} (l : list A) : list A :=
  foldl setAdd [] l.

(** ** The player-only filters *)

(** [filterRecordsByPlayersAny]: [selectedPlayerIds] is a set of numbers. *)
Definition filterRecordsByPlayersAny (records : list Rec)
    (playerRecords : list PlayerRecord) (selectedPlayerIds : gset Z)
  : list Rec :=
  if (size selectedPlayerIds =? 0)%nat then records
  else
    let recordIds :=
      foldl (λ (s : gset Z) pr,
               if bool_decide (pr_player_id pr ∈ selectedPlayerIds)
               then s ∪ {[pr_record_id pr]} else s) ∅ playerRecords in
    List.filter (λ r, bool_decide (r_id r ∈ recordIds)) records.

(** [a === b] on numbers: [NaN] equals nothing, and a fraction (in lowest
    terms) only the same fraction. *)
Definition strictEq (a b : number) : bool :=
  match a, b with
  | Int x, Int y => x =? y
  | Frac m e, Frac m' e' => (m =? m') && (e =? e')%positive
  | PosInfinity, PosInfinity => true
  | NegInfinity, NegInfinity => true
  | _, _ => false
  end.

Section ByPlayer.
(** [Number(s)] on a string is the host's numeric parser. *)
Variable Number_ : string → number.

(** [filterRecordsByPlayer] of [js/app.js]: [playerId] is the value of the
    drop-down, the empty string meaning all players. *)
Definition filterRecordsByPlayer (records : list Rec)
    (playerRecords : list PlayerRecord) (playerId : string) : list Rec :=
  if String.eqb playerId "" then records
  else
    let pid := Number_ playerId in
    let recordIds : gset Z :=
      list_to_set
        (map pr_record_id
           (List.filter (λ pr, strictEq (Int (pr_player_id pr)) pid)
              playerRecords)) in
    List.filter (λ r, bool_decide (r_id r ∈ recordIds)) records.
End ByPlayer.

(** A parser of decimal integer notation (an optional minus sign and
    digits), [NaN] on every other string.  It agrees with [Number] on the
    decimal notation of the integers and is the instance of [Number_] where
    a concrete one is needed. *)
Fixpoint parseDigits (acc : N) (s : string) : option N :=
  match s with
  | EmptyString => Some acc
  | String c s' =>
      match Ascii.is_nat c with
      | Some d => parseDigits (acc * 10 + N.of_nat d) s'
      | None => None
      end
  end.

Definition parseDecimal (s : string) : number :=
  match s with
  | EmptyString => NaN
  | String c s' =>
      if Ascii.eqb c "-" then
        match s' with
        | EmptyString => NaN
        | _ =>
            match parseDigits 0 s' with
            | Some n => Int (- Z.of_N n)
            | None => NaN
            end
        end
      else
        match parseDigits 0 s with
        | Some n => Int (Z.of_N n)
        | None => NaN
        end
  end.

(** ** The typeahead items and the drop-down options *)

Section Items.
Variable localeCompare : string → string → Z.

(** [[...players].map(p => ({ key: String(p.id), label: p.name ?? "" }))
      .sort((a, b) => a.label.localeCompare(b.label))] *)
Definition playerItems (players : list Player) : list Item :=
  Array_sort (λ a b, localeCompare (label a) (label b))
    (map (λ p, {| key := pretty (p_id p); label := or_str (p_name p) "" |})
         players).

(** The loop that fills [classSet]. *)
Definition classSet (playerRecords : list PlayerRecord) : list string :=
  foldl (λ s pr,
           let c := normalize (pr_pso_class pr) in
           if String.eqb c "" then s else setAdd s c) [] playerRecords.

(** [[...classSet].map(c => ({ key: c, label: c })).sort(...)] *)
Definition classItems (playerRecords : list PlayerRecord) : list Item :=
  Array_sort (λ a b, localeCompare (label a) (label b))
    (map (λ c, {| key := c; label := c |}) (classSet playerRecords)).

(** [v != null && v !== ""] *)
Definition isOption (v : value) : bool :=
  match v with
  | Undefined | Null => false
  | Str s => negb (String.eqb s "")
  | Num _ => true
  end.

(** [new Set(records.map(r => r.meta).filter(...))] and the same for the
    category. *)
Definition metas (records : list Rec) : list value :=
  newSet (List.filter isOption (map r_meta records)).

Definition counts (records : list Rec) : list value :=
  newSet (List.filter isOption (map r_category records)).

(** [fillSelect]: the values of the options appended after the first one,
    in the order in which they are appended. *)
Definition fillSelect (values : list value) : list string :=
  map String_
    (Array_sort (λ a b, localeCompare (String_ a) (String_ b)) values).
End Items.

(** ** The event handlers of [wireMultiTypeahead] *)

(** The suggestion box: its [hidden] flag and its markup. *)
Record SuggestionBox := { hidden : bool; innerHTML : string }.

Definition showSuggestions (itemsHtml : string) : SuggestionBox :=
  if String.eqb itemsHtml ""
  then {| hidden := true; innerHTML := "" |}
  else {| hidden := false; innerHTML := itemsHtml |}.

(** What the handlers read and write: the text of the input element, the
    selected keys (a [Set], in insertion order) and the suggestion box. *)
Record Typeahead := {
  inputValue : string;
  selectedKeys : list string;
  box : SuggestionBox;
}.

Section Wire.
Variable items : list Item.
Variable placeholderLabel : string.

(** [selectedSet] as the suggestion builder and the filter read it. *)
Definition selectedSetOf (st : Typeahead) : gset string :=
  list_to_set (selectedKeys st).

(** [renderChips]: the text of each chip, in the order of the chips. *)
Definition chipLabels (selected : list string) : list string :=
  map (λ k,
         match List.find (λ it, String.eqb (key it) k) items with
         | Some it => label it
         | None => placeholderLabel +:+ " " +:+ k
         end) selected.

(** [addKey]; [None] is [null]. *)
Definition addKey (k : option string) (selected : list string) : list string :=
  match k with
  | None => selected
  | Some k => if bool_decide (k ∈ selected) then selected else selected ++ [k]
  end.

(** The click handler of a chip's button. *)
Definition removeChip (k : string) (st : Typeahead) : Typeahead :=
  {| inputValue := inputValue st;
     selectedKeys := setDelete (selectedKeys st) k;
     box := box st |}.

(** The [input] handler; [value] is the new text of the input element. *)
Definition onInput (value : string) (st : Typeahead) : Typeahead :=
  {| inputValue := value;
     selectedKeys := selectedKeys st;
     box := showSuggestions
              (buildSuggestionList items (selectedSetOf st) value) |}.

(** The click handler of the suggestion box, for a click on a suggestion
    whose [data-key] attribute reads [k]. *)
Definition onSuggestionClick (k : option string) (st : Typeahead) : Typeahead :=
  {| inputValue := "";
     selectedKeys := addKey k (selectedKeys st);
     box := showSuggestions "" |}.

(** The [keydown] handler for Enter. *)
Definition onEnter (st : Typeahead) : Typeahead :=
  let q := normalize (Some (inputValue st)) in
  if String.eqb q "" then st
  else
    match List.find
            (λ it, negb (bool_decide (key it ∈ selectedKeys st)) &&
                   includes (normalize (Some (label it))) q) items with
    | Some best =>
        {| inputValue := "";
           selectedKeys := addKey (Some (key best)) (selectedKeys st);
           box := showSuggestions "" |}
    | None => st
    end.

(** The [keydown] handler for Escape, and a click outside. *)
Definition onEscape (st : Typeahead) : Typeahead :=
  {| inputValue := inputValue st;
     selectedKeys := selectedKeys st;
     box := showSuggestions "" |}.
End Wire.

(** ** The table body of the filtering page

    The filtering page draws a divider for each group (no label row) and a
    thin divider between the records of a group. *)

Inductive trF :=
  | GroupDividerF
  | EntryDividerF
  | DataTrF (d : DataRow).

Global Instance trF_eq_dec : EqDecision trF.
Proof. solve_decision. Defined.

Record RenderStateF := {
  lastGroupF : option string;
  lastRecordIdWithinGroupF : option Z;
  tbodyRowsF : list trF;
}.

Definition renderStepF (st : RenderStateF) (row : JoinedRow) : RenderStateF :=
  let record := row_record row in
  let questName := row_questName row in
  let pbText := if r_pb record then "PB" else "No-PB" in
  let gk := groupKey record questName in
  let st1 :=
    if bool_decide (Some gk ≠ lastGroupF st) then
      {| lastGroupF := Some gk;
         lastRecordIdWithinGroupF := None;
         tbodyRowsF := tbodyRowsF st ++ [GroupDividerF] |}
    else st in
  let isFirstRowForThisRecord :=
    bool_decide (Some (r_id record) ≠ lastRecordIdWithinGroupF st1) in
  let rows2 :=
    if isFirstRowForThisRecord &&
       bool_decide (lastRecordIdWithinGroupF st1 ≠ None)
    then tbodyRowsF st1 ++ [EntryDividerF] else tbodyRowsF st1 in
  let lastRec :=
    if isFirstRowForThisRecord then Some (r_id record)
    else lastRecordIdWithinGroupF st1 in
  let dataRow :=
    {| Quest_ := if isFirstRowForThisRecord
                 then Str (or_str questName "(unknown quest)") else Str "";
       Meta := if isFirstRowForThisRecord then r_meta record else Str "";
       Category := if isFirstRowForThisRecord then r_category record else Str "";
       PB := if isFirstRowForThisRecord then Str pbText else Str "";
       Time := if isFirstRowForThisRecord
               then Str (formatTime (Int (r_time record))) else Str "";
       Rank := if isFirstRowForThisRecord then Num (r_rank record) else Str "";
       Player_ := Str (row_playerName row);
       Class_ := Str (row_cls row);
       POV := povHTML (row_pov row) |} in
  {| lastGroupF := lastGroupF st1;
     lastRecordIdWithinGroupF := lastRec;
     tbodyRowsF := rows2 ++ [DataTrF dataRow] |}.

Definition renderBodyF (joinedRows : list JoinedRow) : list trF :=
  tbodyRowsF
    (foldl renderStepF
       {| lastGroupF := None; lastRecordIdWithinGroupF := None;
          tbodyRowsF := [] |} joinedRows).

(** ** Descriptions used by the further theorems *)

(** The data rows of a table body, in order. *)
Definition dataRows (body : list tr) : list DataRow :=
  omap (λ t, match t with DataTr d => Some d | _ => None end) body.

Definition dataRowsF (body : list trF) : list DataRow :=
  omap (λ t, match t with DataTrF d => Some d | _ => None end) body.

(** The label rows of a table body, in order. *)
Definition labelRows (body : list tr) : list string :=
  omap (λ t, match t with GroupLabelRow l => Some l | _ => None end) body.

(** The body of the filtering page, row by row: a group divider where the
    group key changes, else a thin divider where a new record starts. *)
Fixpoint describeBodyF (earlier rows : list JoinedRow) : list trF :=
  match rows with
  | [] => []
  | row :: rest =>
      (if groupChanges earlier row then [GroupDividerF]
       else if startsRecord earlier row then [EntryDividerF] else []) ++
      DataTrF (if startsRecord earlier row then populatedRow row
               else blankedRow row)
      :: describeBodyF (earlier ++ [row]) rest
  end.

(** The body of [js/app.js] by the previous row alone (no sortedness). *)
Fixpoint describeLocal (earlier rows : list JoinedRow) : list tr :=
  match rows with
  | [] => []
  | row :: rest =>
      (if groupChanges earlier row then groupMarker row else []) ++
      DataTr (if startsRecord earlier row then populatedRow row
              else blankedRow row)
      :: describeLocal (earlier ++ [row]) rest
  end.

(** The number of rows a record contributes to the join. *)
Definition rowCount (playerRecords : list PlayerRecord) (R : Rec) : nat :=
  Nat.max 1 (length (participants playerRecords R)).

(** A joined row pairs its record with one of the record's own
    player-records, or, as a placeholder, with none when there is none. *)
Definition wellJoined (playerRecords : list PlayerRecord) (row : JoinedRow)
  : Prop :=
  match row_pr row with
  | Some pr =>
      pr ∈ playerRecords ∧ pr_record_id pr = r_id (row_record row)
  | None =>
      ∀ pr, pr ∈ playerRecords → pr_record_id pr ≠ r_id (row_record row)
  end.

(** The three strings a group key is joined from, besides the PB marker. *)
Definition keyQuest (questName : option string) : string :=
  or_str questName "(unknown quest)".
Definition keyMeta (record : Rec) : string :=
  String_ (nullish (r_meta record) (Str "")).
Definition keyCategory (record : Rec) : string :=
  String_ (nullish (r_category record) (Str "")).

(** The delimiter character does not occur in a string. *)
Definition barFree (s : string) : Prop := "|"%char ∉ chars s.

(** The loop state of the filtering page after the rows [earlier]. *)
Definition stateAfterF (earlier : list JoinedRow) (st : RenderStateF) : Prop :=
  lastGroupF st = rowKey <$> last earlier ∧
  lastRecordIdWithinGroupF st
  = (λ row, r_id (row_record row)) <$> last earlier.

(** At least one player-record of the record belongs to a selected player
    (by number). *)
Definition hasPlayerIn (playerRecords : list PlayerRecord)
    (selectedPlayerIds : gset Z) (r : Rec) : Prop :=
  Exists (λ pr, pr_record_id pr = r_id r ∧
                pr_player_id pr ∈ selectedPlayerIds) playerRecords.

(** The typeahead item of a player. *)
Definition playerItem (p : Player) : Item :=
  {| key := pretty (p_id p); label := or_str (p_name p) "" |}.

(** Items in ascending order of their labels. *)
Definition labelSorted (localeCompare : string → string → Z)
    (items : list Item) : Prop :=
  StronglySorted (λ a b, localeCompare (label a) (label b) ≤ 0) items.

(** The rows in front of which a group marker is drawn. *)
Fixpoint groupStarts (earlier rows : list JoinedRow) : list JoinedRow :=
  match rows with
  | [] => []
  | row :: rest =>
      (if groupChanges earlier row then [row] else []) ++
      groupStarts (earlier ++ [row]) rest
  end.

(** * Theorems *)

(** ** Strings *)

Lemma append_cons (a : ascii) (s1 s2 : string) :
  String a s1 +:+ s2 = String a (s1 +:+ s2).
Proof. reflexivity. Qed.

Lemma append_nil_r (s : string) : s +:+ "" = s.
Proof. induction s as [|a s IH]; [done|]. by rewrite append_cons, IH. Qed.

Lemma append_assoc (s1 s2 s3 : string) :
  (s1 +:+ s2) +:+ s3 = s1 +:+ (s2 +:+ s3).
Proof. induction s1 as [|a s1 IH]; [done|]. by rewrite !append_cons, IH. Qed.

Lemma chars_app (s1 s2 : string) : chars (s1 +:+ s2) = chars s1 ++ chars s2.
Proof. induction s1 as [|a s1 IH]; [done|]. rewrite append_cons. cbn. by rewrite IH. Qed.

Lemma replaceAll_app c rep (s1 s2 : string) :
  replaceAll c rep (s1 +:+ s2) = replaceAll c rep s1 +:+ replaceAll c rep s2.
Proof.
  induction s1 as [|a s1 IH]; [done|].
  rewrite append_cons. cbn [replaceAll]. destruct (Ascii.eqb a c).
  - by rewrite IH, append_assoc.
  - by rewrite append_cons, IH.
Qed.

(** ** Escaping *)

Lemma esc_app (s1 s2 : string) :
  esc (Str (s1 +:+ s2)) = esc (Str s1) +:+ esc (Str s2).
Proof. unfold esc. cbn. by rewrite !replaceAll_app. Qed.

Lemma esc_single (a : ascii) : esc (Str (String a "")) = entity a.
Proof. by destruct a as [[] [] [] [] [] [] [] []]. Qed.

Lemma esc_escape_each (s : string) : esc (Str s) = escape_each s.
Proof.
  induction s as [|a s IH]; [done|].
  change (String a s) with (String a "" +:+ s).
  rewrite esc_app, esc_single, IH. done.
Qed.

Lemma entity_no_markup (a : ascii) :
  Forall (λ c, markup_char c = false) (chars (entity a)).
Proof.
  destruct a as [[] [] [] [] [] [] [] []]; cbn; repeat constructor.
Qed.

(** C7. [esc] turns each of the five HTML-significant characters into its
    entity and leaves every other character alone, character by character (so
    an ampersand written by a later replacement is never escaped again); no
    [<], [>], double quote or apostrophe survives; nullish input gives the
    empty string; and the name [O'Brien <3>] becomes
    [O&#39;Brien &lt;3&gt;]. *)
Theorem esc_five_characters :
  (∀ s : string, esc (Str s) = escape_each s) ∧
  (∀ s : string, Forall (λ c, markup_char c = false) (chars (esc (Str s)))) ∧
  entity "&" = "&amp;" ∧ entity "<" = "&lt;" ∧ entity ">" = "&gt;" ∧
  entity "034" = "&quot;" ∧ entity "'" = "&#39;" ∧
  (∀ a : ascii, a ≠ "&"%char → markup_char a = false →
     entity a = String a "") ∧
  esc Null = "" ∧ esc Undefined = "" ∧
  esc (Str "O'Brien <3>") = "O&#39;Brien &lt;3&gt;".
Proof.
  split_and!; try done.
  - apply esc_escape_each.
  - intros s. rewrite esc_escape_each.
    induction s as [|a s IH]; [constructor|].
    cbn. rewrite chars_app. apply Forall_app. split; [apply entity_no_markup|done].
  - intros a Ha Hm. unfold markup_char in Hm. unfold entity.
    destruct (Ascii.eqb_spec a "&"); [done|].
    destruct (Ascii.eqb a "<"), (Ascii.eqb a ">"), (Ascii.eqb a "034"),
      (Ascii.eqb a "'"); done.
Qed.

(** ** Numbers

    The quotient by sixty. *)

Lemma floor_halve (k : nat) (m : Z) :
  JsNumber.floor (JsNumber.halve k m) = Int (m / 2 ^ Z.of_nat k).
Proof.
  revert m. induction k as [|k IH]; intros m.
  - cbn. by rewrite Z.div_1_r.
  - cbn [JsNumber.halve]. destruct (Z.even m).
    + rewrite IH, Zdiv.Zdiv_Zdiv by lia. do 2 f_equal.
      by rewrite Nat2Z.inj_succ, Z.pow_succ_r by lia.
    + cbn [JsNumber.floor]. do 3 f_equal; lia.
Qed.

Lemma floor_of_dyadic (m e : Z) :
  e < 0 → JsNumber.floor (JsNumber.of_dyadic m e) = Int (m / 2 ^ (- e)).
Proof.
  intros He. unfold JsNumber.of_dyadic.
  destruct (Z.leb_spec 0 e); [lia|].
  rewrite floor_halve. do 3 f_equal; lia.
Qed.

(** Rounding a quotient of sixty to 53 bits does not reach the next
    integer: the scaled quotient keeps at least five binary places. *)
Lemma rounded_sixtieth (a K m' : Z) :
  0 ≤ a → 32 ≤ K →
  (m' = a * K / 60 ∨
   (m' = a * K / 60 + 1 ∧ 60 ≤ 2 * ((a * K) mod 60))) →
  m' / K = a / 60.
Proof.
  intros Ha HK Hm.
  pose proof (Z.div_mod a 60 ltac:(lia)) as Ea.
  pose proof (Z.mod_pos_bound a 60 ltac:(lia)) as Hr.
  set (k := a / 60) in *. set (ρ := a mod 60) in *.
  assert (EaK : a * K = (k * K) * 60 + ρ * K) by lia.
  pose proof (Z.div_mod (ρ * K) 60 ltac:(lia)) as Ej.
  pose proof (Z.mod_pos_bound (ρ * K) 60 ltac:(lia)) as Hj.
  set (j := ρ * K / 60) in *. set (r := (ρ * K) mod 60) in *.
  assert (Hdiv : a * K / 60 = k * K + j).
  { rewrite EaK, Z.add_comm, Z.div_add by lia. lia. }
  assert (Hmod : (a * K) mod 60 = r).
  { rewrite EaK, Z.add_comm, Z.mod_add by lia. done. }
  assert (0 ≤ j) by (apply Z.div_pos; nia).
  assert (0 ≤ k) by (apply Z.div_pos; lia).
  assert (j < K) by nia.
  symmetry. apply Z.div_unique with (r := m' - k * K).
  - destruct Hm as [->|[-> H2]]; [lia|].
    rewrite Hmod in H2. left. split; [lia|].
    assert (j ≠ K - 1) by nia. lia.
  - lia.
Qed.

Lemma binade_le (p q : Z) : JsNumber.binade p q ≤ Z.log2 p - Z.log2 q.
Proof. unfold JsNumber.binade. cbv zeta. case_match; lia. Qed.

Lemma floor_div_sixty (a : Z) :
  0 ≤ a < 2 ^ 53 →
  JsNumber.floor (JsNumber.div (Int a) (Int 60)) = Int (a / 60).
Proof.
  intros Ha. unfold JsNumber.div. cbn [JsNumber.dyadic].
  change (60 =? 0) with false. cbv iota.
  destruct (Z.eqb_spec a 0) as [->|Hne]; [done|].
  cbv zeta. change (Z.min 0 0) with 0. change (0 - 0) with 0.
  change (Z.abs 60 * 2 ^ 0) with 60. change (60 <? 0) with false.
  rewrite Z.pow_0_r, Z.mul_1_r, Z.abs_eq by lia.
  destruct (Z.ltb_spec a 0); [lia|]. cbn [xorb].
  unfold JsNumber.round_ratio. cbv zeta.
  pose proof (binade_le a 60) as Hb. change (Z.log2 60) with 5 in Hb.
  assert (Z.log2 a < 53) by (apply Z.log2_lt_pow2; lia).
  set (e := Z.max (JsNumber.binade a 60 - 52) (-1074)).
  assert (He : -1074 ≤ e ≤ -5) by lia.
  destruct (Z.leb_spec 0 e); [lia|]. cbn [andb].
  rewrite floor_of_dyadic by lia.
  f_equal. apply rounded_sixtieth; [lia| |].
  - change 32 with (2 ^ 5). apply Z.pow_le_mono_r; lia.
  - repeat case_match; rewrite ?Z.ltb_lt, ?Z.ltb_ge in *; (by left) || (right; split; [done|lia]).
Qed.

(** The decimal notation of the integers. *)

Lemma string_length_app (s1 s2 : string) :
  String.length (s1 +:+ s2) = (String.length s1 + String.length s2)%nat.
Proof. induction s1 as [|a s1 IH]; [done|]. rewrite append_cons. cbn. by rewrite IH. Qed.

Lemma length_pad_zeros (n : nat) : String.length (pad_zeros n "") = n.
Proof. induction n as [|n IH]; [done|]. cbn. by rewrite IH. Qed.

Lemma pretty_N_go_app (x : N) (s : string) :
  pretty_N_go x s = pretty_N_go x "" +:+ s.
Proof.
  revert s. induction (N.lt_wf_0 x) as [x _ IH]; intros s.
  destruct (decide (x = 0)%N) as [->|Hx]; [by rewrite !pretty_N_go_0|].
  rewrite !(pretty_N_go_step x) by lia.
  rewrite (IH (x `div` 10)%N) by (apply N.div_lt; lia).
  rewrite (IH (x `div` 10)%N ltac:(apply N.div_lt; lia) (String _ "")).
  by rewrite append_assoc.
Qed.

Lemma pretty_pos_go (z : Z) : 0 < z → pretty z = pretty_N_go (Z.to_N z) "".
Proof. destruct z; [lia|reflexivity|lia]. Qed.

(** The last digit of a decimal notation. *)
Lemma pretty_last_digit (z : Z) :
  0 < z →
  pretty z = (if z <? 10 then "" else pretty (z / 10)) +:+
             String (pretty_N_char (Z.to_N (z mod 10))) "".
Proof.
  intros Hz. rewrite pretty_pos_go by done.
  rewrite pretty_N_go_step by lia. rewrite pretty_N_go_app.
  replace (Z.to_N z `mod` 10)%N with (Z.to_N (z mod 10))
    by (rewrite Z2N.inj_mod by lia; done).
  f_equal. destruct (Z.ltb_spec z 10) as [Hlt|Hge].
  - replace (Z.to_N z `div` 10)%N with 0%N; [by rewrite pretty_N_go_0|].
    symmetry. apply N.div_small. lia.
  - assert (0 < z / 10) by (apply Z.div_str_pos; lia).
    rewrite pretty_pos_go by done. f_equal.
    rewrite Z2N.inj_div by lia. done.
Qed.

Lemma pretty_times_ten (z : Z) : 0 < z → pretty (z * 10) = pretty z +:+ "0".
Proof.
  intros Hz. rewrite (pretty_last_digit (z * 10)) by lia.
  destruct (Z.ltb_spec (z * 10) 10); [lia|].
  by rewrite Z.div_mul, Z.mod_mul by lia.
Qed.

Lemma pretty_times_pow10 (t : nat) : ∀ s : Z,
  0 < s → pretty (s * 10 ^ Z.of_nat t) = pretty s +:+ pad_zeros t "".
Proof.
  induction t as [|t IH]; intros s Hs.
  - by rewrite Z.mul_1_r, append_nil_r.
  - rewrite Nat2Z.inj_succ, Z.pow_succ_r, Z.mul_assoc by lia.
    rewrite IH, pretty_times_ten by lia. by rewrite append_assoc.
Qed.

Lemma pretty_length_le (d : nat) : ∀ z : Z,
  0 < z < 10 ^ Z.of_nat d → (String.length (pretty z) ≤ d)%nat.
Proof.
  induction d as [|d IH]; intros z Hz; [cbn in Hz; lia|].
  rewrite pretty_last_digit, string_length_app by lia. cbn [String.length].
  destruct (Z.ltb_spec z 10); [cbn; lia|].
  rewrite Nat2Z.inj_succ, Z.pow_succ_r in Hz by lia.
  assert (0 < z / 10) by (apply Z.div_str_pos; lia).
  assert (z / 10 < 10 ^ Z.of_nat d) by (apply Z.div_lt_upper_bound; lia).
  specialize (IH (z / 10) ltac:(lia)). lia.
Qed.

(** The rounding interval of an integer below [2^53] holds no other
    integer. *)
Lemma interval_integer (k : Z) :
  0 < k < 2 ^ 53 →
  ∃ A, 4 ≤ A ∧
    JsNumber.iv_exp (JsNumber.interval k 0) < 0 ∧
    2 ^ (- JsNumber.iv_exp (JsNumber.interval k 0)) = A ∧
    JsNumber.iv_mid (JsNumber.interval k 0) = k * A ∧
    JsNumber.iv_hi (JsNumber.interval k 0) = k * A + 2 ∧
    k * A - 2 ≤ JsNumber.iv_lo (JsNumber.interval k 0) ≤ k * A - 1.
Proof.
  intros Hk.
  assert (HL : 0 ≤ Z.log2 k < 53)
    by (split; [apply Z.log2_nonneg|apply Z.log2_lt_pow2; lia]).
  exists (2 ^ (54 - Z.log2 k)).
  assert (HA : 2 ^ (54 - Z.log2 k) = 4 * 2 ^ (52 - Z.log2 k)).
  { replace (54 - Z.log2 k) with (2 + (52 - Z.log2 k)) by lia.
    by rewrite Z.pow_add_r by lia. }
  assert (0 < 2 ^ (52 - Z.log2 k)) by (apply Z.pow_pos_nonneg; lia).
  unfold JsNumber.interval. cbv zeta.
  rewrite Z.add_0_r, Z.max_l by lia.
  destruct (Z.leb_spec (Z.log2 k - 52) 0); [|lia].
  cbn [JsNumber.iv_exp JsNumber.iv_mid JsNumber.iv_hi JsNumber.iv_lo].
  replace (0 - (Z.log2 k - 52)) with (52 - Z.log2 k) by lia.
  replace (- (Z.log2 k - 52 - 2)) with (54 - Z.log2 k) by lia.
  split_and!; try lia.
  - case_match; lia.
  - case_match; lia.
Qed.

Lemma reads_back_integer (k s t : Z) :
  0 < k < 2 ^ 53 → 0 ≤ t →
  JsNumber.reads_back (JsNumber.interval k 0) s t = true ↔
  0 < s ∧ s * 10 ^ t = k.
Proof.
  intros Hk Ht.
  destruct (interval_integer k Hk) as (A & HA & Hexp & HA' & Hmid & Hhi & Hlo).
  unfold JsNumber.reads_back, JsNumber.scaled_decimal, JsNumber.scaled_bound.
  cbv zeta. rewrite Hhi.
  set (iv := JsNumber.interval k 0) in *.
  rewrite (Z.max_l t 0), (Z.max_l (- JsNumber.iv_exp iv) 0),
    (Z.max_r (JsNumber.iv_exp iv) 0), (Z.max_r (- t) 0) by lia.
  rewrite HA', !Z.pow_0_r, !Z.mul_1_r.
  set (lo := JsNumber.iv_lo _) in *. set (x := s * 10 ^ t).
  destruct (JsNumber.iv_closed _);
    rewrite !andb_true_iff, ?Z.ltb_lt, ?Z.leb_le; split.
  - intros (Hs & H1 & H2). split; [done|]. nia.
  - intros (Hs & Hx). rewrite Hx. lia.
  - intros (Hs & H1 & H2). split; [done|]. nia.
  - intros (Hs & Hx). rewrite Hx. lia.
Qed.

Lemma digits_at_integer (k s t : Z) :
  0 < k < 2 ^ 53 → 0 ≤ t →
  JsNumber.digits_at (JsNumber.interval k 0) t = Some s →
  0 < s ∧ s * 10 ^ t = k.
Proof.
  intros Hk Ht. unfold JsNumber.digits_at. cbv zeta.
  destruct (JsNumber.reads_back _ _ t) eqn:Hb;
    destruct (JsNumber.reads_back _ (_ + 1) t) eqn:Ha;
    repeat case_match; intros E; simplify_eq;
    by apply (reads_back_integer k _ t Hk Ht).
Qed.

Lemma digits_at_integer_units (k : Z) :
  0 < k < 2 ^ 53 →
  JsNumber.digits_at (JsNumber.interval k 0) 0 ≠ None.
Proof.
  intros Hk. unfold JsNumber.digits_at. cbv zeta.
  assert (JsNumber.scaled_bound (JsNumber.interval k 0)
            (JsNumber.iv_mid (JsNumber.interval k 0)) 0
          / JsNumber.scaled_decimal (JsNumber.interval k 0) 1 0 = k) as ->.
  { destruct (interval_integer k Hk) as (A & HA & Hexp & HA' & Hmid & _).
    unfold JsNumber.scaled_decimal, JsNumber.scaled_bound.
    rewrite Hmid.
    set (iv := JsNumber.interval k 0) in *.
    rewrite (Z.max_l (- JsNumber.iv_exp iv) 0),
      (Z.max_r (JsNumber.iv_exp iv) 0) by lia.
    rewrite HA'. change (Z.max 0 0) with 0. change (Z.max (-0) 0) with 0.
    rewrite !Z.pow_0_r, !Z.mul_1_r, Z.mul_1_l. apply Z.div_mul. lia. }
  assert (JsNumber.reads_back (JsNumber.interval k 0) k 0 = true) as ->.
  { apply reads_back_integer; [done..|]. rewrite Z.pow_0_r. lia. }
  by repeat case_match.
Qed.

Lemma shortest_integer (k : Z) (fuel : nat) : ∀ t,
  0 < k < 2 ^ 53 → 0 ≤ t < Z.of_nat fuel →
  ∃ s t', JsNumber.shortest fuel (JsNumber.interval k 0) t = (s, t') ∧
          0 ≤ t' ∧ 0 < s ∧ s * 10 ^ t' = k.
Proof.
  induction fuel as [|fuel IH]; intros t Hk Ht; [lia|].
  cbn [JsNumber.shortest].
  destruct (JsNumber.digits_at _ t) as [s|] eqn:Hd.
  - apply digits_at_integer in Hd as [Hs Hst]; [|done|lia].
    exists s, t. split_and!; (done || lia).
  - assert (t ≠ 0).
    { intros ->. by apply (digits_at_integer_units k Hk). }
    apply IH; [done|lia].
Qed.

Lemma layout_integer (s t : Z) :
  0 < s → 0 ≤ t → s * 10 ^ t < 10 ^ 21 →
  JsNumber.layout s t = pretty (s * 10 ^ t).
Proof.
  intros Hs Ht Hlt. unfold JsNumber.layout. cbv zeta.
  assert (Hp : pretty (s * 10 ^ t) = pretty s +:+ pad_zeros (Z.to_nat t) "").
  { rewrite <-(Z2Nat.id t) at 1 by done. by apply pretty_times_pow10. }
  assert (0 < 10 ^ t) by (apply Z.pow_pos_nonneg; lia).
  pose proof (pretty_length_le 21 (s * 10 ^ t) ltac:(split; [nia|done])) as Hlen.
  rewrite Hp, string_length_app, length_pad_zeros in Hlen.
  destruct (Z.leb_spec (Z.of_nat (String.length (pretty s)))
              (Z.of_nat (String.length (pretty s)) + t)); [|lia].
  destruct (Z.leb_spec (Z.of_nat (String.length (pretty s)) + t) 21); [|lia].
  cbn [andb]. rewrite Hp. unfold JsNumber.zeros. do 3 f_equal; lia.
Qed.

Lemma toString_integer (k : Z) :
  0 ≤ k < 2 ^ 53 → JsNumber.toString (Int k) = pretty k.
Proof.
  intros Hk. unfold JsNumber.toString.
  destruct (Z.eqb_spec k 0) as [->|Hne]; [done|].
  destruct (Z.ltb_spec k 0); [lia|].
  unfold JsNumber.positive_toString. cbv zeta.
  set (t0 := Z.max 0 _).
  destruct (shortest_integer k (Z.to_nat (t0 + 400)) t0 ltac:(lia) ltac:(lia))
    as (s & t & -> & Ht & Hs & Hst).
  rewrite layout_integer, Hst; [done..|].
  rewrite Hst. lia.
Qed.

(** A whole number of seconds: the remainder by sixty is exact and has at
    most two digits. *)
Lemma formatTime_whole (n : Z) :
  formatTime (Int n)
  = JsNumber.toString
      (JsNumber.floor (JsNumber.div (Int (Z.abs n)) (Int 60))) +:+ "'" +:+
    padStart 2 (pretty (Z.abs n mod 60)) +:+
    (if n <? 0 then " Remaining" else "").
Proof.
  unfold formatTime. cbv zeta.
  cbn [JsNumber.isFinite negb JsNumber.abs].
  assert (Hrem : JsNumber.rem (Int (Z.abs n)) (Int 60) = Int (Z.abs n mod 60)).
  { unfold JsNumber.rem. cbn [JsNumber.dyadic]. change (60 =? 0) with false.
    cbv iota zeta. change (Z.min 0 0) with 0. change (0 - 0) with 0.
    rewrite Z.pow_0_r, !Z.mul_1_r. unfold JsNumber.of_dyadic.
    change (0 <=? 0) with true. cbv iota.
    by rewrite Z.pow_0_r, Z.mul_1_r, Z.rem_mod_nonneg by lia. }
  rewrite Hrem.
  assert (0 ≤ Z.abs n mod 60 < 60) by (apply Z.mod_pos_bound; lia).
  rewrite (toString_integer (Z.abs n mod 60)) by lia.
  assert (Hlt : JsNumber.ltb (Int n) (Int 0) = (n <? 0)).
  { unfold JsNumber.ltb. cbn [JsNumber.dyadic]. cbv zeta.
    change (Z.min 0 0) with 0. change (0 - 0) with 0.
    by rewrite Z.pow_0_r, Z.mul_1_r. }
  rewrite Hlt. destruct (n <? 0); [done|]. by rewrite append_nil_r.
Qed.

(** Below [2^53] the minutes are exact as well. *)
Lemma minutes_exact (n : Z) :
  Z.abs n < 2 ^ 53 →
  JsNumber.toString (JsNumber.floor (JsNumber.div (Int (Z.abs n)) (Int 60)))
  = pretty (Z.abs n / 60).
Proof.
  intros Hn. rewrite floor_div_sixty by lia.
  assert (0 ≤ Z.abs n / 60) by (apply Z.div_pos; lia).
  assert (Z.abs n / 60 < 2 ^ 53) by (apply Z.div_lt_upper_bound; lia).
  by rewrite toString_integer by lia.
Qed.

(** ** Time formatting *)

Lemma padStart_two_digits (k : nat) :
  (k < 60)%nat → padStart 2 (pretty (Z.of_nat k)) = two_digits (Z.of_nat k).
Proof.
  intros Hk. do 60 (destruct k as [|k]; [reflexivity|]). lia.
Qed.

Lemma pretty_N_char_no_apostrophe (n : N) : pretty_N_char n ≠ "'"%char.
Proof. unfold pretty_N_char. by repeat case_match. Qed.

Lemma pretty_N_go_no_apostrophe (x : N) (s : string) :
  "'"%char ∉ chars s → "'"%char ∉ chars (pretty_N_go x s).
Proof.
  revert s. induction (N.lt_wf_0 x) as [x _ IH]; intros s Hs.
  destruct (decide (x = 0)%N) as [->|Hx]; [by rewrite pretty_N_go_0|].
  rewrite pretty_N_go_step by lia.
  apply IH; [apply N.div_lt; lia|]. cbn [chars].
  apply not_elem_of_cons. split; [|done].
  intros E. by apply (pretty_N_char_no_apostrophe (x `mod` 10)).
Qed.

Lemma pretty_nonneg_no_apostrophe (m : Z) :
  0 ≤ m → "'"%char ∉ chars (pretty m).
Proof.
  destruct m as [|p|p]; [|intros _|lia].
  - intros _. cbn. rewrite elem_of_cons, elem_of_nil. by intros [?|[]].
  - change (pretty (Z.pos p)) with (pretty_N_go (N.pos p) "").
    apply pretty_N_go_no_apostrophe. cbn. apply not_elem_of_nil.
Qed.

Lemma pretty_Z_no_apostrophe (z : Z) : "'"%char ∉ chars (pretty z).
Proof.
  destruct z as [|p|p]; [by apply pretty_nonneg_no_apostrophe..|].
  change (pretty (Z.neg p)) with ("-" +:+ pretty (Z.pos p)).
  rewrite append_cons. cbn [chars]. apply not_elem_of_cons. split; [done|].
  by apply (pretty_nonneg_no_apostrophe (Z.pos p)).
Qed.

Lemma pad_zeros_no_apostrophe (k : nat) : "'"%char ∉ chars (pad_zeros k "").
Proof.
  induction k as [|k IH]; cbn; [apply not_elem_of_nil|].
  by apply not_elem_of_cons.
Qed.

Lemma take_chars_elem_of (a : ascii) (k : nat) : ∀ s,
  a ∈ chars (JsNumber.take_chars k s) → a ∈ chars s.
Proof.
  induction k as [|k IH]; intros [|b s]; cbn; try by intros ?%elem_of_nil.
  rewrite !elem_of_cons. intros [?|?]; auto.
Qed.

Lemma drop_chars_elem_of (a : ascii) (k : nat) : ∀ s,
  a ∈ chars (JsNumber.drop_chars k s) → a ∈ chars s.
Proof.
  induction k as [|k IH]; intros [|b s]; cbn; try done.
  rewrite elem_of_cons. auto.
Qed.

(** No number is written with an apostrophe. *)
Lemma layout_no_apostrophe (s t : Z) : "'"%char ∉ chars (JsNumber.layout s t).
Proof.
  pose proof (pretty_Z_no_apostrophe s) as Hs.
  unfold JsNumber.layout, JsNumber.zeros. cbv zeta.
  repeat case_match; rewrite ?chars_app, ?elem_of_app; cbn [chars];
    rewrite ?elem_of_app, ?elem_of_cons, ?elem_of_nil;
    intros Hin; decompose [or] Hin; clear Hin; try done;
    repeat match goal with
    | H : _ ∈ chars (JsNumber.take_chars _ _) |- _ =>
        apply take_chars_elem_of in H
    | H : _ ∈ chars (JsNumber.drop_chars _ _) |- _ =>
        apply drop_chars_elem_of in H
    | H : _ ∈ chars (pad_zeros _ _) |- _ =>
        by apply pad_zeros_no_apostrophe in H
    | H : _ ∈ chars (pretty _) |- _ => by apply pretty_Z_no_apostrophe in H
    end.
Qed.

Lemma toString_no_apostrophe (x : number) :
  "'"%char ∉ chars (JsNumber.toString x).
Proof.
  assert (Hpos : ∀ m e, "'"%char ∉ chars (JsNumber.positive_toString m e)).
  { intros m e. unfold JsNumber.positive_toString. cbv zeta.
    destruct (JsNumber.shortest _ _ _). apply layout_no_apostrophe. }
  assert (Hneg : ∀ m e,
            "'"%char ∉ chars ("-" +:+ JsNumber.positive_toString m e)).
  { intros m e. rewrite append_cons. cbn [chars].
    apply not_elem_of_cons. split; [done|apply Hpos]. }
  destruct x; cbn [JsNumber.toString]; repeat case_match;
    try apply Hpos; try apply Hneg;
    cbn [chars]; rewrite ?elem_of_cons, elem_of_nil;
    intros Hin; decompose [or] Hin; done.
Qed.


(** Whole seconds below [2^53]: minutes, apostrophe, two digits. *)
Lemma formatTime_shape (n : Z) :
  Z.abs n < 2 ^ 53 →
  formatTime (Int n)
  = pretty (Z.abs n / 60) +:+ "'" +:+ two_digits (Z.abs n mod 60) +:+
    (if n <? 0 then " Remaining" else "").
Proof.
  intros Hn. rewrite formatTime_whole, minutes_exact by done.
  assert (0 ≤ Z.abs n mod 60 < 60) by (apply Z.mod_pos_bound; lia).
  replace (Z.abs n mod 60) with (Z.of_nat (Z.to_nat (Z.abs n mod 60))) by lia.
  by rewrite padStart_two_digits by lia.
Qed.



(** ** Group keys *)

(** C9. [groupKey] is not injective on the field tuple (quest name, meta,
    category, PB): a meta value that contains the delimiter and a category
    value that contains it give the same key. *)
Theorem groupKey_collision :
  ∃ (r1 r2 : Rec) (q1 q2 : option string),
    groupFields r1 q1 ≠ groupFields r2 q2 ∧
    groupKey r1 q1 = groupKey r2 q2.
Proof.
  exists {| r_id := 1; r_quest_id := 1; r_meta := Str "a||b";
            r_category := Str "c"; r_pb := true; r_time := 0; r_rank := 1 |},
         {| r_id := 2; r_quest_id := 1; r_meta := Str "a";
            r_category := Str "b||c"; r_pb := true; r_time := 0; r_rank := 1 |},
         (Some "Q"), (Some "Q").
  split; [discriminate | reflexivity].
Qed.

(** ** The row limit *)

Lemma selectRecords_pos (records : list Rec) (n : Z) :
  1 ≤ n → selectRecords records (Some n) = take (Z.to_nat n) records.
Proof.
  intros Hn. unfold selectRecords, slice0.
  destruct (Z.eqb_spec n 0); [lia|].
  destruct (Z.ltb_spec n 0); [lia|done].
Qed.

(** C10. A limit of [0] is falsy and renders every record, exactly as
    [null] does; a limit [n >= 1] renders the first [n] records of the input
    list. *)
Theorem limit_zero_means_no_limit (localeCompare : string → string → Z)
    (records : list Rec) (questById : gmap Z Quest)
    (playerRecords : list PlayerRecord) (playerById : gmap Z Player)
    (n : Z) (Hn : 1 ≤ n) :
  selectRecords records (Some 0) = records ∧
  renderGroupedTable localeCompare records questById playerRecords playerById (Some 0)
  = renderGroupedTable localeCompare records questById playerRecords playerById None ∧
  selectRecords records (Some n) = take (Z.to_nat n) records ∧
  renderGroupedTable localeCompare records questById playerRecords playerById (Some n)
  = renderGroupedTable localeCompare (take (Z.to_nat n) records)
      questById playerRecords playerById None.
Proof.
  split_and!; try done.
  - by apply selectRecords_pos.
  - unfold renderGroupedTable. by rewrite selectRecords_pos.
Qed.

(** ** Sorting *)

Section ArraySortFacts.
Context {A : Type} (cmp : A → A → Z) (R : relation A) (D : A → Prop).

Lemma sort_insert_Permutation x l : sort_insert cmp x l ≡ₚ x :: l.
Proof.
  induction l as [|y l IH]; [done|].
  cbn. destruct (cmp x y <=? 0); [done|].
  rewrite IH. apply Permutation_swap.
Qed.

Lemma Array_sort_Permutation l : Array_sort cmp l ≡ₚ l.
Proof.
  induction l as [|x l IH]; [done|].
  change (Array_sort cmp (x :: l)) with (sort_insert cmp x (Array_sort cmp l)).
  rewrite sort_insert_Permutation. by f_equiv.
Qed.

(** The model is stable: an array that the comparator already orders is
    returned as it is. *)
Lemma Array_sort_ordered l :
  StronglySorted (λ x y, cmp x y ≤ 0) l → Array_sort cmp l = l.
Proof.
  induction 1 as [|x l Hs IH Hx]; [done|].
  change (Array_sort cmp (x :: l)) with (sort_insert cmp x (Array_sort cmp l)).
  rewrite IH. destruct l as [|y l]; [done|]. cbn [sort_insert].
  apply Forall_cons in Hx as [Hxy _].
  by destruct (Z.leb_spec (cmp x y) 0); [|lia].
Qed.

Hypothesis cmp_R : ∀ x y, D x → D y → (cmp x y ≤ 0 ↔ R x y).
Hypothesis R_total : ∀ x y, D x → D y → R x y ∨ R y x.
Hypothesis R_trans : ∀ x y z, D x → D y → D z → R x y → R y z → R x z.

Lemma sort_insert_StronglySorted x l :
  D x → Forall D l → StronglySorted R l →
  StronglySorted R (sort_insert cmp x l).
Proof.
  intros Hx Hl Hs. induction Hs as [|y l Hs IH Hy]; cbn.
  - repeat constructor.
  - apply Forall_cons in Hl as [Dy Dl].
    destruct (Z.leb_spec (cmp x y) 0) as [Hle|Hgt].
    + apply cmp_R in Hle; [|done..].
      constructor; [by constructor|].
      constructor; [done|].
      rewrite Forall_forall in Hy, Dl. apply Forall_forall.
      intros z Hz. apply (R_trans x y z); auto.
    + assert (R y x) as Hyx.
      { destruct (R_total x y) as [Hxy|]; [done..| |done].
        apply cmp_R in Hxy; [lia|done..]. }
      constructor; [by apply IH|].
      rewrite sort_insert_Permutation. by constructor.
Qed.

Lemma Array_sort_StronglySorted l :
  Forall D l → StronglySorted R (Array_sort cmp l).
Proof.
  induction 1 as [|x l Hx Hl IH]; [constructor|].
  change (Array_sort cmp (x :: l)) with (sort_insert cmp x (Array_sort cmp l)).
  apply sort_insert_StronglySorted; [done| |done].
  by rewrite Array_sort_Permutation.
Qed.
End ArraySortFacts.

(** ** The join *)

Section JoinFacts.
Variable questById : gmap Z Quest.
Variable playerRecords : list PlayerRecord.
Variable playerById : gmap Z Player.

Local Abbreviation rowsFor :=
  (rowsForRecord questById playerRecords playerById).
Local Abbreviation joinAll :=
  (joinRows questById playerRecords playerById).

Lemma push_each {B C} (f : B → C) (acc : list C) (l : list B) :
  foldl (λ rows x, rows ++ [f x]) acc l = acc ++ map f l.
Proof.
  revert acc. induction l as [|x l IH]; intros acc; cbn.
  - by rewrite app_nil_r.
  - by rewrite IH, <-app_assoc.
Qed.

Lemma joinStep_rowsForRecord acc record :
  joinStep questById playerRecords playerById acc record
  = acc ++ rowsFor record.
Proof.
  unfold joinStep, rowsForRecord.
  destruct prsForRecord as [|pr prs] eqn:E; [done|].
  cbn [length Nat.eqb]. by rewrite push_each.
Qed.

Lemma joinRows_from acc selected :
  foldl (joinStep questById playerRecords playerById) acc selected
  = acc ++ concat (map rowsFor selected).
Proof.
  revert acc. induction selected as [|r sel IH]; intros acc; cbn.
  - by rewrite app_nil_r.
  - by rewrite IH, joinStep_rowsForRecord, <-app_assoc.
Qed.

Lemma joinRows_concat selected : joinAll selected = concat (map rowsFor selected).
Proof. apply joinRows_from. Qed.

Lemma prsForRecord_Permutation R :
  prsForRecord playerRecords R ≡ₚ participants playerRecords R.
Proof. apply Array_sort_Permutation. Qed.

Lemma prsForRecord_sorted R :
  StronglySorted (λ a b, pr_id a ≤ pr_id b) (prsForRecord playerRecords R).
Proof.
  apply (Array_sort_StronglySorted _ _ (λ _, True)).
  - intros; lia.
  - intros; lia.
  - intros; lia.
  - by apply Forall_forall.
Qed.

Lemma rowsForRecord_record R row : row ∈ rowsFor R → row_record row = R.
Proof.
  unfold rowsForRecord. destruct prsForRecord as [|pr prs].
  - by intros ->%list_elem_of_singleton.
  - intros (pr' & -> & _)%list_elem_of_fmap. done.
Qed.

Lemma rowsOf_rowsForRecord R R' :
  rowsOf R (rowsFor R') = if decide (R' = R) then rowsFor R' else [].
Proof.
  unfold rowsOf. pose proof (rowsForRecord_record R') as Hrec.
  induction (rowsFor R') as [|row rows IH]; [by destruct decide|].
  rewrite filter_cons.
  pose proof (Hrec row ltac:(left)) as Hrow.
  rewrite IH by (intros; apply Hrec; by right).
  repeat destruct decide; congruence.
Qed.

Lemma rowsOf_joinRows R selected :
  rowsOf R (joinAll selected)
  = concat (replicate (occurrences R selected) (rowsFor R)).
Proof.
  rewrite joinRows_concat. unfold occurrences.
  induction selected as [|r sel IH]; [done|].
  cbn [map concat]. unfold rowsOf in *. rewrite filter_app, IH.
  fold (rowsOf R (rowsFor r)). rewrite rowsOf_rowsForRecord.
  rewrite filter_cons. destruct decide as [->|]; done.
Qed.
End JoinFacts.

(** ** Collation *)

Section CollationFacts.
Context (lc : string → string → Z) `{!Collation lc}.

Lemma collation_refl x : lc x x = 0.
Proof.
  pose proof (collation_antisym (localeCompare := lc) x x). lia.
Qed.

Lemma collation_total x y : lc x y ≤ 0 ∨ lc y x ≤ 0.
Proof.
  pose proof (collation_antisym (localeCompare := lc) x y).
  pose proof (collation_antisym (localeCompare := lc) y x). lia.
Qed.

Lemma collation_lt_ne x y : lc x y < 0 → x ≠ y.
Proof. intros H ->. rewrite collation_refl in H. lia. Qed.

Lemma collation_le_lt x y : lc x y ≤ 0 → x ≠ y → lc x y < 0.
Proof.
  intros Hle Hne. destruct (decide (lc x y = 0)) as [E|]; [|lia].
  by apply collation_eq in E.
Qed.

Lemma collation_le_trans x y z : lc x y ≤ 0 → lc y z ≤ 0 → lc x z ≤ 0.
Proof.
  intros Hxy Hyz.
  destruct (decide (x = y)) as [->|Nxy]; [done|].
  destruct (decide (y = z)) as [->|Nyz]; [done|].
  apply collation_le_lt in Hxy; [|done].
  apply collation_le_lt in Hyz; [|done].
  pose proof (collation_trans (localeCompare := lc) x y z Hxy Hyz). lia.
Qed.

Lemma collation_lt_asym x y : lc x y < 0 → lc y x < 0 → False.
Proof.
  pose proof (collation_antisym (localeCompare := lc) x y). lia.
Qed.
End CollationFacts.

Lemma compare_to_Z x y : codeUnitCompare x y < 0 ↔ String.compare x y = Lt.
Proof. unfold codeUnitCompare. destruct (String.compare x y); split; (done || lia). Qed.

Lemma codeUnitCompare_collation : Collation codeUnitCompare.
Proof.
  split.
  - intros x y. unfold codeUnitCompare.
    destruct (String.compare x y) eqn:E; try lia.
    intros _. by apply String.compare_eq_iff.
  - intros x y. unfold codeUnitCompare.
    rewrite (String.compare_antisym x y).
    destruct (String.compare y x); cbn; lia.
  - intros x y z. rewrite !compare_to_Z.
    change String.compare with OrderedTypeEx.String_as_OT.cmp.
    rewrite !OrderedTypeEx.String_as_OT.cmp_lt.
    apply OrderedTypeEx.String_as_OT.lt_trans.
Qed.

(** ** Consistent comparators *)

Section ComparatorFacts.
Context (lc : string → string → Z) `{!ConsistentComparator lc}.

Lemma comparator_total x y : lc x y ≤ 0 ∨ lc y x ≤ 0.
Proof.
  pose proof (comparator_antisym (localeCompare := lc) x y).
  pose proof (comparator_antisym (localeCompare := lc) y x). lia.
Qed.

Lemma comparator_lt_ne x y : lc x y < 0 → x ≠ y.
Proof.
  intros H ->. rewrite (comparator_refl (localeCompare := lc)) in H. lia.
Qed.

Lemma comparator_lt_asym x y : lc x y < 0 → lc y x < 0 → False.
Proof.
  pose proof (comparator_antisym (localeCompare := lc) x y). lia.
Qed.

Lemma comparator_lt_trans x y z : lc x y < 0 → lc y z < 0 → lc x z < 0.
Proof.
  intros Hxy Hyz.
  pose proof (comparator_trans (localeCompare := lc) x y z) as Hxz.
  destruct (decide (lc x z < 0)) as [|Hge]; [done|exfalso].
  assert (lc z x ≤ 0) as Hzx.
  { pose proof (comparator_antisym (localeCompare := lc) x z).
    pose proof (comparator_antisym (localeCompare := lc) z x). lia. }
  pose proof (comparator_trans (localeCompare := lc) z x y Hzx ltac:(lia)).
  pose proof (comparator_antisym (localeCompare := lc) y z). lia.
Qed.
End ComparatorFacts.

(** A collation without ties is a consistent comparator that separates
    whatever keys occur. *)
Lemma collation_consistent (lc : string → string → Z) :
  Collation lc → ConsistentComparator lc.
Proof.
  intros Hc. split.
  - by apply collation_refl.
  - apply collation_antisym.
  - by apply collation_le_trans.
Qed.

Lemma collation_separatesKeys (lc : string → string → Z) rows :
  Collation lc → separatesKeys lc rows.
Proof. intros Hc a b _ _. apply collation_eq. Qed.

Lemma codeUnitCompare_consistent : ConsistentComparator codeUnitCompare.
Proof. apply collation_consistent, codeUnitCompare_collation. Qed.

(** Composing the accent first keeps the comparison consistent. *)
Lemma canonicalCompare_consistent : ConsistentComparator canonicalCompare.
Proof.
  pose proof codeUnitCompare_consistent as Hc. unfold canonicalCompare.
  split.
  - intros x. apply comparator_refl.
  - intros x y. apply comparator_antisym.
  - intros x y z. apply comparator_trans.
Qed.

(** ** The comparator and the order of the specification *)

Section RowOrder.
Context (lc : string → string → Z) `{!Collation lc}.

Lemma compareRows_rowBefore a b : compareRows lc a b ≤ 0 ↔ rowBefore lc a b.
Proof.
  unfold compareRows, rowBefore, recordBefore, participantBefore.
  change (groupKey (row_record a) (row_questName a)) with (rowKey a).
  change (groupKey (row_record b) (row_questName b)) with (rowKey b).
  cbv zeta.
  pose proof (collation_le_lt lc (rowKey a) (rowKey b)).
  pose proof (collation_lt_ne lc (rowKey a) (rowKey b)).
  pose proof (collation_refl lc (rowKey b)).
  repeat case_bool_decide; intuition (try congruence; try lia).
Qed.

Lemma rowBefore_total a b : rowBefore lc a b ∨ rowBefore lc b a.
Proof.
  unfold rowBefore.
  destruct (decide (rowKey a = rowKey b)) as [E|N].
  - destruct (decide (r_id (row_record a) = r_id (row_record b))) as [Eid|Nid].
    + assert (participantBefore lc a b ∨ participantBefore lc b a) as [?|?];
        [|left; right; auto|right; right; auto].
      unfold participantBefore.
      destruct (collation_total lc (row_playerName a) (row_playerName b));
        destruct (Z.lt_trichotomy (pr_id_or_0 a) (pr_id_or_0 b))
          as [?|[?|?]]; auto.
    + assert (recordBefore (row_record a) (row_record b) ∨
              recordBefore (row_record b) (row_record a)) as [?|?];
        [unfold recordBefore; lia|left; right; auto|right; right; auto].
  - destruct (collation_total lc (rowKey a) (rowKey b)) as [H|H];
      apply collation_le_lt in H; auto.
Qed.

Lemma rowBefore_trans a b c :
  agree a b → agree b c → agree a c →
  rowBefore lc a b → rowBefore lc b c → rowBefore lc a c.
Proof.
  unfold agree, rowBefore, recordBefore, participantBefore.
  intros Hab Hbc Hac.
  pose proof (collation_trans (localeCompare := lc) (rowKey a) (rowKey b) (rowKey c)).
  pose proof (collation_le_trans lc
    (row_playerName a) (row_playerName b) (row_playerName c)).
  intros [H1|[E1 H1]] [H2|[E2 H2]].
  - left; auto.
  - left. by rewrite <-E2.
  - left. by rewrite E1.
  - right. split; [congruence|].
    destruct (decide (r_id (row_record a) = r_id (row_record c))) as [Eac|Nac].
    + right. split; [done|]. destruct (Hac Eac) as (_ & ? & ?).
      destruct H1 as [[? H1]|[Eab H1]], H2 as [[? H2]|[Ebc H2]];
        try (destruct (Hab Eab) as (_ & ? & ?));
        try (destruct (Hbc Ebc) as (_ & ? & ?)); lia.
    + left. split; [done|].
      destruct H1 as [[? H1]|[Eab H1]], H2 as [[? H2]|[Ebc H2]];
        try (destruct (Hab Eab) as (_ & ? & ?));
        try (destruct (Hbc Ebc) as (_ & ? & ?)); lia.
Qed.

(** Between two rows of one record of one group, a sorted list has only
    rows of that record. *)
Lemma rowBefore_between a b c :
  agree a c →
  rowBefore lc a b → rowBefore lc b c → sameRecordInGroup a c →
  sameRecordInGroup a b.
Proof.
  unfold agree, rowBefore, recordBefore, participantBefore, sameRecordInGroup.
  intros Hac H1 H2 [Ek Eid]. destruct (Hac Eid) as (_ & ? & ?).
  destruct H1 as [H1|[E1 H1]].
  { exfalso. destruct H2 as [H2|[E2 H2]].
    - rewrite <-Ek in H2. by eapply collation_lt_asym.
    - rewrite E2, <-Ek in H1. by apply collation_lt_ne in H1. }
  split; [done|].
  destruct H2 as [H2|[E2 H2]].
  { exfalso. rewrite <-E1, Ek in H2. by apply collation_lt_ne in H2. }
  destruct H1 as [[? H1]|[Eab H1]]; [|done].
  destruct H2 as [[? H2]|[Ebc H2]]; [lia|congruence].
Qed.

Lemma idsIdentifyRecords_agree rows a b :
  idsIdentifyRecords rows → a ∈ rows → b ∈ rows → agree a b.
Proof.
  intros Hids Ha Hb E. destruct (Hids a b Ha Hb E) as [Hr Hq].
  unfold rowKey. by rewrite Hr, Hq.
Qed.

Lemma sortRows_Permutation rows : sortRows lc rows ≡ₚ rows.
Proof. apply Array_sort_Permutation. Qed.

Lemma sortRows_StronglySorted rows :
  idsIdentifyRecords rows → StronglySorted (rowBefore lc) (sortRows lc rows).
Proof.
  intros Hids.
  apply (Array_sort_StronglySorted _ _ (λ a, a ∈ rows)).
  - intros. apply compareRows_rowBefore.
  - intros. apply rowBefore_total.
  - intros x y z Hx Hy Hz.
    apply rowBefore_trans; by eapply idsIdentifyRecords_agree.
  - by apply Forall_forall.
Qed.

(** What strong sortedness says about positions. *)
Lemma StronglySorted_lookup {A} (R : relation A) (l : list A) i j a b :
  StronglySorted R l → (i < j)%nat → l !! i = Some a → l !! j = Some b →
  R a b.
Proof.
  intros Hs. revert i j. induction Hs as [|x l Hs IH Hx]; intros i j Hij Hi Hj.
  - by rewrite lookup_nil in Hi.
  - destruct j as [|j]; [lia|]. cbn in Hj.
    destruct i as [|i]; cbn in Hi.
    + injection Hi as <-. rewrite Forall_forall in Hx.
      apply Hx. by eapply list_elem_of_lookup_2.
    + apply (IH i j); [lia|done..].
Qed.
End RowOrder.

(** The same facts for a collation with ties, on rows whose keys it
    separates. *)
Section RowOrderOn.
Context (lc : string → string → Z) `{!ConsistentComparator lc}.
Context (rows : list JoinedRow).
Hypothesis Hsep : separatesKeys lc rows.
Hypothesis Hids : idsIdentifyRecords rows.

Lemma compareRows_rowBefore_on a b :
  a ∈ rows → b ∈ rows → compareRows lc a b ≤ 0 ↔ rowBefore lc a b.
Proof.
  intros Ha Hb.
  unfold compareRows, rowBefore, recordBefore, participantBefore.
  change (groupKey (row_record a) (row_questName a)) with (rowKey a).
  change (groupKey (row_record b) (row_questName b)) with (rowKey b).
  cbv zeta.
  assert (rowKey a ≠ rowKey b → lc (rowKey a) (rowKey b) ≠ 0)
    by (intros N E; by apply N, Hsep).
  pose proof (comparator_lt_ne lc (rowKey a) (rowKey b)).
  repeat case_bool_decide; intuition (try congruence; try lia).
Qed.

Lemma rowBefore_total_on a b :
  a ∈ rows → b ∈ rows → rowBefore lc a b ∨ rowBefore lc b a.
Proof.
  intros Ha Hb. unfold rowBefore.
  destruct (decide (rowKey a = rowKey b)) as [E|N].
  - destruct (decide (r_id (row_record a) = r_id (row_record b))) as [Eid|Nid].
    + assert (participantBefore lc a b ∨ participantBefore lc b a) as [?|?];
        [|left; right; auto|right; right; auto].
      unfold participantBefore.
      destruct (comparator_total lc (row_playerName a) (row_playerName b));
        destruct (Z.lt_trichotomy (pr_id_or_0 a) (pr_id_or_0 b))
          as [?|[?|?]]; auto.
    + assert (recordBefore (row_record a) (row_record b) ∨
              recordBefore (row_record b) (row_record a)) as [?|?];
        [unfold recordBefore; lia|left; right; auto|right; right; auto].
  - destruct (comparator_total lc (rowKey a) (rowKey b)) as [H1|H1].
    + left. left.
      destruct (decide (lc (rowKey a) (rowKey b) = 0)) as [E|]; [|lia].
      by apply Hsep in E.
    + right. left.
      destruct (decide (lc (rowKey b) (rowKey a) = 0)) as [E|]; [|lia].
      apply Hsep in E; [|done..]. by symmetry in E.
Qed.

Lemma rowBefore_trans_on a b c :
  a ∈ rows → b ∈ rows → c ∈ rows →
  rowBefore lc a b → rowBefore lc b c → rowBefore lc a c.
Proof.
  intros Ha Hb Hc.
  pose proof (idsIdentifyRecords_agree rows a b Hids Ha Hb) as Hab.
  pose proof (idsIdentifyRecords_agree rows b c Hids Hb Hc) as Hbc.
  pose proof (idsIdentifyRecords_agree rows a c Hids Ha Hc) as Hac.
  unfold agree, rowBefore, recordBefore, participantBefore in *.
  pose proof (comparator_lt_trans lc (rowKey a) (rowKey b) (rowKey c)).
  pose proof (comparator_trans (localeCompare := lc)
    (row_playerName a) (row_playerName b) (row_playerName c)).
  intros [H1|[E1 H1]] [H2|[E2 H2]].
  - left; auto.
  - left. by rewrite <-E2.
  - left. by rewrite E1.
  - right. split; [congruence|].
    destruct (decide (r_id (row_record a) = r_id (row_record c))) as [Eac|Nac].
    + right. split; [done|]. destruct (Hac Eac) as (_ & ? & ?).
      destruct H1 as [[? H1]|[Eab H1]], H2 as [[? H2]|[Ebc H2]];
        try (destruct (Hab Eab) as (_ & ? & ?));
        try (destruct (Hbc Ebc) as (_ & ? & ?)); lia.
    + left. split; [done|].
      destruct H1 as [[? H1]|[Eab H1]], H2 as [[? H2]|[Ebc H2]];
        try (destruct (Hab Eab) as (_ & ? & ?));
        try (destruct (Hbc Ebc) as (_ & ? & ?)); lia.
Qed.

Lemma rowBefore_between_on a b c :
  a ∈ rows → c ∈ rows →
  rowBefore lc a b → rowBefore lc b c → sameRecordInGroup a c →
  sameRecordInGroup a b.
Proof.
  intros Ha Hc.
  pose proof (idsIdentifyRecords_agree rows a c Hids Ha Hc) as Hac.
  unfold agree, rowBefore, recordBefore, participantBefore, sameRecordInGroup
    in *.
  intros H1 H2 [Ek Eid]. destruct (Hac Eid) as (_ & ? & ?).
  destruct H1 as [H1|[E1 H1]].
  { exfalso. destruct H2 as [H2|[E2 H2]].
    - rewrite <-Ek in H2. by eapply comparator_lt_asym.
    - rewrite E2, <-Ek in H1. by apply comparator_lt_ne in H1. }
  split; [done|].
  destruct H2 as [H2|[E2 H2]].
  { exfalso. rewrite <-E1, Ek in H2. by apply comparator_lt_ne in H2. }
  destruct H1 as [[? H1]|[Eab H1]]; [|done].
  destruct H2 as [[? H2]|[Ebc H2]]; [lia|congruence].
Qed.

Lemma sortRows_sorted_on : StronglySorted (rowBefore lc) (sortRows lc rows).
Proof.
  apply (Array_sort_StronglySorted _ _ (λ a, a ∈ rows)).
  - intros. by apply compareRows_rowBefore_on.
  - intros. by apply rowBefore_total_on.
  - intros x y z Hx Hy Hz. by apply rowBefore_trans_on.
  - by apply Forall_forall.
Qed.
End RowOrderOn.


(** ** The join: claims *)

(** C3. A record with no player-record pointing at it contributes exactly
    one joined row, the placeholder: participant name [(none found)], empty
    class and POV, no participant.  The loop iteration pushes that one row,
    and the rows of the record in the whole join are one placeholder per
    occurrence of the record in the input (so exactly one when it occurs
    once). *)
Theorem join_without_participants (questById : gmap Z Quest)
    (playerRecords : list PlayerRecord) (playerById : gmap Z Player)
    (R : Rec)
    (Hnone : ∀ pr, pr ∈ playerRecords → pr_record_id pr ≠ r_id R) :
  (∀ acc, joinStep questById playerRecords playerById acc R
          = acc ++ [placeholderRow questById R]) ∧
  (∀ selected,
     rowsOf R (joinRows questById playerRecords playerById selected)
     = replicate (occurrences R selected) (placeholderRow questById R)) ∧
  (∀ selected, occurrences R selected = 1%nat →
     rowsOf R (joinRows questById playerRecords playerById selected)
     = [placeholderRow questById R]) ∧
  row_record (placeholderRow questById R) = R ∧
  row_pr (placeholderRow questById R) = None ∧
  row_playerName (placeholderRow questById R) = "(none found)" ∧
  row_cls (placeholderRow questById R) = "" ∧
  row_pov (placeholderRow questById R) = "".
Proof.
  assert (Hprs : prsForRecord playerRecords R = []).
  { apply Permutation_nil_r. rewrite prsForRecord_Permutation.
    unfold participants. induction playerRecords as [|pr prs IH]; [done|].
    rewrite filter_cons. destruct decide as [E|_].
    - exfalso. by apply (Hnone pr); [left|].
    - apply IH. intros pr' Hpr'. apply Hnone. by right. }
  assert (Hrows : rowsForRecord questById playerRecords playerById R
                  = [placeholderRow questById R]).
  { unfold rowsForRecord. by rewrite Hprs. }
  assert (Hall : ∀ selected,
     rowsOf R (joinRows questById playerRecords playerById selected)
     = replicate (occurrences R selected) (placeholderRow questById R)).
  { intros selected. rewrite rowsOf_joinRows, Hrows.
    induction (occurrences R selected) as [|n IH]; [done|].
    cbn. by rewrite IH. }
  split_and!; try done.
  - intros acc. by rewrite joinStep_rowsForRecord, Hrows.
  - intros selected Hone. by rewrite Hall, Hone.
Qed.

(** C4. A record with [N >= 1] player-records pointing at it contributes
    exactly [N] joined rows, one per participant; the participants are the
    player-records whose [record_id] equals the record's id, taken in
    ascending order of their own id; every row carries the record itself
    (hence all its record-level fields) and the record's quest name. *)
Theorem join_with_participants (questById : gmap Z Quest)
    (playerRecords : list PlayerRecord) (playerById : gmap Z Player)
    (R : Rec) (N : nat)
    (HN : length (participants playerRecords R) = N) (Hpos : (1 ≤ N)%nat) :
  (∀ pr, pr ∈ participants playerRecords R
         ↔ pr ∈ playerRecords ∧ pr_record_id pr = r_id R) ∧
  prsForRecord playerRecords R ≡ₚ participants playerRecords R ∧
  StronglySorted (λ a b, pr_id a ≤ pr_id b) (prsForRecord playerRecords R) ∧
  (∀ acc, joinStep questById playerRecords playerById acc R
          = acc ++ map (participantRow questById playerById R)
                       (prsForRecord playerRecords R)) ∧
  length (map (participantRow questById playerById R)
              (prsForRecord playerRecords R)) = N ∧
  (∀ selected,
     rowsOf R (joinRows questById playerRecords playerById selected)
     = concat (replicate (occurrences R selected)
                 (map (participantRow questById playerById R)
                      (prsForRecord playerRecords R)))) ∧
  (∀ pr, row_record (participantRow questById playerById R pr) = R ∧
         row_questName (participantRow questById playerById R pr)
         = questNameOf questById R ∧
         row_pr (participantRow questById playerById R pr) = Some pr).
Proof.
  assert (Hlen : length (prsForRecord playerRecords R) = N).
  { by rewrite prsForRecord_Permutation. }
  assert (Hrows : rowsForRecord questById playerRecords playerById R
                  = map (participantRow questById playerById R)
                        (prsForRecord playerRecords R)).
  { unfold rowsForRecord.
    destruct (prsForRecord playerRecords R); [cbn in Hlen; lia|done]. }
  split_and!.
  - intros pr. unfold participants. by rewrite list_elem_of_filter, (comm and).
  - apply prsForRecord_Permutation.
  - apply prsForRecord_sorted.
  - intros acc. by rewrite joinStep_rowsForRecord, Hrows.
  - by rewrite length_map.
  - intros selected. by rewrite rowsOf_joinRows, Hrows.
  - done.
Qed.

(** The join of records with distinct ids satisfies [idsIdentifyRecords]. *)
Lemma joinRows_idsIdentifyRecords (questById : gmap Z Quest)
    (playerRecords : list PlayerRecord) (playerById : gmap Z Player)
    (selected : list Rec) :
  (∀ r r', r ∈ selected → r' ∈ selected → r_id r = r_id r' → r = r') →
  idsIdentifyRecords (joinRows questById playerRecords playerById selected).
Proof.
  intros Huniq.
  assert (Hin : ∀ row,
    row ∈ joinRows questById playerRecords playerById selected →
    row_record row ∈ selected ∧
    row_questName row = questNameOf questById (row_record row)).
  { intros row. rewrite joinRows_concat.
    intros Hrow. apply list_elem_of_In, in_concat in Hrow as (rows & Hrows & Hrow).
    apply list_elem_of_In in Hrows, Hrow.
    apply list_elem_of_fmap in Hrows as (r & -> & Hr).
    pose proof (rowsForRecord_record _ _ _ _ _ Hrow) as ->.
    split; [done|].
    unfold rowsForRecord in Hrow. destruct prsForRecord.
    - by apply list_elem_of_singleton in Hrow as ->.
    - by apply list_elem_of_fmap in Hrow as (pr & -> & _). }
  intros a b Ha Hb E.
  destruct (Hin a Ha) as [Sa Qa], (Hin b Hb) as [Sb Qb].
  pose proof (Huniq _ _ Sa Sb E) as Hrec.
  split; [done|]. by rewrite Qa, Qb, Hrec.
Qed.

(** ** The sort: claims *)



(** ** The rendering loop *)

Lemma renderStep_stateAfter earlier st row :
  stateAfter earlier st →
  stateAfter (earlier ++ [row]) (renderStep st row) ∧
  tbodyRows (renderStep st row)
  = tbodyRows st ++
    (if groupChanges earlier row then groupMarker row else []) ++
    [DataTr (if startsRecord earlier row then populatedRow row
             else blankedRow row)].
Proof.
  intros [Hg Hr]. unfold stateAfter, renderStep, groupChanges, startsRecord.
  rewrite last_snoc. cbv zeta.
  change (groupKey (row_record row) (row_questName row)) with (rowKey row).
  rewrite Hg.
  destruct (last earlier) as [prev|];
    cbn [fmap option_fmap option_map] in *.
  - destruct (decide (rowKey prev = rowKey row)) as [Ek|Nk].
    + rewrite (bool_decide_eq_false_2 (Some (rowKey row) ≠ _))
        by (rewrite Ek; auto).
      rewrite (bool_decide_eq_false_2 (rowKey prev ≠ _)) by auto.
      rewrite Hg, Hr.
      destruct (decide (r_id (row_record prev) = r_id (row_record row)))
        as [Ei|Ni].
      * rewrite (bool_decide_eq_false_2 (Some _ ≠ _)) by (rewrite Ei; auto).
        rewrite (bool_decide_eq_true_2 (sameRecordInGroup _ _)) by done.
        cbn [lastGroup lastRecordIdWithinGroup tbodyRows negb app].
        by rewrite Ek, Ei.
      * rewrite (bool_decide_eq_true_2 (Some _ ≠ _)) by congruence.
        rewrite (bool_decide_eq_false_2 (sameRecordInGroup _ _))
          by (intros [_ ?]; done).
        cbn [lastGroup lastRecordIdWithinGroup tbodyRows negb app].
        by rewrite Ek.
    + rewrite (bool_decide_eq_true_2 (Some (rowKey row) ≠ _)) by congruence.
      rewrite (bool_decide_eq_true_2 (rowKey prev ≠ _)) by done.
      rewrite (bool_decide_eq_false_2 (sameRecordInGroup _ _))
        by (intros [? _]; done).
      cbn [lastGroup lastRecordIdWithinGroup tbodyRows negb bool_decide
           decide_rel].
      rewrite (bool_decide_eq_true_2 (Some _ ≠ None)) by done.
      split; [done|]. by rewrite <-app_assoc.
  - rewrite (bool_decide_eq_true_2 (Some (rowKey row) ≠ None)) by done.
    cbn [lastGroup lastRecordIdWithinGroup tbodyRows].
    rewrite (bool_decide_eq_true_2 (Some _ ≠ None)) by done.
    split; [done|]. by rewrite <-app_assoc.
Qed.

Section RenderFacts.
Context (lc : string → string → Z) `{!Collation lc}.

Lemma sameRecordInGroup_sym a b :
  sameRecordInGroup a b → sameRecordInGroup b a.
Proof. intros [??]. by split. Qed.

Lemma sameRecordInGroup_trans a b c :
  sameRecordInGroup a b → sameRecordInGroup b c → sameRecordInGroup a c.
Proof. intros [??] [??]. split; congruence. Qed.

(** In a sorted list, a row starts its record exactly when no earlier row
    belongs to that record. *)
Lemma startsRecord_firstOfRecord earlier row :
  StronglySorted (rowBefore lc) (earlier ++ [row]) →
  idsIdentifyRecords (earlier ++ [row]) →
  startsRecord earlier row = firstOfRecord earlier row.
Proof.
  intros Hs Hids. unfold startsRecord, firstOfRecord.
  destruct (last earlier) as [prev|] eqn:Hlast.
  - apply last_Some in Hlast as [e' ->].
    rewrite forallb_app. cbn [forallb]. rewrite andb_true_r.
    destruct (bool_decide_reflect (sameRecordInGroup prev row)) as [Hsame|Hnot];
      cbn [negb]; [by rewrite andb_false_r|].
    rewrite andb_true_r. symmetry. apply forallb_forall.
    intros e He%list_elem_of_In. apply negb_true_iff, bool_decide_eq_false.
    intros Hsame. apply Hnot.
    assert (sameRecordInGroup e prev) as Hep.
    { apply (rowBefore_between lc e prev row); [| | |done].
      - eapply idsIdentifyRecords_agree; [done| |]; set_solver.
      - rewrite <-app_assoc in Hs.
        eapply (StronglySorted_app_1_elem_of _ e'); [done..|set_solver].
      - eapply (StronglySorted_app_1_elem_of _ (e' ++ [prev])); [done|..];
          set_solver. }
    eapply sameRecordInGroup_trans; [|done]. by apply sameRecordInGroup_sym.
  - apply last_None in Hlast as ->. done.
Qed.

Lemma renderBody_from rows : ∀ earlier st,
  stateAfter earlier st →
  StronglySorted (rowBefore lc) (earlier ++ rows) →
  idsIdentifyRecords (earlier ++ rows) →
  tbodyRows (foldl renderStep st rows)
  = tbodyRows st ++ describeBody earlier rows.
Proof.
  induction rows as [|row rows IH]; intros earlier st Hst Hs Hids.
  - cbn. by rewrite app_nil_r.
  - cbn [foldl describeBody].
    destruct (renderStep_stateAfter earlier st row Hst) as [Hst' Hrows].
    rewrite (IH (earlier ++ [row])); [|done|by rewrite <-app_assoc..].
    rewrite Hrows.
    rewrite (startsRecord_firstOfRecord earlier row).
    + by rewrite <-!app_assoc.
    + change (row :: rows) with ([row] ++ rows) in Hs.
      rewrite app_assoc in Hs. by apply StronglySorted_app_1_l in Hs.
    + intros a b Ha Hb. apply Hids.
      * rewrite elem_of_app in Ha |- *. rewrite elem_of_cons.
        rewrite list_elem_of_singleton in Ha. tauto.
      * rewrite elem_of_app in Hb |- *. rewrite elem_of_cons.
        rewrite list_elem_of_singleton in Hb. tauto.
Qed.
End RenderFacts.

Lemma idsIdentifyRecords_Permutation rows rows' :
  rows ≡ₚ rows' → idsIdentifyRecords rows → idsIdentifyRecords rows'.
Proof.
  intros Hp Hids a b Ha Hb. apply Hids; by rewrite Hp.
Qed.

(** C5. On sorted rows the loop emits the group marker (label row and
    divider row) in front of a row exactly when the row's group key differs
    from the previous row's (and in front of the first row), and fills the
    record-level columns Quest, Meta, Category, PB, Time and Rank exactly on
    the rows that no earlier row of the same record of the same group
    precedes; every other row has empty strings there. *)
Theorem render_markers_and_first_rows (localeCompare : string → string → Z)
    (Hcoll : Collation localeCompare) (rows : list JoinedRow)
    (Hsorted : StronglySorted (rowBefore localeCompare) rows)
    (Hids : idsIdentifyRecords rows) :
  renderBody rows = describeBody [] rows.
Proof.
  unfold renderBody.
  by rewrite (renderBody_from localeCompare rows [] initRender).
Qed.

(** ** Typeahead suggestions *)

Lemma startsWith_spec (p s : string) :
  startsWith p s = true ↔ ∃ post, s = p +:+ post.
Proof.
  revert s. induction p as [|a p IH]; intros s; cbn.
  - split; [eauto|done].
  - destruct s as [|b s].
    + split; [done|]. by intros [post ?].
    + rewrite andb_true_iff, IH. split.
      * intros [->%Ascii.eqb_eq [post ->]]. by exists post.
      * intros [post Hpost]. rewrite append_cons in Hpost.
        injection Hpost as -> ->. rewrite Ascii.eqb_refl. eauto.
Qed.

Lemma includes_spec (s q : string) : includes s q = true ↔ substring_of q s.
Proof.
  unfold substring_of. induction s as [|a s IH]; cbn [includes].
  - rewrite orb_false_r, startsWith_spec. split.
    + intros [post ->]. by exists "", post.
    + intros ([|b pre] & post & E); [by exists post|done].
  - rewrite orb_true_iff, startsWith_spec, IH. split.
    + intros [[post ->]|(pre & post & ->)].
      * by exists "", post.
      * by exists (String a pre), post.
    + intros ([|b pre] & post & E).
      * left. by exists post.
      * right. rewrite append_cons in E. injection E as -> ->. eauto.
Qed.

Lemma suggestLoop_take selectedSet q its : ∀ matches,
  (length matches < 10)%nat →
  suggestLoop selectedSet q its matches
  = matches ++ take (10 - length matches) (List.filter (offered selectedSet q) its).
Proof.
  induction its as [|it rest IH]; intros matches Hlen; cbn [suggestLoop List.filter].
  - by rewrite take_nil, app_nil_r.
  - unfold offered at 1.
    destruct (bool_decide (key it ∈ selectedSet)); cbn [negb andb].
    { by apply IH. }
    destruct (includes (normalize (Some (label it))) q).
    + rewrite length_app. cbn [length].
      replace (10 - length matches)%nat with (S (9 - length matches)) by lia.
      cbn [take].
      destruct (Nat.leb_spec 10 (length matches + 1)) as [Hfull|Hroom].
      * replace (9 - length matches)%nat with 0%nat by lia. by rewrite take_0.
      * rewrite IH by (rewrite length_app; cbn; lia).
        rewrite length_app, <-app_assoc. cbn [length app].
        by replace (10 - (length matches + 1))%nat with (9 - length matches)%nat
          by lia.
    + destruct (Nat.leb_spec 10 (length matches)); [lia|]. by apply IH.
Qed.

Lemma trimStart_spaces (s : string) :
  Forall (λ c, Ascii.is_space c = true) (chars s) → trimStart s = "".
Proof.
  induction s as [|a s IH]; [done|]. cbn [chars trimStart].
  intros [Ha Hs]%Forall_cons. rewrite Ha. by apply IH.
Qed.

(** C8. For a query whose normalized form is not empty, the suggestions are
    the first ten, in the order of [items], of the items whose key is not
    selected and whose normalized label contains the normalized query as a
    substring; the markup is the concatenation of their entries; an empty or
    whitespace-only query gives no suggestions; for Alan and Alice the query
    [al] gives both. *)
Theorem suggestions_first_ten_matches :
  (∀ items selectedSet query,
     normalize (Some query) ≠ "" →
     suggestionMatches items selectedSet query
     = take 10 (List.filter (offered selectedSet (normalize (Some query))) items)) ∧
  (∀ selectedSet q it,
     offered selectedSet q it = true
     ↔ (key it ∉ selectedSet) ∧ substring_of q (normalize (Some (label it)))) ∧
  (∀ items selectedSet query,
     (length (suggestionMatches items selectedSet query) ≤ 10)%nat) ∧
  (∀ items selectedSet query,
     buildSuggestionList items selectedSet query
     = join "" (map suggestionHtml (suggestionMatches items selectedSet query))) ∧
  (∀ items selectedSet query,
     Forall (λ c, Ascii.is_space c = true) (chars query) →
     suggestionMatches items selectedSet query = [] ∧
     buildSuggestionList items selectedSet query = "") ∧
  suggestionMatches [itemAlan; itemAlice] ∅ "al" = [itemAlan; itemAlice] ∧
  suggestionMatches [itemAlan; itemAlice] ∅ " AL" = [itemAlan; itemAlice] ∧
  suggestionMatches [itemAlan; itemAlice] (singleton "2") "al" = [itemAlice] ∧
  length (List.filter (offered ∅ "player") manyItems) = 25%nat ∧
  suggestionMatches manyItems ∅ "player" = take 10 manyItems.
Proof.
  assert (Hmatches : ∀ items selectedSet query,
     normalize (Some query) ≠ "" →
     suggestionMatches items selectedSet query
     = take 10 (List.filter (offered selectedSet (normalize (Some query))) items)).
  { intros items selectedSet query Hq. unfold suggestionMatches.
    destruct (String.eqb_spec (normalize (Some query)) ""); [done|].
    by rewrite suggestLoop_take by (cbn; lia). }
  assert (Hspaces : ∀ query,
     Forall (λ c, Ascii.is_space c = true) (chars query) →
     normalize (Some query) = "").
  { intros query Hq. unfold normalize, trim. cbn [or_str].
    by rewrite trimStart_spaces. }
  split_and!; [exact Hmatches| | | | |vm_compute; reflexivity..].
  - intros selectedSet q it. unfold offered.
    rewrite andb_true_iff, negb_true_iff, bool_decide_eq_false, includes_spec.
    done.
  - intros items selectedSet query. unfold suggestionMatches.
    destruct (String.eqb_spec (normalize (Some query)) ""); [cbn; lia|].
    rewrite suggestLoop_take by (cbn; lia). cbn [app length].
    rewrite length_take. lia.
  - intros items selectedSet query.
    unfold buildSuggestionList, suggestionMatches.
    destruct (String.eqb (normalize (Some query)) ""); [done|].
    by destruct (suggestLoop _ _ _ _).
  - intros items selectedSet query Hq.
    unfold buildSuggestionList, suggestionMatches.
    by rewrite (Hspaces query Hq).
Qed.

(** ** Filtering *)

Lemma collectRecordIds_from (hit : PlayerRecord → bool)
    (prs : list PlayerRecord) (id : Z) : ∀ s : gset Z,
  id ∈ foldl (λ (s : gset Z) pr,
                if hit pr then s ∪ {[pr_record_id pr]} else s) s prs
  ↔ id ∈ s ∨ Exists (λ pr, pr_record_id pr = id ∧ hit pr = true) prs.
Proof.
  induction prs as [|pr prs IH]; intros s; cbn [foldl].
  - rewrite Exists_nil. tauto.
  - rewrite IH, Exists_cons. destruct (hit pr) eqn:Hhit.
    + rewrite elem_of_union, elem_of_singleton.
      split; [intros [[?|?]|?]|intros [?|[[??]|?]]]; auto.
    + split; [intros [?|?]|intros [?|[[??]|?]]]; auto. congruence.
Qed.

Lemma collectRecordIds_spec (hit : PlayerRecord → bool)
    (prs : list PlayerRecord) (id : Z) :
  id ∈ collectRecordIds hit prs
  ↔ Exists (λ pr, pr_record_id pr = id ∧ hit pr = true) prs.
Proof.
  unfold collectRecordIds. rewrite collectRecordIds_from.
  split; [intros [[]%not_elem_of_empty|?]|]; auto.
Qed.

Lemma size_zero_iff (s : gset string) : (size s =? 0)%nat = true ↔ s = ∅.
Proof. rewrite Nat.eqb_eq, size_empty_iff. by unfold_leibniz. Qed.

Lemma List_filter_stdpp {A} (f : A → bool) (P : A → Prop)
    `{!∀ x, Decision (P x)} (l : list A) :
  (∀ x, f x = true ↔ P x) → List.filter f l = filter P l.
Proof.
  intros Hf. induction l as [|x l IH]; [done|].
  cbn [List.filter]. rewrite filter_cons, IH.
  destruct (f x) eqn:E, (decide (P x)) as [HP|HP]; try done.
  - by apply Hf in E.
  - apply Hf in HP. congruence.
Qed.

Lemma allowedHas_spec (sel : gset string) (hit : PlayerRecord → bool)
    (prs : list PlayerRecord) (id : Z) :
  allowedHas (if (size sel =? 0)%nat then None
              else Some (collectRecordIds hit prs)) id = true
  ↔ sel = ∅ ∨ Exists (λ pr, pr_record_id pr = id ∧ hit pr = true) prs.
Proof.
  destruct (size sel =? 0)%nat eqn:E; cbn [allowedHas].
  - apply size_zero_iff in E. tauto.
  - rewrite bool_decide_eq_true, collectRecordIds_spec.
    split; [auto|]. intros [->|?]; [|done].
    by rewrite size_empty in E.
Qed.

(** C1. [filterRecords] keeps exactly the records that pass every active
    predicate, in their input order: meta, category and PB by equality with
    the record's own field (as a string), the player predicate when at least
    one player-record of the record has a selected player id, the class
    predicate when at least one player-record of the record has a selected
    normalized class; an empty value or empty selection constrains nothing,
    so with everything empty the input comes back unchanged.  On the
    fixture, player 3 together with class [ramar] selects the first duo run,
    whose player 3 is a HUmar and whose RAmar is player 1. *)
Theorem filterRecords_all_active_predicates :
  (∀ records playerRecords selectedPlayerIds selectedClasses
     metaVal countVal pbVal,
     filterRecords records playerRecords selectedPlayerIds selectedClasses
       metaVal countVal pbVal
     = filter (passes playerRecords selectedPlayerIds selectedClasses
                 metaVal countVal pbVal) records) ∧
  (∀ records playerRecords selectedPlayerIds selectedClasses
     metaVal countVal pbVal r,
     r ∈ filterRecords records playerRecords selectedPlayerIds
           selectedClasses metaVal countVal pbVal
     ↔ r ∈ records ∧
       passes playerRecords selectedPlayerIds selectedClasses
         metaVal countVal pbVal r) ∧
  (∀ records playerRecords,
     filterRecords records playerRecords ∅ ∅ "" "" "" = records) ∧
  filterRecords fixtureRecords fixturePlayerRecords
    (singleton "3") (singleton "ramar") "" "" "" = [fixtureDuo] ∧
  filterRecords fixtureRecords fixturePlayerRecords
    (singleton "1") (singleton "humar") "" "" "" = [fixtureDuo; fixtureDuoTie] ∧
  filterRecords fixtureRecords fixturePlayerRecords
    (singleton "1") (singleton "humar") "Ultima" "2p" "0" = [] ∧
  filterRecords fixtureRecords fixturePlayerRecords ∅ ∅ "" "" "0"
  = [fixtureSolo; fixtureEmpty].
Proof.
  assert (Hfilter : ∀ records playerRecords selectedPlayerIds selectedClasses
     metaVal countVal pbVal,
     filterRecords records playerRecords selectedPlayerIds selectedClasses
       metaVal countVal pbVal
     = filter (passes playerRecords selectedPlayerIds selectedClasses
                 metaVal countVal pbVal) records).
  { intros records prs selP selC metaVal countVal pbVal.
    unfold filterRecords. apply List_filter_stdpp. intros r.
    unfold passes, hasSelectedPlayer, hasSelectedClass.
    pose proof (allowedHas_spec selP
      (λ pr, bool_decide (pretty (pr_player_id pr) ∈ selP)) prs (r_id r)) as HP.
    pose proof (allowedHas_spec selC
      (λ pr, bool_decide (normalize (pr_pso_class pr) ∈ selC)) prs (r_id r)) as HC.
    setoid_rewrite bool_decide_eq_true in HP.
    setoid_rewrite bool_decide_eq_true in HC.
    rewrite <-HP, <-HC. clear HP HC.
    destruct (allowedHas _ _), (allowedHas _ _);
      destruct (String.eqb_spec metaVal ""),
               (String.eqb_spec (String_ (r_meta r)) metaVal),
               (String.eqb_spec countVal ""),
               (String.eqb_spec (String_ (r_category r)) countVal),
               (String.eqb_spec pbVal ""),
               (String.eqb_spec (bool_digit (r_pb r)) pbVal);
      cbn [negb andb]; intuition congruence. }
  split_and!; [| | |vm_compute; reflexivity..].
  - exact Hfilter.
  - intros. by rewrite Hfilter, list_elem_of_filter, (comm and).
  - intros records prs. rewrite Hfilter.
    induction records as [|r records IH]; [done|].
    rewrite filter_cons, IH. destruct decide as [|Hn]; [done|].
    exfalso. apply Hn. unfold passes. split_and!; by left.
Qed.

(** ** The claims on the fixture *)

Lemma fixtureRecords_unique_ids r r' :
  r ∈ fixtureRecords → r' ∈ fixtureRecords → r_id r = r_id r' → r = r'.
Proof.
  unfold fixtureRecords. rewrite !elem_of_cons, !elem_of_nil.
  intros [->|[->|[->|[->|[]]]]] [->|[->|[->|[->|[]]]]]; done.
Qed.

Lemma fixtureRows_ids : idsIdentifyRecords fixtureRows.
Proof.
  apply joinRows_idsIdentifyRecords. exact fixtureRecords_unique_ids.
Qed.

Lemma fixtureEmpty_no_participants pr :
  pr ∈ fixturePlayerRecords → pr_record_id pr ≠ r_id fixtureEmpty.
Proof.
  unfold fixturePlayerRecords. rewrite !elem_of_cons, !elem_of_nil.
  intros [->|[->|[->|[->|[->|[]]]]]]; done.
Qed.

(** C3 on the fixture: the run nobody is recorded for. *)
Lemma join_without_participants_witness :
  (∀ pr, pr ∈ fixturePlayerRecords → pr_record_id pr ≠ r_id fixtureEmpty) ∧
  rowsOf fixtureEmpty fixtureRows = [placeholderRow fixtureQuests fixtureEmpty].
Proof.
  split; [exact fixtureEmpty_no_participants|].
  destruct (join_without_participants fixtureQuests fixturePlayerRecords
              fixturePlayers fixtureEmpty fixtureEmpty_no_participants)
    as (_ & _ & Hone & _).
  apply Hone. reflexivity.
Defined.

(** C4 on the fixture: the second duo run has two participants, listed out
    of order in the data. *)
Lemma join_with_participants_witness :
  length (participants fixturePlayerRecords fixtureDuoTie) = 2%nat ∧
  (1 ≤ 2)%nat ∧
  map pr_id (prsForRecord fixturePlayerRecords fixtureDuoTie) = [11; 12] ∧
  length (map (participantRow fixtureQuests fixturePlayers fixtureDuoTie)
              (prsForRecord fixturePlayerRecords fixtureDuoTie)) = 2%nat.
Proof.
  split; [reflexivity|]. split; [lia|]. split; [reflexivity|].
  destruct (join_with_participants fixtureQuests fixturePlayerRecords
              fixturePlayers fixtureDuoTie 2 eq_refl (le_S 1 1 (le_n 1)))
    as (_ & _ & _ & _ & Hlen & _).
  exact Hlen.
Defined.


(** C5 on the fixture: the sorted rows of the fixture. *)
Lemma render_markers_and_first_rows_witness :
  Collation codeUnitCompare ∧
  StronglySorted (rowBefore codeUnitCompare)
    (sortRows codeUnitCompare fixtureRows) ∧
  idsIdentifyRecords (sortRows codeUnitCompare fixtureRows) ∧
  renderBody (sortRows codeUnitCompare fixtureRows)
  = describeBody [] (sortRows codeUnitCompare fixtureRows).
Proof.
  assert (Hs : StronglySorted (rowBefore codeUnitCompare)
                 (sortRows codeUnitCompare fixtureRows)).
  { apply sortRows_StronglySorted;
      [exact codeUnitCompare_collation|exact fixtureRows_ids]. }
  assert (Hids : idsIdentifyRecords (sortRows codeUnitCompare fixtureRows)).
  { apply (idsIdentifyRecords_Permutation fixtureRows);
      [symmetry; apply sortRows_Permutation|exact fixtureRows_ids]. }
  split; [exact codeUnitCompare_collation|].
  split; [exact Hs|]. split; [exact Hids|].
  exact (render_markers_and_first_rows codeUnitCompare
           codeUnitCompare_collation _ Hs Hids).
Defined.

(** C10 on the fixture: a limit of two. *)
Lemma limit_zero_means_no_limit_witness :
  1 ≤ 2 ∧
  selectRecords fixtureRecords (Some 2) = [fixtureDuo; fixtureDuoTie] ∧
  renderGroupedTable codeUnitCompare fixtureRecords fixtureQuests
    fixturePlayerRecords fixturePlayers (Some 0)
  = renderGroupedTable codeUnitCompare fixtureRecords fixtureQuests
      fixturePlayerRecords fixturePlayers None.
Proof.
  split; [lia|].
  destruct (limit_zero_means_no_limit codeUnitCompare fixtureRecords
              fixtureQuests fixturePlayerRecords fixturePlayers 2
              ltac:(lia))
    as (_ & Hzero & Htake & _).
  split; [exact Htake|exact Hzero].
Defined.

(** * Further theorems *)

(** ** The id index *)

Lemma buildIdMap_from {A} (id : A → Z) (items : list A) (k : Z) :
  ∀ m : gmap Z A,
    foldl (λ m it, <[id it := it]> m) m items !! k
    = match last (filter (λ it, id it = k) items) with
      | Some it => Some it
      | None => m !! k
      end.
Proof.
  induction items as [|it items IH]; intros m; [done|].
  cbn [foldl]. rewrite IH, filter_cons.
  destruct (decide (id it = k)) as [E|N].
  - destruct (filter _ items) as [|it' l] eqn:Hf.
    + cbn. by rewrite <-E, lookup_insert_eq.
    + rewrite last_cons_cons.
      destruct (last (it' :: l)) eqn:HL; [done|].
      by apply last_None in HL.
  - destruct (last _); [done|]. by rewrite lookup_insert_ne.
Qed.

(** X1. Looking an id up in the index gives the last item of the list that
    carries the id, and nothing when no item does. *)
Theorem buildIdMap_lookup {A} (id : A → Z) (items : list A) (k : Z) :
  buildIdMap id items !! k = last (filter (λ it, id it = k) items).
Proof.
  unfold buildIdMap. rewrite buildIdMap_from, lookup_empty.
  by destruct (last _).
Qed.

(** ** Normalization *)

Lemma lower_char_space (a : ascii) :
  Ascii.is_space (lower_char a) = Ascii.is_space a.
Proof. by destruct a as [[] [] [] [] [] [] [] []]. Qed.

Lemma lower_char_idemp (a : ascii) : lower_char (lower_char a) = lower_char a.
Proof. by destruct a as [[] [] [] [] [] [] [] []]. Qed.

Lemma toLowerCase_idemp (s : string) :
  toLowerCase (toLowerCase s) = toLowerCase s.
Proof.
  induction s as [|a s IH]; [done|]. cbn. by rewrite lower_char_idemp, IH.
Qed.

Lemma trimStart_toLowerCase (s : string) :
  trimStart (toLowerCase s) = toLowerCase (trimStart s).
Proof.
  induction s as [|a s IH]; [done|]. cbn.
  rewrite lower_char_space. by destruct (Ascii.is_space a).
Qed.

Lemma trimEnd_toLowerCase (s : string) :
  trimEnd (toLowerCase s) = toLowerCase (trimEnd s).
Proof.
  induction s as [|a s IH]; [done|]. cbn. rewrite IH.
  destruct (trimEnd s); cbn; [|done].
  rewrite lower_char_space. by destruct (Ascii.is_space a).
Qed.

Lemma trimStart_idemp (s : string) : trimStart (trimStart s) = trimStart s.
Proof.
  induction s as [|a s IH]; [done|]. cbn.
  destruct (Ascii.is_space a) eqn:E; [done|]. cbn. by rewrite E.
Qed.

Lemma trimEnd_idemp (s : string) : trimEnd (trimEnd s) = trimEnd s.
Proof.
  induction s as [|a s IH]; [done|]. cbn.
  destruct (trimEnd s) as [|b t] eqn:Ht.
  - destruct (Ascii.is_space a) eqn:E; [done|]. cbn. by rewrite E.
  - cbn [trimEnd] in *. by rewrite IH.
Qed.

Lemma trimStart_trimEnd (s : string) :
  trimStart (trimEnd s) = trimEnd (trimStart s).
Proof.
  induction s as [|a s IH]; [done|]. cbn.
  destruct (Ascii.is_space a) eqn:E.
  - rewrite <-IH. destruct (trimEnd s); cbn; [done|]. by rewrite E.
  - cbn. destruct (trimEnd s); cbn; by rewrite E.
Qed.

Lemma trim_idemp (s : string) : trim (trim s) = trim s.
Proof.
  unfold trim.
  by rewrite trimStart_trimEnd, trimStart_idemp, trimEnd_idemp.
Qed.

Lemma normalize_fixed (s : option string) :
  normalize (Some (normalize s)) = normalize s.
Proof.
  unfold normalize, trim. cbn [or_str].
  rewrite trimStart_toLowerCase, trimEnd_toLowerCase, toLowerCase_idemp.
  f_equal. apply trim_idemp.
Qed.

(** On ASCII text the result of every step is ASCII text again. *)
Lemma lower_char_ascii (a : ascii) :
  (nat_of_ascii a < 128)%nat → (nat_of_ascii (lower_char a) < 128)%nat.
Proof. destruct a as [[] [] [] [] [] [] [] []]; vm_compute; lia. Qed.

Lemma asciiText_toLowerCase (s : string) :
  asciiText s → asciiText (toLowerCase s).
Proof.
  unfold asciiText. induction s as [|a s IH]; [done|]. cbn.
  intros [Ha Hs]%Forall_cons. constructor; [by apply lower_char_ascii|auto].
Qed.

Lemma asciiText_trimStart (s : string) : asciiText s → asciiText (trimStart s).
Proof.
  unfold asciiText. induction s as [|a s IH]; [done|]. cbn.
  intros [Ha Hs]%Forall_cons. destruct (Ascii.is_space a); [auto|].
  by constructor.
Qed.

Lemma asciiText_trimEnd (s : string) : asciiText s → asciiText (trimEnd s).
Proof.
  unfold asciiText. induction s as [|a s IH]; [done|]. cbn.
  intros [Ha Hs]%Forall_cons. specialize (IH Hs).
  destruct (trimEnd s) as [|b t'].
  - destruct (Ascii.is_space a); cbn [chars].
    + apply Forall_nil_2.
    + apply Forall_cons_2; [done|apply Forall_nil_2].
  - cbn [chars]. by apply Forall_cons_2.
Qed.

Lemma asciiText_normalize (s : option string) :
  asciiText (or_str s "") → asciiText (normalize s).
Proof.
  intros Hs. unfold normalize, trim.
  by apply asciiText_toLowerCase, asciiText_trimEnd, asciiText_trimStart.
Qed.

(** X2. On ASCII text [normalize] is idempotent: the normalization of a
    text (or of a missing text) is ASCII text that is its own
    normalization; normalizing commutes with lowering the case, and a
    missing text normalizes like the empty one. *)
Theorem normalize_idempotent (s : option string)
    (Hascii : asciiText (or_str s "")) :
  asciiText (normalize s) ∧
  normalize (Some (normalize s)) = normalize s ∧
  normalize (Some (toLowerCase (or_str s ""))) = normalize s ∧
  normalize None = normalize (Some "").
Proof.
  split_and!; [by apply asciiText_normalize|apply normalize_fixed| |done].
  unfold normalize, trim. cbn [or_str].
  by rewrite trimStart_toLowerCase, trimEnd_toLowerCase, toLowerCase_idemp.
Qed.

(** X2 on a class name of the fixture. *)
Lemma normalize_idempotent_witness :
  asciiText "  HUmar " ∧
  normalize (Some "  HUmar ") = "humar" ∧
  normalize (Some (normalize (Some "  HUmar "))) = normalize (Some "  HUmar ").
Proof.
  assert (Hascii : asciiText (or_str (Some "  HUmar ") ""))
    by (unfold asciiText; cbn; repeat constructor; vm_compute; lia).
  split; [exact Hascii|]. split; [reflexivity|].
  exact (proj1 (proj2 (normalize_idempotent (Some "  HUmar ") Hascii))).
Defined.

(** ** Group keys without the delimiter *)

Lemma chars_inj (s t : string) : chars s = chars t → s = t.
Proof.
  revert t. induction s as [|a s IH]; intros [|b t]; cbn; try done.
  intros [= -> E]. f_equal. by apply IH.
Qed.

Lemma append_inv_tail (s1 s2 t : string) : s1 +:+ t = s2 +:+ t → s1 = s2.
Proof.
  intros E. apply chars_inj. apply (f_equal chars) in E.
  rewrite !chars_app in E. by apply app_inv_tail in E.
Qed.

Lemma split_at_char (c : ascii) (a a' r r' : string) :
  c ∉ chars a → c ∉ chars a' →
  a +:+ String c r = a' +:+ String c r' → a = a' ∧ r = r'.
Proof.
  revert a'.
  induction a as [|x a IH]; intros [|x' a'] Ha Ha'; rewrite ?append_cons; cbn.
  - by intros [= ->].
  - intros [= <- _]. exfalso. apply Ha'. cbn. by left.
  - intros [= -> _]. exfalso. apply Ha. cbn. by left.
  - intros [= -> E]. apply IH in E as [-> ->]; [done|..].
    + intros ?. apply Ha. cbn. by right.
    + intros ?. apply Ha'. cbn. by right.
Qed.

Lemma split_at_bar (a a' r r' : string) :
  barFree a → barFree a' →
  a +:+ String "|" r = a' +:+ String "|" r' → a = a' ∧ r = r'.
Proof. apply split_at_char. Qed.

Lemma pb_suffix_inv (c1 c2 : string) (b1 b2 : bool) :
  c1 +:+ "||" +:+ (if b1 then "PB" else "NoPB")
  = c2 +:+ "||" +:+ (if b2 then "PB" else "NoPB") →
  c1 = c2 ∧ b1 = b2.
Proof.
  intros E. assert (b1 = b2) as ->.
  { apply (f_equal chars) in E. rewrite !chars_app in E.
    apply (f_equal reverse) in E. rewrite !reverse_app in E.
    by destruct b1, b2. }
  split; [|done]. by apply append_inv_tail in E.
Qed.

(** X3. When neither the quest display name nor the meta text contains
    the character [|], two group keys are equal exactly when the four
    texts they are joined from are equal: the quest display name, the meta
    text, the category text and the PB flag.  The texts are the fields
    after [??] and [String(...)], and the fields themselves are determined
    no further: a record with no meta, the number 4 as category and no
    quest name has the key of a record with the empty meta, the string [4]
    as category and the quest name [(unknown quest)], with no [|] in any
    field. *)
Theorem groupKey_injective_without_bars (r1 r2 : Rec)
    (q1 q2 : option string)
    (Hq1 : barFree (keyQuest q1)) (Hq2 : barFree (keyQuest q2))
    (Hm1 : barFree (keyMeta r1)) (Hm2 : barFree (keyMeta r2)) :
  (groupKey r1 q1 = groupKey r2 q2 ↔
   keyQuest q1 = keyQuest q2 ∧ keyMeta r1 = keyMeta r2 ∧
   keyCategory r1 = keyCategory r2 ∧ r_pb r1 = r_pb r2) ∧
  (groupKey fixtureEmpty None
   = groupKey fixtureEmptyTwin (Some "(unknown quest)") ∧
   groupFields fixtureEmpty None
   ≠ groupFields fixtureEmptyTwin (Some "(unknown quest)") ∧
   barFree (keyQuest None) ∧ barFree (keyMeta fixtureEmpty) ∧
   barFree (keyCategory fixtureEmpty) ∧
   barFree (keyMeta fixtureEmptyTwin) ∧
   barFree (keyCategory fixtureEmptyTwin)).
Proof.
  split.
  - split.
    + intros Hkey. unfold groupKey in Hkey. cbn [join] in Hkey.
      fold (keyQuest q1) (keyQuest q2) (keyMeta r1) (keyMeta r2)
           (keyCategory r1) (keyCategory r2) in Hkey.
      change ("||" +:+ ?x) with (String "|" (String "|" x)) in Hkey.
      apply split_at_bar in Hkey as [Eq Hkey]; [|done..].
      injection Hkey as Hkey.
      apply split_at_bar in Hkey as [Em Hkey]; [|done..].
      injection Hkey as Hkey.
      apply (pb_suffix_inv (keyCategory r1) (keyCategory r2)) in Hkey
        as [Ec Eb].
      done.
    + intros (Eq & Em & Ec & Eb). unfold groupKey.
      fold (keyQuest q1) (keyQuest q2) (keyMeta r1) (keyMeta r2)
           (keyCategory r1) (keyCategory r2).
      by rewrite Eq, Em, Ec, Eb.
  - split; [reflexivity|]. split; [discriminate|].
    split_and!; unfold barFree; refine (bool_decide_unpack _ _);
      vm_compute; exact I.
Qed.

(** X3 on the fixture: the two duo runs share their group. *)
Lemma groupKey_injective_without_bars_witness :
  barFree (keyQuest (Some "Towards the Future")) ∧
  barFree (keyMeta fixtureDuo) ∧ barFree (keyMeta fixtureDuoTie) ∧
  groupKey fixtureDuo (Some "Towards the Future")
  = groupKey fixtureDuoTie (Some "Towards the Future") ∧
  keyCategory fixtureDuo = keyCategory fixtureDuoTie.
Proof.
  assert (Hq : barFree (keyQuest (Some "Towards the Future")))
    by (unfold barFree; refine (bool_decide_unpack _ _); vm_compute; exact I).
  assert (Hm1 : barFree (keyMeta fixtureDuo))
    by (unfold barFree; refine (bool_decide_unpack _ _); vm_compute; exact I).
  assert (Hm2 : barFree (keyMeta fixtureDuoTie))
    by (unfold barFree; refine (bool_decide_unpack _ _); vm_compute; exact I).
  split; [exact Hq|]. split; [exact Hm1|]. split; [exact Hm2|].
  split; [reflexivity|].
  exact (proj1 (proj2 (proj2
    (proj1 (proj1 (groupKey_injective_without_bars fixtureDuo fixtureDuoTie
                     _ _ Hq Hq Hm1 Hm2)) eq_refl)))).
Defined.

(** ** The join as a whole *)

Lemma rowsForRecord_records q prs p (R : Rec) :
  map row_record (rowsForRecord q prs p R) = replicate (rowCount prs R) R.
Proof.
  unfold rowsForRecord, rowCount.
  rewrite <-(prsForRecord_Permutation prs R).
  destruct (prsForRecord prs R) as [|pr l]; [done|].
  change (Nat.max 1 (length (pr :: l))) with (length (pr :: l)).
  induction (pr :: l) as [|pr' l' IH]; [done|]. cbn. by rewrite IH.
Qed.

Lemma rowsForRecord_wellJoined q prs p (R : Rec) row :
  row ∈ rowsForRecord q prs p R → wellJoined prs row.
Proof.
  unfold rowsForRecord, wellJoined.
  destruct (prsForRecord prs R) as [|pr l] eqn:E.
  - intros ->%list_elem_of_singleton. cbn. intros pr Hpr Hid.
    assert (pr ∈ participants prs R) as Hin
      by (unfold participants; by apply list_elem_of_filter).
    rewrite <-prsForRecord_Permutation, E in Hin.
    by apply elem_of_nil in Hin.
  - intros (pr' & -> & Hpr')%list_elem_of_fmap. cbn.
    rewrite <-E, prsForRecord_Permutation in Hpr'.
    unfold participants in Hpr'.
    by apply list_elem_of_filter in Hpr' as [? ?].
Qed.

(** X4. The join keeps the records in input order and gives each one as
    many rows as it has player-records, and one row when it has none; every
    row pairs its record with a player-record that points at it, and a
    placeholder row only appears for a record no player-record points at. *)
Theorem joinRows_shape (questById : gmap Z Quest)
    (playerRecords : list PlayerRecord) (playerById : gmap Z Player)
    (selected : list Rec) :
  map row_record (joinRows questById playerRecords playerById selected)
  = concat (map (λ R, replicate (rowCount playerRecords R) R) selected) ∧
  length (joinRows questById playerRecords playerById selected)
  = sum_list (map (rowCount playerRecords) selected) ∧
  (∀ row, row ∈ joinRows questById playerRecords playerById selected →
          wellJoined playerRecords row).
Proof.
  rewrite joinRows_concat. split_and!.
  - induction selected as [|R sel IH]; [done|].
    cbn [map concat]. by rewrite map_app, rowsForRecord_records, IH.
  - induction selected as [|R sel IH]; [done|].
    cbn [map concat sum_list sum_list_with]. rewrite length_app, IH.
    f_equal. rewrite <-(length_map row_record), rowsForRecord_records.
    by rewrite length_replicate.
  - intros row Hrow.
    apply list_elem_of_In, in_concat in Hrow as (rows & Hrows & Hrow).
    apply list_elem_of_In in Hrows, Hrow.
    apply list_elem_of_fmap in Hrows as (R & -> & _).
    by eapply rowsForRecord_wellJoined.
Qed.

(** ** Sorting what is sorted *)

Lemma StronglySorted_weaken {A} (R1 R2 : relation A) (l : list A) :
  (∀ x y, R1 x y → R2 x y) → StronglySorted R1 l → StronglySorted R2 l.
Proof.
  intros HR. induction 1 as [|x l Hs IH Hx]; constructor; [done|].
  eapply Forall_impl; [done|]. cbn. auto.
Qed.

(** X5. Rows that already stand in the order of the specification are
    returned by the sort as they are; hence sorting twice gives what sorting
    once gives. *)
Theorem sortRows_idempotent (localeCompare : string → string → Z)
    (Hcoll : Collation localeCompare) (rows : list JoinedRow)
    (Hids : idsIdentifyRecords rows) :
  (StronglySorted (rowBefore localeCompare) rows →
   sortRows localeCompare rows = rows) ∧
  sortRows localeCompare (sortRows localeCompare rows)
  = sortRows localeCompare rows.
Proof.
  assert (Hkeep : ∀ l, StronglySorted (rowBefore localeCompare) l →
                       sortRows localeCompare l = l).
  { intros l Hs. apply Array_sort_ordered.
    eapply StronglySorted_weaken; [|done].
    intros x y. by apply compareRows_rowBefore. }
  split; [apply Hkeep|].
  apply Hkeep. by apply sortRows_StronglySorted.
Qed.

(** X5 on the fixture. *)
Lemma sortRows_idempotent_witness :
  Collation codeUnitCompare ∧ idsIdentifyRecords fixtureRows ∧
  sortRows codeUnitCompare (sortRows codeUnitCompare fixtureRows)
  = sortRows codeUnitCompare fixtureRows.
Proof.
  split; [exact codeUnitCompare_collation|].
  split; [exact fixtureRows_ids|].
  exact (proj2 (sortRows_idempotent codeUnitCompare
                  codeUnitCompare_collation fixtureRows fixtureRows_ids)).
Defined.

(** ** The table body, whatever the order of the rows *)

Lemma renderBody_local rows : ∀ earlier st,
  stateAfter earlier st →
  tbodyRows (foldl renderStep st rows)
  = tbodyRows st ++ describeLocal earlier rows.
Proof.
  induction rows as [|row rows IH]; intros earlier st Hst.
  - cbn. by rewrite app_nil_r.
  - cbn [foldl describeLocal].
    destruct (renderStep_stateAfter earlier st row Hst) as [Hst' Hrows].
    rewrite (IH (earlier ++ [row])) by done.
    rewrite Hrows. by rewrite <-!app_assoc.
Qed.

Lemma dataRows_app (b1 b2 : list tr) :
  dataRows (b1 ++ b2) = dataRows b1 ++ dataRows b2.
Proof. apply omap_app. Qed.

Lemma labelRows_app (b1 b2 : list tr) :
  labelRows (b1 ++ b2) = labelRows b1 ++ labelRows b2.
Proof. apply omap_app. Qed.

Lemma dataRows_cons_data (d : DataRow) (b : list tr) :
  dataRows (DataTr d :: b) = d :: dataRows b.
Proof. reflexivity. Qed.

Lemma dataRows_marker (earlier : list JoinedRow) (row : JoinedRow) :
  dataRows (if groupChanges earlier row then groupMarker row else []) = [].
Proof. by destruct groupChanges. Qed.

Lemma describeLocal_columns rows : ∀ earlier,
  map (λ d, (Player_ d, Class_ d, POV d))
      (dataRows (describeLocal earlier rows))
  = map (λ row, (Str (row_playerName row), Str (row_cls row),
                 povHTML (row_pov row))) rows.
Proof.
  induction rows as [|row rows IH]; intros earlier; [done|].
  cbn [describeLocal].
  rewrite dataRows_app, dataRows_marker, dataRows_cons_data.
  cbn [app map]. rewrite IH. f_equal. by destruct startsRecord.
Qed.

(** X6. Whatever the order of the joined rows, the table body holds exactly
    one data row per joined row, in the same order, and each data row shows
    the player name, the class and the POV of its joined row: these three
    columns are never blanked and no row is dropped or repeated. *)
Theorem renderBody_one_data_row_each (joinedRows : list JoinedRow) :
  map (λ d, (Player_ d, Class_ d, POV d)) (dataRows (renderBody joinedRows))
  = map (λ row, (Str (row_playerName row), Str (row_cls row),
                 povHTML (row_pov row))) joinedRows ∧
  length (dataRows (renderBody joinedRows)) = length joinedRows.
Proof.
  assert (Hbody : renderBody joinedRows = describeLocal [] joinedRows).
  { unfold renderBody. by rewrite (renderBody_local joinedRows [] initRender). }
  assert (Hmap :
    map (λ d, (Player_ d, Class_ d, POV d)) (dataRows (renderBody joinedRows))
    = map (λ row, (Str (row_playerName row), Str (row_cls row),
                   povHTML (row_pov row))) joinedRows).
  { by rewrite Hbody, describeLocal_columns. }
  split; [exact Hmap|].
  apply (f_equal length) in Hmap. by rewrite !length_map in Hmap.
Qed.

(** ** The table body of the filtering page *)

Lemma renderStepF_stateAfter earlier st row :
  stateAfterF earlier st →
  stateAfterF (earlier ++ [row]) (renderStepF st row) ∧
  tbodyRowsF (renderStepF st row)
  = tbodyRowsF st ++
    (if groupChanges earlier row then [GroupDividerF]
     else if startsRecord earlier row then [EntryDividerF] else []) ++
    [DataTrF (if startsRecord earlier row then populatedRow row
              else blankedRow row)].
Proof.
  intros [Hg Hr]. unfold stateAfterF, renderStepF, groupChanges, startsRecord.
  rewrite last_snoc. cbv zeta.
  change (groupKey (row_record row) (row_questName row)) with (rowKey row).
  rewrite Hg.
  destruct (last earlier) as [prev|];
    cbn [fmap option_fmap option_map] in *.
  - destruct (decide (rowKey prev = rowKey row)) as [Ek|Nk].
    + rewrite (bool_decide_eq_false_2 (Some (rowKey row) ≠ _))
        by (rewrite Ek; auto).
      rewrite (bool_decide_eq_false_2 (rowKey prev ≠ _)) by auto.
      rewrite Hg, Hr.
      rewrite (bool_decide_eq_true_2 (Some _ ≠ None)) by done.
      destruct (decide (r_id (row_record prev) = r_id (row_record row)))
        as [Ei|Ni].
      * rewrite (bool_decide_eq_false_2 (Some _ ≠ _)) by (rewrite Ei; auto).
        rewrite (bool_decide_eq_true_2 (sameRecordInGroup _ _)) by done.
        cbn [lastGroupF lastRecordIdWithinGroupF tbodyRowsF negb andb app].
        by rewrite Ek, Ei.
      * rewrite (bool_decide_eq_true_2 (Some _ ≠ _)) by congruence.
        rewrite (bool_decide_eq_false_2 (sameRecordInGroup _ _))
          by (intros [_ ?]; done).
        cbn [lastGroupF lastRecordIdWithinGroupF tbodyRowsF negb andb app].
        rewrite Ek. split; [done|]. by rewrite <-app_assoc.
    + rewrite (bool_decide_eq_true_2 (Some (rowKey row) ≠ _)) by congruence.
      rewrite (bool_decide_eq_true_2 (rowKey prev ≠ _)) by done.
      rewrite (bool_decide_eq_false_2 (sameRecordInGroup _ _))
        by (intros [? _]; done).
      cbn [lastGroupF lastRecordIdWithinGroupF tbodyRowsF negb].
      rewrite (bool_decide_eq_true_2 (Some _ ≠ None)) by done.
      rewrite (bool_decide_eq_false_2 (None ≠ None)) by auto.
      cbn [andb]. split; [done|]. by rewrite <-app_assoc.
  - rewrite (bool_decide_eq_true_2 (Some (rowKey row) ≠ None)) by done.
    cbn [lastGroupF lastRecordIdWithinGroupF tbodyRowsF].
    rewrite (bool_decide_eq_true_2 (Some _ ≠ None)) by done.
    rewrite (bool_decide_eq_false_2 (None ≠ None)) by auto.
    cbn [andb]. split; [done|]. by rewrite <-app_assoc.
Qed.

Lemma renderBodyF_from rows : ∀ earlier st,
  stateAfterF earlier st →
  tbodyRowsF (foldl renderStepF st rows)
  = tbodyRowsF st ++ describeBodyF earlier rows.
Proof.
  induction rows as [|row rows IH]; intros earlier st Hst.
  - cbn. by rewrite app_nil_r.
  - cbn [foldl describeBodyF].
    destruct (renderStepF_stateAfter earlier st row Hst) as [Hst' Hrows].
    rewrite (IH (earlier ++ [row])) by done.
    rewrite Hrows. by rewrite <-!app_assoc.
Qed.

Lemma dataRowsF_app (b1 b2 : list trF) :
  dataRowsF (b1 ++ b2) = dataRowsF b1 ++ dataRowsF b2.
Proof. apply omap_app. Qed.

Lemma describeBodyF_dataRows rows : ∀ earlier,
  dataRowsF (describeBodyF earlier rows)
  = dataRows (describeLocal earlier rows).
Proof.
  induction rows as [|row rows IH]; intros earlier; [done|].
  cbn [describeBodyF describeLocal].
  rewrite dataRows_app, dataRows_marker, dataRows_cons_data.
  rewrite dataRowsF_app.
  assert (dataRowsF (if groupChanges earlier row then [GroupDividerF]
                     else if startsRecord earlier row then [EntryDividerF]
                     else []) = []) as ->
    by (by destruct groupChanges, startsRecord).
  cbn [app]. change (dataRowsF (DataTrF ?d :: ?b)) with (d :: dataRowsF b).
  by rewrite IH.
Qed.

(** X7. The filtering page draws, whatever the order of the rows, one
    group divider in front of a row whose group key differs from the
    previous row's, one thin divider in front of a row that starts another
    record of the same group, and nothing in front of the further rows of a
    record; its data rows are the data rows of [js/app.js], cell by cell. *)
Theorem renderBodyF_dividers (joinedRows : list JoinedRow) :
  renderBodyF joinedRows = describeBodyF [] joinedRows ∧
  dataRowsF (renderBodyF joinedRows) = dataRows (renderBody joinedRows).
Proof.
  assert (HF : renderBodyF joinedRows = describeBodyF [] joinedRows).
  { unfold renderBodyF. by rewrite (renderBodyF_from joinedRows []). }
  split; [exact HF|].
  rewrite HF, describeBodyF_dataRows. unfold renderBody.
  by rewrite (renderBody_local joinedRows [] initRender).
Qed.

(** ** The typeahead handlers *)

Lemma find_head_filter {A} (f : A → bool) (l : list A) :
  List.find f l = head (List.filter f l).
Proof.
  induction l as [|x l IH]; [done|]. cbn. by destruct (f x).
Qed.

Lemma offered_selectedKeys (selected : list string) (q : string) (it : Item) :
  offered (list_to_set selected) q it
  = negb (bool_decide (key it ∈ selected)) &&
    includes (normalize (Some (label it))) q.
Proof.
  unfold offered. f_equal. f_equal.
  apply bool_decide_ext, elem_of_list_to_set.
Qed.

Lemma suggestionMatches_take (items : list Item) (selectedSet : gset string)
    (query : string) :
  suggestionMatches items selectedSet query
  = if String.eqb (normalize (Some query)) "" then []
    else take 10 (List.filter (offered selectedSet (normalize (Some query)))
                    items).
Proof.
  unfold suggestionMatches. destruct (String.eqb _ ""); [done|].
  by rewrite suggestLoop_take by (cbn; lia).
Qed.

Lemma suggestionMatches_unselected (items : list Item)
    (selectedSet : gset string) (query : string) (it : Item) :
  it ∈ suggestionMatches items selectedSet query →
  it ∈ items ∧ key it ∉ selectedSet.
Proof.
  rewrite suggestionMatches_take. destruct (String.eqb _ "").
  { by intros ?%elem_of_nil. }
  intros Hit. apply (subseteq_take 10) in Hit.
  apply list_elem_of_In, filter_In in Hit as [Hin Hoff].
  apply list_elem_of_In in Hin. split; [done|].
  unfold offered in Hoff. apply andb_true_iff in Hoff as [Hsel _].
  by apply negb_true_iff, bool_decide_eq_false in Hsel.
Qed.

(** X8. Enter selects the first suggestion: when the current text has
    suggestions, the handler appends the key of the first one to the
    selection, clears the text and hides the box; when it has none (or the
    text is blank) the handler changes nothing.  The item chosen is not
    suggested again, whatever is typed next. *)
Theorem onEnter_first_suggestion (items : list Item) (st : Typeahead) :
  onEnter items st
  = match suggestionMatches items (selectedSetOf st) (inputValue st) with
    | [] => st
    | best :: _ =>
        {| inputValue := "";
           selectedKeys := selectedKeys st ++ [key best];
           box := {| hidden := true; innerHTML := "" |} |}
    end ∧
  (∀ best rest value it,
     suggestionMatches items (selectedSetOf st) (inputValue st) = best :: rest →
     it ∈ suggestionMatches items (selectedSetOf (onEnter items st)) value →
     key it ≠ key best).
Proof.
  assert (Hstep : onEnter items st
    = match suggestionMatches items (selectedSetOf st) (inputValue st) with
      | [] => st
      | best :: _ =>
          {| inputValue := "";
             selectedKeys := selectedKeys st ++ [key best];
             box := {| hidden := true; innerHTML := "" |} |}
      end).
  { unfold onEnter. rewrite suggestionMatches_take. cbv zeta.
    destruct (String.eqb _ ""); [done|].
    rewrite find_head_filter. unfold selectedSetOf.
    rewrite (filter_ext _ _ (offered_selectedKeys (selectedKeys st) _)).
    destruct (List.filter _ items) as [|best l] eqn:Hf; [done|].
    cbn [head take]. unfold addKey.
    assert (key best ∉ selectedKeys st) as Hsel.
    { assert (In best (List.filter
        (λ it, negb (bool_decide (key it ∈ selectedKeys st)) &&
               includes (normalize (Some (label it)))
                 (normalize (Some (inputValue st)))) items)) as Hin
        by (rewrite Hf; by left).
      apply filter_In in Hin as [_ Hoff].
      apply andb_true_iff in Hoff as [Hsel _].
      by apply negb_true_iff, bool_decide_eq_false in Hsel. }
    by rewrite bool_decide_eq_false_2. }
  split; [exact Hstep|].
  intros best rest value it Hms Hit Hkey.
  apply suggestionMatches_unselected in Hit as [_ Hnot].
  apply Hnot. rewrite Hstep, Hms. unfold selectedSetOf. cbn.
  rewrite elem_of_list_to_set, elem_of_app, list_elem_of_singleton.
  by right.
Qed.

Lemma join_empty_nonempty (x : string) (xs : list string) :
  x ≠ "" → join "" (x :: xs) ≠ "".
Proof.
  intros Hx. destruct x as [|a x]; [done|].
  by destruct xs.
Qed.

(** X9. After the text of the input changes, the suggestion box is hidden
    exactly when the new text has no suggestions, and otherwise shows the
    markup of the suggestions; the selection is untouched. *)
Theorem onInput_box (items : list Item) (value : string) (st : Typeahead) :
  (hidden (box (onInput items value st)) = true
   ↔ suggestionMatches items (selectedSetOf st) value = []) ∧
  innerHTML (box (onInput items value st))
  = join "" (map suggestionHtml
               (suggestionMatches items (selectedSetOf st) value)) ∧
  selectedKeys (onInput items value st) = selectedKeys st.
Proof.
  assert (Hbuild : buildSuggestionList items (selectedSetOf st) value
    = join "" (map suggestionHtml
                 (suggestionMatches items (selectedSetOf st) value))).
  { unfold buildSuggestionList, suggestionMatches.
    destruct (String.eqb _ ""); [done|]. by destruct (suggestLoop _ _ _ _). }
  unfold onInput. cbn [box selectedKeys]. rewrite Hbuild.
  destruct (suggestionMatches items (selectedSetOf st) value) as [|m ms].
  - by cbn.
  - assert (join "" (map suggestionHtml (m :: ms)) ≠ "") as Hne
      by (by apply join_empty_nonempty).
    unfold showSuggestions.
    destruct (String.eqb_spec (join "" (map suggestionHtml (m :: ms))) "");
      [done|].
    by cbn.
Qed.

(** X10. Selecting a key by a click on its suggestion and removing its chip
    again gives the selection back; a second click on the same suggestion
    changes nothing more; a selection without repetitions stays so; and
    Escape only hides the suggestions. *)
Theorem selection_add_delete (k : string) (st : Typeahead)
    (Hnew : k ∉ selectedKeys st) :
  selectedKeys (removeChip k (onSuggestionClick (Some k) st))
  = selectedKeys st ∧
  onSuggestionClick (Some k) (onSuggestionClick (Some k) st)
  = onSuggestionClick (Some k) st ∧
  k ∈ selectedKeys (onSuggestionClick (Some k) st) ∧
  (k ∉ selectedKeys (removeChip k (onSuggestionClick (Some k) st))) ∧
  (NoDup (selectedKeys st) →
   NoDup (selectedKeys (onSuggestionClick (Some k) st))) ∧
  selectedKeys (onSuggestionClick None st) = selectedKeys st ∧
  onEscape st
  = {| inputValue := inputValue st; selectedKeys := selectedKeys st;
       box := {| hidden := true; innerHTML := "" |} |}.
Proof.
  assert (Hdel : setDelete (selectedKeys st ++ [k]) k = selectedKeys st).
  { unfold setDelete. rewrite filter_app, filter_cons, filter_nil.
    destruct (decide (k ≠ k)) as [|_]; [done|]. rewrite app_nil_r.
    induction (selectedKeys st) as [|x l IH]; [done|].
    apply not_elem_of_cons in Hnew as [Hx Hl].
    rewrite filter_cons, IH by done.
    by destruct (decide (x ≠ k)). }
  unfold removeChip, onSuggestionClick, onEscape, addKey.
  cbn [selectedKeys inputValue box].
  rewrite (bool_decide_eq_false_2 (k ∈ selectedKeys st)) by done.
  split_and!; [exact Hdel| | | |intros Hnd|done..].
  - rewrite bool_decide_eq_true_2; [done|].
    rewrite elem_of_app, list_elem_of_singleton. by right.
  - rewrite elem_of_app, list_elem_of_singleton. by right.
  - by rewrite Hdel.
  - apply NoDup_app. split_and!; [done| |apply NoDup_singleton].
    intros x Hx ->%list_elem_of_singleton. done.
Qed.

(** X10 on a selection of one key. *)
Lemma selection_add_delete_witness :
  ("2" ∉ ["1"]) ∧
  selectedKeys
    (removeChip "2"
       (onSuggestionClick (Some "2")
          {| inputValue := "al"; selectedKeys := ["1"];
             box := showSuggestions "" |}))
  = ["1"].
Proof.
  assert (H : "2" ∉ ["1"])
    by (refine (bool_decide_unpack _ _); vm_compute; exact I).
  split; [exact H|].
  exact (proj1 (selection_add_delete "2"
    {| inputValue := "al"; selectedKeys := ["1"];
       box := showSuggestions "" |} H)).
Defined.

(** ** The player-only filters *)

Lemma filterRecords_passes (records : list Rec)
    (playerRecords : list PlayerRecord)
    (selectedPlayerIds selectedClasses : gset string)
    (metaVal countVal pbVal : string) :
  filterRecords records playerRecords selectedPlayerIds selectedClasses
    metaVal countVal pbVal
  = filter (passes playerRecords selectedPlayerIds selectedClasses
              metaVal countVal pbVal) records.
Proof.
  unfold filterRecords. apply List_filter_stdpp. intros r.
  unfold passes, hasSelectedPlayer, hasSelectedClass.
  pose proof (allowedHas_spec selectedPlayerIds
    (λ pr, bool_decide (pretty (pr_player_id pr) ∈ selectedPlayerIds))
    playerRecords (r_id r)) as HP.
  pose proof (allowedHas_spec selectedClasses
    (λ pr, bool_decide (normalize (pr_pso_class pr) ∈ selectedClasses))
    playerRecords (r_id r)) as HC.
  setoid_rewrite bool_decide_eq_true in HP.
  setoid_rewrite bool_decide_eq_true in HC.
  rewrite <-HP, <-HC. clear HP HC.
  destruct (allowedHas _ _), (allowedHas _ _);
    destruct (String.eqb_spec metaVal ""),
             (String.eqb_spec (String_ (r_meta r)) metaVal),
             (String.eqb_spec countVal ""),
             (String.eqb_spec (String_ (r_category r)) countVal),
             (String.eqb_spec pbVal ""),
             (String.eqb_spec (bool_digit (r_pb r)) pbVal);
    cbn [negb andb]; intuition congruence.
Qed.

Lemma filter_iff_ext {A} (P Q : A → Prop) `{!∀ x, Decision (P x)}
    `{!∀ x, Decision (Q x)} (l : list A) :
  (∀ x, P x ↔ Q x) → filter P l = filter Q l.
Proof.
  intros HPQ. induction l as [|x l IH]; [done|].
  rewrite !filter_cons, IH.
  destruct (decide (P x)) as [HP|HP], (decide (Q x)) as [HQ|HQ]; try done.
  - by apply HPQ in HP.
  - by apply HPQ in HQ.
Qed.

Lemma filterRecordsByPlayersAny_filter (records : list Rec)
    (playerRecords : list PlayerRecord) (selectedPlayerIds : gset Z) :
  filterRecordsByPlayersAny records playerRecords selectedPlayerIds
  = filter (λ r, selectedPlayerIds = ∅ ∨
                 hasPlayerIn playerRecords selectedPlayerIds r) records.
Proof.
  unfold filterRecordsByPlayersAny, hasPlayerIn.
  destruct (size selectedPlayerIds =? 0)%nat eqn:E.
  - assert (selectedPlayerIds = ∅) as Hempty
      by (by apply leibniz_equiv, size_empty_iff, Nat.eqb_eq).
    symmetry. induction records as [|r l IH]; [done|].
    rewrite filter_cons, IH. destruct decide as [|Hn]; [done|].
    exfalso. apply Hn. by left.
  - apply List_filter_stdpp. intros r.
    rewrite bool_decide_eq_true.
    change (foldl _ ∅ playerRecords) with
      (collectRecordIds
         (λ pr, bool_decide (pr_player_id pr ∈ selectedPlayerIds))
         playerRecords).
    rewrite collectRecordIds_spec.
    setoid_rewrite bool_decide_eq_true.
    split; [by right|]. intros [->|?]; [|done].
    by rewrite size_empty in E.
Qed.

(** X11. [filterRecordsByPlayersAny] keeps every record when no player is
    selected, and otherwise exactly the records with at least one
    player-record of a selected player; it is [filterRecords] for the same
    players, written as strings, with no other predicate active. *)
Theorem filterRecordsByPlayersAny_filterRecords (records : list Rec)
    (playerRecords : list PlayerRecord) (selectedPlayerIds : gset Z) :
  filterRecordsByPlayersAny records playerRecords ∅ = records ∧
  filterRecordsByPlayersAny records playerRecords selectedPlayerIds
  = filter (λ r, selectedPlayerIds = ∅ ∨
                 hasPlayerIn playerRecords selectedPlayerIds r) records ∧
  filterRecordsByPlayersAny records playerRecords selectedPlayerIds
  = filterRecords records playerRecords
      (set_map pretty selectedPlayerIds) ∅ "" "" "".
Proof.
  split_and!; [done|apply filterRecordsByPlayersAny_filter|].
  rewrite filterRecordsByPlayersAny_filter, filterRecords_passes.
  apply filter_iff_ext. intros r.
  unfold passes, hasSelectedPlayer, hasPlayerIn.
  assert (set_map pretty selectedPlayerIds = (∅ : gset string)
          ↔ selectedPlayerIds = ∅) as Hempty.
  { split; [|by intros ->].
    intros Hm. apply set_eq. intros x. split; [|by intros ?%elem_of_empty].
    intros Hx. assert (pretty x ∈ (∅ : gset string)) as H
      by (rewrite <-Hm; apply elem_of_map; eauto).
    by apply elem_of_empty in H. }
  assert (∀ z : Z, pretty z ∈ (set_map pretty selectedPlayerIds : gset string)
                   ↔ z ∈ selectedPlayerIds) as Hmem.
  { intros z. rewrite elem_of_map. split; [|eauto].
    by intros (z' & ->%(inj pretty) & ?). }
  rewrite Hempty. setoid_rewrite Hmem. tauto.
Qed.

(** ** Decimal notation *)

Lemma pretty_N_go_nonempty (x : N) (s : string) :
  s ≠ "" → pretty_N_go x s ≠ "".
Proof.
  revert s. induction (N.lt_wf_0 x) as [x _ IH]; intros s Hs.
  destruct (decide (x = 0)%N) as [->|Hx]; [by rewrite pretty_N_go_0|].
  rewrite pretty_N_go_step by lia.
  apply IH; [apply N.div_lt; lia|done].
Qed.

Lemma pretty_pos_nonempty (p : positive) : pretty_N_go (N.pos p) "" ≠ "".
Proof.
  rewrite pretty_N_go_step by lia. by apply pretty_N_go_nonempty.
Qed.

Lemma pretty_Z_nonempty (z : Z) : pretty z ≠ "".
Proof.
  destruct z as [|p|p]; [done|..].
  - apply pretty_pos_nonempty.
  - done.
Qed.

Lemma is_nat_pretty_char (n : N) :
  (n < 10)%N → Ascii.is_nat (pretty_N_char n) = Some (N.to_nat n).
Proof.
  intros Hn.
  assert (n = 0 ∨ n = 1 ∨ n = 2 ∨ n = 3 ∨ n = 4 ∨ n = 5 ∨ n = 6 ∨ n = 7
          ∨ n = 8 ∨ n = 9)%N as H by lia.
  destruct H as [->|[->|[->|[->|[->|[->|[->|[->|[->| ->]]]]]]]]]; done.
Qed.

Lemma parseDigits_pretty_go (x : N) : ∀ s, ∃ k : N, ∀ acc,
  parseDigits acc (pretty_N_go x s) = parseDigits (acc * k + x) s.
Proof.
  induction (N.lt_wf_0 x) as [x _ IH]; intros s.
  destruct (decide (x = 0)%N) as [->|Hx].
  - exists 1%N. intros acc. rewrite pretty_N_go_0. f_equal. lia.
  - rewrite pretty_N_go_step by lia.
    destruct (IH (x `div` 10)%N ltac:(apply N.div_lt; lia)
                 (String (pretty_N_char (x `mod` 10)) s)) as [k Hk].
    exists (k * 10)%N. intros acc. rewrite Hk. cbn [parseDigits].
    rewrite is_nat_pretty_char by (apply N.mod_lt; lia).
    f_equal. rewrite N2Nat.id.
    pose proof (N.div_mod x 10 ltac:(lia)). lia.
Qed.

Lemma parseDigits_pretty_pos (p : positive) :
  parseDigits 0 (pretty_N_go (N.pos p) "") = Some (N.pos p).
Proof.
  destruct (parseDigits_pretty_go (N.pos p) "") as [k Hk].
  rewrite Hk. cbn [parseDigits]. f_equal; lia.
Qed.

Lemma parseDecimal_pretty (z : Z) : parseDecimal (pretty z) = Int z.
Proof.
  destruct z as [|p|p]; [done|..].
  - change (pretty (Z.pos p)) with (pretty_N_go (N.pos p) "").
    pose proof (pretty_pos_nonempty p) as Hne.
    pose proof (pretty_N_go_ne_dash (N.pos p) "") as Hdash.
    pose proof (parseDigits_pretty_pos p) as Hparse.
    destruct (pretty_N_go (N.pos p) "") as [|c s]; [done|].
    unfold parseDecimal. destruct (Ascii.eqb_spec c "-") as [->|_].
    + exfalso. by apply (Hdash s).
    + by rewrite Hparse.
  - change (pretty (Z.neg p)) with (String "-" (pretty_N_go (N.pos p) "")).
    pose proof (pretty_pos_nonempty p) as Hne.
    pose proof (parseDigits_pretty_pos p) as Hparse.
    unfold parseDecimal. cbn [Ascii.eqb Bool.eqb].
    destruct (pretty_N_go (N.pos p) "") as [|c s]; [done|].
    by rewrite Hparse.
Qed.

(** ** The drop-down filter of [js/app.js] *)

Section ByPlayerFacts.
Variable Number_ : string → number.
Hypothesis Number_pretty : ∀ z : Z, Number_ (pretty z) = Int z.

Lemma filterRecordsByPlayer_pretty (records : list Rec)
    (playerRecords : list PlayerRecord) (pid : Z) :
  filterRecordsByPlayer Number_ records playerRecords (pretty pid)
  = filterRecordsByPlayersAny records playerRecords {[pid]}.
Proof.
  rewrite filterRecordsByPlayersAny_filter.
  unfold filterRecordsByPlayer.
  destruct (String.eqb_spec (pretty pid) "") as [E|_].
  { by apply pretty_Z_nonempty in E. }
  rewrite Number_pretty. apply List_filter_stdpp. intros r.
  rewrite bool_decide_eq_true, elem_of_list_to_set, list_elem_of_fmap.
  unfold hasPlayerIn. rewrite Exists_exists. split.
  - intros (pr & -> & Hpr). right. exists pr.
    apply list_elem_of_In, filter_In in Hpr as [Hin Heq].
    apply list_elem_of_In in Hin. cbn in Heq. apply Z.eqb_eq in Heq.
    split; [done|]. split; [done|]. by apply elem_of_singleton.
  - intros [Hempty|(pr & Hin & Hid & Hsel)].
    + exfalso. assert (pid ∈ (∅ : gset Z)) as H
        by (rewrite <-Hempty; by apply elem_of_singleton).
      by apply elem_of_empty in H.
    + exists pr. split; [done|].
      apply list_elem_of_In, filter_In. split; [by apply list_elem_of_In|].
      cbn. apply Z.eqb_eq. by apply elem_of_singleton in Hsel.
Qed.
End ByPlayerFacts.

(** X12. In [js/app.js], the empty drop-down value keeps every record; the
    value of a player's option, the decimal notation of the player's id,
    keeps exactly the records with a player-record of that player, as
    [filterRecordsByPlayersAny] does for that one player; a value that is
    not a number keeps no record. *)
Theorem filterRecordsByPlayer_option (Number_ : string → number)
    (Number_pretty : ∀ z : Z, Number_ (pretty z) = Int z)
    (records : list Rec) (playerRecords : list PlayerRecord) :
  filterRecordsByPlayer Number_ records playerRecords "" = records ∧
  (∀ pid : Z,
     filterRecordsByPlayer Number_ records playerRecords (pretty pid)
     = filterRecordsByPlayersAny records playerRecords {[pid]}) ∧
  (∀ pid : Z,
     filterRecordsByPlayer Number_ records playerRecords (pretty pid)
     = filter (hasPlayerIn playerRecords {[pid]}) records) ∧
  (∀ playerId : string, playerId ≠ "" → Number_ playerId = NaN →
     filterRecordsByPlayer Number_ records playerRecords playerId = []).
Proof.
  split_and!; [done|..].
  - intros pid. by apply filterRecordsByPlayer_pretty.
  - intros pid. rewrite filterRecordsByPlayer_pretty by done.
    rewrite filterRecordsByPlayersAny_filter. apply filter_iff_ext.
    intros r. split; [|by right]. intros [Hempty|?]; [|done].
    exfalso. assert (pid ∈ (∅ : gset Z)) as H
      by (rewrite <-Hempty; by apply elem_of_singleton).
    by apply elem_of_empty in H.
  - intros playerId Hne Hnan. unfold filterRecordsByPlayer.
    destruct (String.eqb_spec playerId ""); [done|].
    rewrite Hnan. cbn.
    assert (List.filter (λ _ : PlayerRecord, false) playerRecords = [])
      as -> by (by induction playerRecords).
    cbn. by induction records.
Qed.

(** X12 with the decimal parser as [Number] and the fixture: player 3
    took part in the first duo run only. *)
Lemma filterRecordsByPlayer_option_witness :
  (∀ z : Z, parseDecimal (pretty z) = Int z) ∧
  filterRecordsByPlayer parseDecimal fixtureRecords fixturePlayerRecords "3"
  = filterRecordsByPlayersAny fixtureRecords fixturePlayerRecords {[3]}.
Proof.
  split; [exact parseDecimal_pretty|].
  exact (proj1 (proj2 (filterRecordsByPlayer_option parseDecimal
    parseDecimal_pretty fixtureRecords fixturePlayerRecords)) 3).
Defined.

(** ** Filters compose *)

Lemma filter_sublist_impl {A} (P Q : A → Prop) `{!∀ x, Decision (P x)}
    `{!∀ x, Decision (Q x)} (l : list A) :
  (∀ x, P x → Q x) → filter P l `sublist_of` filter Q l.
Proof.
  intros HPQ. induction l as [|x l IH]; [done|].
  rewrite !filter_cons.
  destruct (decide (P x)) as [HP|HP], (decide (Q x)) as [HQ|HQ].
  - by apply sublist_skip.
  - by apply HPQ in HP.
  - by apply sublist_cons.
  - done.
Qed.

(** X13. The predicates of [filterRecords] combine by conjunction: filtering
    by the players first and by everything else afterwards is filtering by
    all at once, filtering twice by the same state is filtering once, the
    result is a sublist of the input (no record is added, repeated or
    reordered), and with a player already selected, selecting further
    players only adds records. *)
Theorem filterRecords_compose (records : list Rec)
    (playerRecords : list PlayerRecord)
    (selectedPlayerIds selectedClasses : gset string)
    (metaVal countVal pbVal : string) :
  filterRecords
    (filterRecords records playerRecords selectedPlayerIds ∅ "" "" "")
    playerRecords ∅ selectedClasses metaVal countVal pbVal
  = filterRecords records playerRecords selectedPlayerIds selectedClasses
      metaVal countVal pbVal ∧
  filterRecords
    (filterRecords records playerRecords selectedPlayerIds selectedClasses
       metaVal countVal pbVal)
    playerRecords selectedPlayerIds selectedClasses metaVal countVal pbVal
  = filterRecords records playerRecords selectedPlayerIds selectedClasses
      metaVal countVal pbVal ∧
  filterRecords records playerRecords selectedPlayerIds selectedClasses
    metaVal countVal pbVal `sublist_of` records ∧
  (∀ morePlayerIds : gset string,
     selectedPlayerIds ≠ ∅ → selectedPlayerIds ⊆ morePlayerIds →
     filterRecords records playerRecords selectedPlayerIds selectedClasses
       metaVal countVal pbVal
     `sublist_of`
     filterRecords records playerRecords morePlayerIds selectedClasses
       metaVal countVal pbVal).
Proof.
  rewrite !filterRecords_passes. split_and!.
  - rewrite list_filter_filter. apply filter_iff_ext. intros r.
    unfold passes. intuition.
  - rewrite list_filter_filter. apply filter_iff_ext. intros r. tauto.
  - apply sublist_filter.
  - intros more Hne Hsub. rewrite filterRecords_passes.
    apply filter_sublist_impl. intros r. unfold passes, hasSelectedPlayer.
    intros (Hm & Hc & Hpb & [Hempty|Hp] & Hcl); [done|].
    split_and!; try done. right.
    eapply Exists_impl; [done|]. cbn. intros pr [? ?]. split; [done|].
    by apply Hsub.
Qed.

(** ** Sets in insertion order *)

Section OrderedSetFacts.
Context {A : Type} `{EqDecision A}.

Lemma elem_of_setAdd (s : list A) (k x : A) :
  x ∈ setAdd s k ↔ x ∈ s ∨ x = k.
Proof.
  unfold setAdd. case_bool_decide as Hk.
  - split; [by left|]. by intros [?| ->].
  - by rewrite elem_of_app, list_elem_of_singleton.
Qed.

Lemma NoDup_setAdd (s : list A) (k : A) : NoDup s → NoDup (setAdd s k).
Proof.
  intros Hs. unfold setAdd. case_bool_decide as Hk; [done|].
  apply NoDup_app. split_and!; [done| |apply NoDup_singleton].
  by intros x Hx ->%list_elem_of_singleton.
Qed.

Lemma newSet_from (l : list A) : ∀ s,
  NoDup s →
  NoDup (foldl setAdd s l) ∧ ∀ x, x ∈ foldl setAdd s l ↔ x ∈ s ∨ x ∈ l.
Proof.
  induction l as [|k l IH]; intros s Hs; cbn [foldl].
  - split; [done|]. intros x. rewrite elem_of_nil. tauto.
  - destruct (IH (setAdd s k) (NoDup_setAdd s k Hs)) as [Hnd Hin].
    split; [done|]. intros x.
    rewrite Hin, elem_of_setAdd, elem_of_cons. tauto.
Qed.

Lemma NoDup_newSet (l : list A) : NoDup (newSet l).
Proof. apply (newSet_from l []). constructor. Qed.

Lemma elem_of_newSet (l : list A) (x : A) : x ∈ newSet l ↔ x ∈ l.
Proof.
  unfold newSet. destruct (newSet_from l [] (NoDup_nil_2)) as [_ Hin].
  rewrite Hin, elem_of_nil. tauto.
Qed.
End OrderedSetFacts.

(** ** The options of the meta and category drop-downs *)

Lemma isOption_String (v : value) : isOption v = true → String_ v ≠ "".
Proof.
  destruct v as [| |s|z]; cbn; try done.
  - by intros ?%negb_true_iff%String.eqb_neq.
  - intros _. apply pretty_Z_nonempty.
Qed.

Lemma fillSelect_elem_of lc (values : list value) (o : string) :
  o ∈ fillSelect lc values ↔ ∃ v, v ∈ values ∧ String_ v = o.
Proof.
  unfold fillSelect. rewrite list_elem_of_fmap.
  setoid_rewrite Array_sort_Permutation.
  split; intros (v & ? & ?); eauto.
Qed.

Lemma options_elem_of (f : Rec → value) (records : list Rec) (v : value) :
  v ∈ newSet (List.filter isOption (map f records))
  ↔ ∃ r, r ∈ records ∧ f r = v ∧ isOption v = true.
Proof.
  rewrite elem_of_newSet, list_elem_of_In, filter_In, <-list_elem_of_In.
  rewrite list_elem_of_fmap.
  split; [intros [(r & -> & ?) ?]|intros (r & ? & <- & ?)]; eauto.
Qed.

(** X14. The meta drop-down offers exactly the meta values of the records
    that are neither missing nor empty, as strings; every option is a
    non-empty string, and choosing it, with nothing else selected, keeps
    exactly the records with that meta value, of which there is at least
    one.  The same holds for the category drop-down. *)
Theorem options_never_empty_handed (localeCompare : string → string → Z)
    (records : list Rec) (playerRecords : list PlayerRecord) :
  (∀ o, o ∈ fillSelect localeCompare (metas records)
        ↔ ∃ r, r ∈ records ∧ isOption (r_meta r) = true ∧
               String_ (r_meta r) = o) ∧
  (∀ o, o ∈ fillSelect localeCompare (metas records) →
        o ≠ "" ∧
        filterRecords records playerRecords ∅ ∅ o "" ""
        = filter (λ r, String_ (r_meta r) = o) records ∧
        filterRecords records playerRecords ∅ ∅ o "" "" ≠ []) ∧
  (∀ o, o ∈ fillSelect localeCompare (counts records)
        ↔ ∃ r, r ∈ records ∧ isOption (r_category r) = true ∧
               String_ (r_category r) = o) ∧
  (∀ o, o ∈ fillSelect localeCompare (counts records) →
        o ≠ "" ∧
        filterRecords records playerRecords ∅ ∅ "" o ""
        = filter (λ r, String_ (r_category r) = o) records ∧
        filterRecords records playerRecords ∅ ∅ "" o "" ≠ []) ∧
  NoDup (metas records) ∧ NoDup (counts records).
Proof.
  assert (Hm : ∀ o, o ∈ fillSelect localeCompare (metas records)
        ↔ ∃ r, r ∈ records ∧ isOption (r_meta r) = true ∧
               String_ (r_meta r) = o).
  { intros o. rewrite fillSelect_elem_of. unfold metas.
    setoid_rewrite options_elem_of.
    split; [intros (v & (r & ? & <- & ?) & <-)|intros (r & ? & ? & <-)];
      eauto 10. }
  assert (Hc : ∀ o, o ∈ fillSelect localeCompare (counts records)
        ↔ ∃ r, r ∈ records ∧ isOption (r_category r) = true ∧
               String_ (r_category r) = o).
  { intros o. rewrite fillSelect_elem_of. unfold counts.
    setoid_rewrite options_elem_of.
    split; [intros (v & (r & ? & <- & ?) & <-)|intros (r & ? & ? & <-)];
      eauto 10. }
  split_and!; [exact Hm| |exact Hc| |apply NoDup_newSet..].
  - intros o (r & Hr & Hopt & <-)%Hm.
    pose proof (isOption_String _ Hopt) as Hne.
    assert (filterRecords records playerRecords ∅ ∅
              (String_ (r_meta r)) "" ""
            = filter (λ r', String_ (r_meta r') = String_ (r_meta r)) records)
      as Hf.
    { rewrite filterRecords_passes. apply filter_iff_ext. intros r'.
      unfold passes.
      split; [by intros ([?|?] & [?|?] & _)|intros ?; split_and!; auto]. }
    split_and!; [done..|].
    rewrite Hf. intros Hnil.
    assert (r ∈ filter (λ r', String_ (r_meta r') = String_ (r_meta r))
                  records) as Hin by (by apply list_elem_of_filter).
    rewrite Hnil in Hin. by apply elem_of_nil in Hin.
  - intros o (r & Hr & Hopt & <-)%Hc.
    pose proof (isOption_String _ Hopt) as Hne.
    assert (filterRecords records playerRecords ∅ ∅
              "" (String_ (r_category r)) ""
            = filter (λ r', String_ (r_category r') = String_ (r_category r))
                records) as Hf.
    { rewrite filterRecords_passes. apply filter_iff_ext. intros r'.
      unfold passes.
      split; [by intros ([?|?] & [?|?] & _)|intros ?; split_and!; auto]. }
    split_and!; [done..|].
    rewrite Hf. intros Hnil.
    assert (r ∈ filter (λ r', String_ (r_category r')
                              = String_ (r_category r)) records) as Hin
      by (by apply list_elem_of_filter).
    rewrite Hnil in Hin. by apply elem_of_nil in Hin.
Qed.

(** ** The typeahead items *)

Lemma sort_by_label_sorted (lc : string → string → Z) `{!Collation lc}
    (items : list Item) :
  labelSorted lc (Array_sort (λ a b, lc (label a) (label b)) items).
Proof.
  apply (Array_sort_StronglySorted _ _ (λ _, True)).
  - done.
  - intros x y _ _. apply collation_total, _.
  - intros x y z _ _ _. by apply collation_le_trans.
  - by apply Forall_forall.
Qed.

Lemma classSet_from (prs : list PlayerRecord) : ∀ s,
  NoDup s →
  NoDup (foldl (λ s pr,
                  let c := normalize (pr_pso_class pr) in
                  if String.eqb c "" then s else setAdd s c) s prs) ∧
  ∀ x, x ∈ foldl (λ s pr,
                    let c := normalize (pr_pso_class pr) in
                    if String.eqb c "" then s else setAdd s c) s prs
       ↔ x ∈ s ∨ (x ≠ "" ∧ ∃ pr, pr ∈ prs ∧ normalize (pr_pso_class pr) = x).
Proof.
  induction prs as [|pr prs IH]; intros s Hs; cbn [foldl].
  - split; [done|]. intros x. split; [by left|].
    intros [?|(_ & pr & []%elem_of_nil & _)]; done.
  - cbv zeta. destruct (String.eqb_spec (normalize (pr_pso_class pr)) "")
      as [E|N].
    + destruct (IH s Hs) as [Hnd Hin]. split; [done|]. intros x.
      rewrite Hin. split; intros [?|(Hx & pr' & Hpr' & Hn)]; auto.
      * right. split; [done|]. exists pr'. split; [by right|done].
      * apply elem_of_cons in Hpr' as [->|Hpr'].
        -- congruence.
        -- right. eauto.
    + destruct (IH (setAdd s (normalize (pr_pso_class pr)))
                   (NoDup_setAdd s _ Hs)) as [Hnd Hin]. split; [done|].
      intros x. rewrite Hin, elem_of_setAdd.
      split; [intros [[?| ->]|(Hx & pr' & Hpr' & Hn)]
             |intros [?|(Hx & pr' & Hpr' & Hn)]]; auto.
      * right. split; [done|]. exists pr. split; [by left|done].
      * right. split; [done|]. exists pr'. split; [by right|done].
      * apply elem_of_cons in Hpr' as [->|Hpr'].
        -- left. by right.
        -- right. eauto.
Qed.

Lemma classSet_spec (prs : list PlayerRecord) :
  NoDup (classSet prs) ∧
  ∀ x, x ∈ classSet prs
       ↔ x ≠ "" ∧ ∃ pr, pr ∈ prs ∧ normalize (pr_pso_class pr) = x.
Proof.
  destruct (classSet_from prs [] (NoDup_nil_2)) as [Hnd Hin].
  split; [done|]. intros x. unfold classSet. rewrite Hin, elem_of_nil. tauto.
Qed.

Lemma classItems_keys lc (prs : list PlayerRecord) :
  map key (classItems lc prs) ≡ₚ classSet prs.
Proof.
  unfold classItems. rewrite Array_sort_Permutation, map_map. cbn.
  by rewrite map_id.
Qed.

Lemma sort_by_label_consistent (lc : string → string → Z)
    `{!ConsistentComparator lc} (items : list Item) :
  labelSorted lc (Array_sort (λ a b, lc (label a) (label b)) items).
Proof.
  apply (Array_sort_StronglySorted _ _ (λ _, True)).
  - done.
  - intros x y _ _. apply comparator_total, _.
  - intros x y z _ _ _. apply comparator_trans.
  - by apply Forall_forall.
Qed.

(** X15. [localeCompare] being a consistent comparator, the class
    typeahead offers each non-empty normalized class of the player-records
    exactly once, as key and label alike, in ascending order of the labels;
    when the classes of the data are ASCII text, each key is ASCII text and
    already normalized; and selecting the class of a participant of a
    listed record keeps that record. *)
Theorem classItems_offered (localeCompare : string → string → Z)
    (Hcmp : ConsistentComparator localeCompare)
    (playerRecords : list PlayerRecord) :
  (∀ k, k ∈ map key (classItems localeCompare playerRecords)
        ↔ k ≠ "" ∧
          ∃ pr, pr ∈ playerRecords ∧ normalize (pr_pso_class pr) = k) ∧
  NoDup (map key (classItems localeCompare playerRecords)) ∧
  (∀ it, it ∈ classItems localeCompare playerRecords → label it = key it) ∧
  ((∀ pr, pr ∈ playerRecords → asciiText (or_str (pr_pso_class pr) "")) →
   ∀ it, it ∈ classItems localeCompare playerRecords →
         asciiText (key it) ∧ normalize (Some (key it)) = key it) ∧
  labelSorted localeCompare (classItems localeCompare playerRecords) ∧
  (∀ records r pr,
     r ∈ records → pr ∈ playerRecords → pr_record_id pr = r_id r →
     normalize (pr_pso_class pr) ≠ "" →
     normalize (pr_pso_class pr)
       ∈ map key (classItems localeCompare playerRecords) ∧
     r ∈ filterRecords records playerRecords ∅
           {[normalize (pr_pso_class pr)]} "" "" "").
Proof.
  destruct (classSet_spec playerRecords) as [Hnd Hin].
  assert (Hkeys : ∀ k, k ∈ map key (classItems localeCompare playerRecords)
        ↔ k ≠ "" ∧
          ∃ pr, pr ∈ playerRecords ∧ normalize (pr_pso_class pr) = k).
  { intros k. by rewrite classItems_keys. }
  split_and!.
  - exact Hkeys.
  - by rewrite classItems_keys.
  - intros it Hit. unfold classItems in Hit.
    rewrite Array_sort_Permutation in Hit.
    by apply list_elem_of_fmap in Hit as (c & -> & Hc).
  - intros Hascii it Hit. unfold classItems in Hit.
    rewrite Array_sort_Permutation in Hit.
    apply list_elem_of_fmap in Hit as (c & -> & Hc). cbn.
    apply Hin in Hc as (_ & pr & Hpr & <-).
    split; [by apply asciiText_normalize, Hascii|apply normalize_fixed].
  - by apply sort_by_label_consistent.
  - intros records r pr Hr Hpr Hid Hne. split.
    + apply Hkeys. eauto.
    + rewrite filterRecords_passes. apply list_elem_of_filter.
      split; [|done]. unfold passes, hasSelectedClass.
      split_and!; try by left. right. apply Exists_exists.
      exists pr. split; [done|]. split; [done|].
      by apply elem_of_singleton.
Qed.

(** X15 on the fixture, with comparison by code units. *)
Lemma classItems_offered_witness :
  ConsistentComparator codeUnitCompare ∧
  map key (classItems codeUnitCompare fixturePlayerRecords)
  = ["fonewearl"; "humar"; "ramar"] ∧
  labelSorted codeUnitCompare (classItems codeUnitCompare fixturePlayerRecords).
Proof.
  split; [exact codeUnitCompare_consistent|]. split; [reflexivity|].
  exact (proj1 (proj2 (proj2 (proj2 (proj2
    (classItems_offered codeUnitCompare codeUnitCompare_consistent
       fixturePlayerRecords)))))).
Defined.

Lemma find_unique_key (items : list Item) (it : Item) :
  NoDup (map key items) → it ∈ items →
  List.find (λ it', String.eqb (key it') (key it)) items = Some it.
Proof.
  induction items as [|x l IH]; [by intros _ ?%elem_of_nil|].
  cbn [map List.find]. intros [Hx Hl]%NoDup_cons [->|Hin]%elem_of_cons.
  - by rewrite String.eqb_refl.
  - destruct (String.eqb_spec (key x) (key it)) as [E|_]; [|by apply IH].
    exfalso. apply Hx. rewrite E. by apply list_elem_of_fmap_2.
Qed.



(** ** Escaping loses nothing *)

Lemma entity_cons (a : ascii) : ∃ c r, entity a = String c r.
Proof.
  unfold entity.
  repeat match goal with
         | |- context [Ascii.eqb a ?y] => destruct (Ascii.eqb a y)
         end; eauto.
Qed.

Lemma entity_app_inj (a b : ascii) (s t : string) :
  entity a +:+ s = entity b +:+ t → a = b ∧ s = t.
Proof.
  unfold entity. intros H.
  repeat match type of H with
         | context [Ascii.eqb ?x ?y] =>
             destruct (Ascii.eqb_spec x y); try subst x; try discriminate
         end;
    cbv beta iota fix delta [String.append] in H;
    try discriminate; injection H; intros; subst; try done.
Qed.

Lemma escape_each_inj (s t : string) : escape_each s = escape_each t → s = t.
Proof.
  revert t. induction s as [|a s IH]; intros [|b t]; cbn [escape_each].
  - done.
  - destruct (entity_cons b) as (c & r & ->). by rewrite append_cons.
  - destruct (entity_cons a) as (c & r & ->). by rewrite append_cons.
  - intros [-> E]%entity_app_inj. f_equal. by apply IH.
Qed.

(** X17. Escaping loses no information: two texts have the same escaped
    form only when they are the same text. *)
Theorem esc_injective (s t : string) : esc (Str s) = esc (Str t) ↔ s = t.
Proof.
  split; [|by intros ->].
  rewrite !esc_escape_each. apply escape_each_inj.
Qed.

(** ** The row limit at its bounds *)

(** X18. A limit that is at least the number of records renders all of
    them; a negative limit [-k] renders all but the last [k] records (none
    when there are no more than [k]). *)
Theorem limit_bounds (localeCompare : string → string → Z)
    (records : list Rec) (questById : gmap Z Quest)
    (playerRecords : list PlayerRecord) (playerById : gmap Z Player) :
  (∀ n : Z, Z.of_nat (length records) ≤ n →
     selectRecords records (Some n) = records ∧
     renderGroupedTable localeCompare records questById playerRecords
       playerById (Some n)
     = renderGroupedTable localeCompare records questById playerRecords
         playerById None) ∧
  (∀ k : nat, (0 < k)%nat →
     selectRecords records (Some (- Z.of_nat k))
     = take (length records - k) records ∧
     renderGroupedTable localeCompare records questById playerRecords
       playerById (Some (- Z.of_nat k))
     = renderGroupedTable localeCompare (take (length records - k) records)
         questById playerRecords playerById None).
Proof.
  assert (Hall : ∀ n : Z, Z.of_nat (length records) ≤ n →
                          selectRecords records (Some n) = records).
  { intros n Hn. unfold selectRecords, slice0.
    destruct (Z.eqb_spec n 0); [done|].
    destruct (Z.ltb_spec n 0); [lia|].
    apply take_ge. lia. }
  assert (Hneg : ∀ k : nat, (0 < k)%nat →
     selectRecords records (Some (- Z.of_nat k))
     = take (length records - k) records).
  { intros k Hk. unfold selectRecords, slice0.
    destruct (Z.eqb_spec (- Z.of_nat k) 0); [lia|].
    destruct (Z.ltb_spec (- Z.of_nat k) 0); [|lia].
    f_equal. lia. }
  split.
  - intros n Hn. split; [by apply Hall|].
    unfold renderGroupedTable. by rewrite Hall.
  - intros k Hk. split; [by apply Hneg|].
    unfold renderGroupedTable. by rewrite Hneg.
Qed.

(** ** One marker per group *)

Lemma labelRows_describeLocal rows : ∀ earlier,
  labelRows (describeLocal earlier rows)
  = map (λ row, groupLabel (row_record row) (row_questName row))
        (groupStarts earlier rows).
Proof.
  induction rows as [|row rows IH]; intros earlier; [done|].
  cbn [describeLocal groupStarts].
  rewrite labelRows_app, map_app.
  change (labelRows (DataTr ?d :: ?b)) with (labelRows b).
  rewrite IH. f_equal. by destruct groupChanges.
Qed.

Section GroupFacts.
Context (lc : string → string → Z) `{!Collation lc}.

(** In sorted rows, the rows of a group are contiguous. *)
Lemma rowBefore_key_between a b c :
  rowBefore lc a b → rowBefore lc b c → rowKey a = rowKey c →
  rowKey b = rowKey c.
Proof.
  intros [H1|[E1 _]] [H2|[E2 _]] Ek; try congruence.
  exfalso. rewrite <-Ek in H2. by eapply collation_lt_asym.
Qed.

Lemma groupChanges_new_key earlier row :
  StronglySorted (rowBefore lc) (earlier ++ [row]) →
  groupChanges earlier row = true ↔ rowKey row ∉ map rowKey earlier.
Proof.
  intros Hs. unfold groupChanges.
  destruct (last earlier) as [prev|] eqn:Hlast.
  - apply last_Some in Hlast as [e' ->].
    rewrite bool_decide_eq_true. split.
    + intros Hne (e & Hk & He)%list_elem_of_fmap. apply Hne.
      apply elem_of_app in He as [He| ->%list_elem_of_singleton]; [|done].
      apply (rowBefore_key_between e prev row); [| |done].
      * rewrite <-app_assoc in Hs.
        eapply (StronglySorted_app_1_elem_of _ e'); [done..|by left].
      * eapply (StronglySorted_app_1_elem_of _ (e' ++ [prev])); [done|..].
        -- apply elem_of_app. right. by left.
        -- by left.
    + intros Hnot E. apply Hnot. rewrite <-E.
      apply list_elem_of_fmap_2, elem_of_app. right. by left.
  - apply last_None in Hlast as ->. split; [|done].
    intros _ []%elem_of_nil.
Qed.

Lemma groupStarts_keys rows : ∀ earlier,
  StronglySorted (rowBefore lc) (earlier ++ rows) →
  NoDup (map rowKey (groupStarts earlier rows)) ∧
  ∀ k, k ∈ map rowKey (groupStarts earlier rows)
       ↔ k ∈ map rowKey rows ∧ k ∉ map rowKey earlier.
Proof.
  induction rows as [|row rows IH]; intros earlier Hs.
  - cbn. split; [constructor|]. intros k. rewrite elem_of_nil. tauto.
  - cbn [groupStarts].
    assert (StronglySorted (rowBefore lc) (earlier ++ [row])) as Hs1.
    { change (row :: rows) with ([row] ++ rows) in Hs.
      rewrite app_assoc in Hs. by apply StronglySorted_app_1_l in Hs. }
    pose proof (groupChanges_new_key earlier row Hs1) as Hnew.
    destruct (IH (earlier ++ [row])) as [Hnd Hin];
      [by rewrite <-app_assoc|].
    assert (∀ k, k ∈ map rowKey (earlier ++ [row])
                 ↔ k ∈ map rowKey earlier ∨ k = rowKey row) as Hsnoc.
    { intros k. rewrite map_app, elem_of_app. cbn.
      by rewrite list_elem_of_singleton. }
    setoid_rewrite Hsnoc in Hin.
    destruct (groupChanges earlier row).
    + cbn [app map]. split.
      * apply NoDup_cons. split; [|done]. rewrite Hin. tauto.
      * intros k. rewrite !elem_of_cons, Hin.
        destruct Hnew as [Hnew _]. specialize (Hnew eq_refl).
        destruct (decide (k = rowKey row)) as [->|]; tauto.
    + cbn [app map]. split; [done|].
      intros k. rewrite elem_of_cons, Hin.
      assert (rowKey row ∈ map rowKey earlier) as Hold.
      { destruct (decide (rowKey row ∈ map rowKey earlier)); [done|].
        destruct Hnew as [_ Hnew]. by specialize (Hnew ltac:(done)). }
      destruct (decide (k = rowKey row)) as [->|]; tauto.
Qed.
End GroupFacts.

(** X19. On sorted rows every group gets exactly one label row: the label
    rows are the labels of the rows at which a group starts, these rows
    have pairwise different group keys, and every group key of the table is
    the key of one of them. *)
Theorem one_label_per_group (localeCompare : string → string → Z)
    (Hcoll : Collation localeCompare) (rows : list JoinedRow)
    (Hsorted : StronglySorted (rowBefore localeCompare) rows) :
  labelRows (renderBody rows)
  = map (λ row, groupLabel (row_record row) (row_questName row))
        (groupStarts [] rows) ∧
  NoDup (map rowKey (groupStarts [] rows)) ∧
  (∀ k, k ∈ map rowKey (groupStarts [] rows) ↔ k ∈ map rowKey rows) ∧
  length (labelRows (renderBody rows))
  = length (remove_dups (map rowKey rows)).
Proof.
  destruct (groupStarts_keys localeCompare rows [] Hsorted) as [Hnd Hin].
  assert (Hlabels : labelRows (renderBody rows)
    = map (λ row, groupLabel (row_record row) (row_questName row))
          (groupStarts [] rows)).
  { unfold renderBody. rewrite (renderBody_local rows [] initRender) by done.
    apply labelRows_describeLocal. }
  assert (Hkeys : ∀ k, k ∈ map rowKey (groupStarts [] rows)
                       ↔ k ∈ map rowKey rows).
  { intros k. rewrite Hin. cbn. rewrite elem_of_nil. tauto. }
  split_and!; [exact Hlabels|exact Hnd|exact Hkeys|].
  rewrite Hlabels, length_map, <-(length_map rowKey).
  apply Permutation_length, NoDup_Permutation;
    [done|apply NoDup_remove_dups|].
  intros k. by rewrite Hkeys, elem_of_remove_dups.
Qed.

(** X19 on the sorted rows of the fixture: three groups, three labels. *)
Lemma one_label_per_group_witness :
  Collation codeUnitCompare ∧
  StronglySorted (rowBefore codeUnitCompare)
    (sortRows codeUnitCompare fixtureRows) ∧
  length (labelRows (renderBody (sortRows codeUnitCompare fixtureRows)))
  = length (remove_dups
              (map rowKey (sortRows codeUnitCompare fixtureRows))).
Proof.
  assert (Hs : StronglySorted (rowBefore codeUnitCompare)
                 (sortRows codeUnitCompare fixtureRows)).
  { apply sortRows_StronglySorted;
      [exact codeUnitCompare_collation|exact fixtureRows_ids]. }
  split; [exact codeUnitCompare_collation|]. split; [exact Hs|].
  exact (proj2 (proj2 (proj2
    (one_label_per_group codeUnitCompare codeUnitCompare_collation _ Hs)))).
Defined.

(** ** Filtering hides whole records *)

Lemma occurrences_filter (P : Rec → Prop) `{!∀ r, Decision (P r)}
    (R : Rec) (records : list Rec) :
  occurrences R (filter P records)
  = if decide (P R) then occurrences R records else 0%nat.
Proof.
  unfold occurrences. rewrite list_filter_filter.
  destruct (decide (P R)) as [HP|HP].
  - f_equal. apply filter_iff_ext. intros r. split; [tauto|].
    intros ->. done.
  - induction records as [|r l IH]; [done|].
    rewrite filter_cons. destruct decide as [[-> ?]|_]; [done|apply IH].
Qed.

(** X20. The table of the filtering page is built from the filtered records
    and all player-records: a record that passes the filter keeps every one
    of its rows, also those of participants that were not selected, and a
    record that does not pass has no row. *)
Theorem filter_keeps_whole_records (records : list Rec)
    (questById : gmap Z Quest) (playerRecords : list PlayerRecord)
    (playerById : gmap Z Player)
    (selectedPlayerIds selectedClasses : gset string)
    (metaVal countVal pbVal : string) (R : Rec) :
  rowsOf R
    (joinRows questById playerRecords playerById
       (filterRecords records playerRecords selectedPlayerIds
          selectedClasses metaVal countVal pbVal))
  = if decide (passes playerRecords selectedPlayerIds selectedClasses
                 metaVal countVal pbVal R)
    then rowsOf R (joinRows questById playerRecords playerById records)
    else [].
Proof.
  rewrite filterRecords_passes, !rowsOf_joinRows, occurrences_filter.
  by destruct decide.
Qed.

(** ** Times display distinctly *)

Lemma two_digits_inj (s s' : Z) :
  0 ≤ s < 60 → 0 ≤ s' < 60 →
  digit (s / 10) = digit (s' / 10) → digit (s mod 10) = digit (s' mod 10) →
  s = s'.
Proof.
  intros Hs Hs' Hd Hm. unfold digit in *.
  assert (0 ≤ s / 10 < 10) by (split; [apply Z.div_pos|apply Z.div_lt_upper_bound]; lia).
  assert (0 ≤ s' / 10 < 10) by (split; [apply Z.div_pos|apply Z.div_lt_upper_bound]; lia).
  assert (0 ≤ s mod 10 < 10) by (apply Z.mod_pos_bound; lia).
  assert (0 ≤ s' mod 10 < 10) by (apply Z.mod_pos_bound; lia).
  apply pretty_N_char_inj in Hd; [|lia..].
  apply pretty_N_char_inj in Hm; [|lia..].
  rewrite (Z.div_mod s 10), (Z.div_mod s' 10) by lia. lia.
Qed.

(** X21. Different whole numbers of seconds of magnitude below [2^53] are
    displayed differently, and none of them as the empty string that stands
    for a non-finite time. *)
Theorem formatTime_injective (n n' : Z)
    (Hn : Z.abs n < 2 ^ 53) (Hn' : Z.abs n' < 2 ^ 53) :
  (formatTime (Int n) = formatTime (Int n') ↔ n = n') ∧
  formatTime (Int n) ≠ "".
Proof.
  split.
  - split; [|by intros ->].
    rewrite !formatTime_shape by done. intros E.
    assert (0 ≤ Z.abs n / 60) by (apply Z.div_pos; lia).
    assert (0 ≤ Z.abs n' / 60) by (apply Z.div_pos; lia).
    assert (0 ≤ Z.abs n mod 60 < 60) by (apply Z.mod_pos_bound; lia).
    assert (0 ≤ Z.abs n' mod 60 < 60) by (apply Z.mod_pos_bound; lia).
    change ("'" +:+ ?x) with (String "'" x) in E.
    apply split_at_char in E as [Em E];
      [|by apply pretty_nonneg_no_apostrophe..].
    apply (inj pretty) in Em.
    unfold two_digits in E. rewrite !append_cons in E.
    injection E as Hd1 Hd2 Hsuf.
    pose proof (two_digits_inj (Z.abs n mod 60) (Z.abs n' mod 60)
                  ltac:(done) ltac:(done) Hd1 Hd2) as Hs.
    pose proof (Z.div_mod (Z.abs n) 60 ltac:(lia)).
    pose proof (Z.div_mod (Z.abs n') 60 ltac:(lia)).
    assert (Z.abs n = Z.abs n') by lia.
    destruct (Z.ltb_spec n 0), (Z.ltb_spec n' 0); try discriminate; lia.
  - rewrite formatTime_shape by done.
    destruct (pretty (Z.abs n / 60)) as [|c s] eqn:E.
    + by apply pretty_Z_nonempty in E.
    + by rewrite append_cons.
Qed.

(** X21 at a run and a countdown of the same length: [454] and [-454]
    seconds. *)
Lemma formatTime_injective_witness :
  Z.abs 454 < 2 ^ 53 ∧ Z.abs (-454) < 2 ^ 53 ∧
  formatTime (Int 454) ≠ formatTime (Int (-454)) ∧
  formatTime (Int 454) ≠ "".
Proof.
  assert (H1 : Z.abs 454 < 2 ^ 53) by (by vm_compute).
  assert (H2 : Z.abs (-454) < 2 ^ 53) by (by vm_compute).
  destruct (formatTime_injective 454 (-454) H1 H2) as [Hinj Hne].
  split; [exact H1|]. split; [exact H2|]. split; [|exact Hne].
  intros E. apply Hinj in E. discriminate E.
Defined.
